(** * EvolvingNexusCounter: counter, bounded leaderboard and badge tiers

    A shallow embedding of [contract.sol] (the ledger program) and of the
    auto-refresh loop of the two client scripts, with the properties the
    specification states about them; then further functions of the contract
    and of the scripts, with properties read off their code.

    Conventions of the embedding.
    - [uint256] values are [N]; checked arithmetic (Solidity ^0.8) is written
      out: an addition whose result exceeds [MAX_UINT256] and a subtraction
      below zero abort the call with [Panic 0x11].
    - Array indices are [nat]; an out-of-range access aborts with
      [Panic 0x32].  The arrays hold at most [MAX_TOP] entries, so no index
      computation can wrap.
    - A [mapping(address => T)] is a total function from addresses, every key
      initially mapped to zero.
    - Contract code runs in a state-and-error monad; an aborted call leaves
      the storage as it was before the call ([transact]).
    - The two calls that leave the contract ([transfer] to the owner and the
      receiver hook of OpenZeppelin's [_safeMint]) are given by their outcome
      (accepted or rejected).  In [Contract] the receiver does not call back;
      [Reentrant] adds the calls a receiver makes from its hook, and the
      entry points inherited from [ERC721] and [Ownable]. *)

From Stdlib Require Import NArith ZArith Lia.
From stdpp Require Import base list numbers strings pretty gmap.

Set Default Proof Using "Type".
Open Scope N_scope.

Module Contract.

(** ** Data model *)

Definition address := N.

Definition MAX_UINT256 : N := Eval cbv in 2 ^ 256 - 1.
Definition COOLDOWN_SECONDS : N := 3600.
Definition MAX_TOP : nat := 20.

Record UserStats := mkUserStats {
  increments : N;
  decrements : N;
  lastActionTime : N;
  badgeTier : N
}.

Inductive Event :=
| CounterChanged (user : address) (delta : Z) (newCount : N)
| BadgeAssigned (user : address) (tokenId : N) (tier : N)
| FeeUpdated (newFee : N)
| BadgeThresholdsUpdated
| CounterReset (newValue : N)
| Transfer (from to : address) (tokenId : N).

(** Contract storage.  [owner] and [_owners] are the storage of the
    [Ownable] and [ERC721] bases that the code of [contract.sol] reads and
    writes; [events] is the log of the emitted events, oldest first. *)
Record State := mkState {
  fee : N;
  count : N;
  incrementCount : address → N;
  topAddresses : list address;
  topCounts : list N;
  nextTokenId : N;
  userStats : address → UserStats;
  userTokenId : address → N;
  bronzeThreshold : N;
  silverThreshold : N;
  goldThreshold : N;
  platinumThreshold : N;
  diamondThreshold : N;
  masterThreshold : N;
  legendaryThreshold : N;
  owner : address;
  _owners : N → address;
  events : list Event
}.

(** What a call sees of its environment: the caller, the attached payment,
    the block time, and the outcome of the two external calls. *)
Record Env := mkEnv {
  msg_sender : address;
  msg_value : N;
  block_timestamp : N;
  owner_accepts : bool;
  receiver_accepts : bool
}.

Inductive Error :=
| Revert (reason : string)
| Panic (code : N).

(** ** The state-and-error monad *)

Definition M (A : Type) : Type := State → Error + (A * State).

Definition ret {A} (a : A) : M A := λ s, inr (a, s).
Definition bind {A B} (m : M A) (k : A → M B) : M B :=
  λ s, match m s with
       | inl e => inl e
       | inr (a, s') => k a s'
       end.
Definition fail {A} (e : Error) : M A := λ _, inl e.
Definition gets {A} (f : State → A) : M A := λ s, inr (f s, s).
Definition modify (f : State → State) : M unit := λ s, inr (tt, f s).

Notation "'let*' x := m 'in' k" := (bind m (λ x, k))
  (at level 10, x name, m at level 100, k at level 200).
Notation "'do*' m 'in' k" := (bind m (λ _, k))
  (at level 10, m at level 100, k at level 200).

Definition require (b : bool) (reason : string) : M unit :=
  if b then ret tt else fail (Revert reason).

Definition checked_add (a b : N) : M N :=
  if a + b <=? MAX_UINT256 then ret (a + b) else fail (Panic 17).
Definition checked_sub (a b : N) : M N :=
  if b <=? a then ret (a - b) else fail (Panic 17).

(** ** Storage writes *)

Definition upd {V} (m : address → V) (k : address) (v : V) : address → V :=
  λ a, if N.eqb a k then v else m a.

Definition set_fee (v : N) (s : State) : State :=
  mkState v (count s) (incrementCount s) (topAddresses s) (topCounts s)
    (nextTokenId s) (userStats s) (userTokenId s) (bronzeThreshold s)
    (silverThreshold s) (goldThreshold s) (platinumThreshold s)
    (diamondThreshold s) (masterThreshold s) (legendaryThreshold s)
    (owner s) (_owners s) (events s).

Definition set_count (v : N) (s : State) : State :=
  mkState (fee s) v (incrementCount s) (topAddresses s) (topCounts s)
    (nextTokenId s) (userStats s) (userTokenId s) (bronzeThreshold s)
    (silverThreshold s) (goldThreshold s) (platinumThreshold s)
    (diamondThreshold s) (masterThreshold s) (legendaryThreshold s)
    (owner s) (_owners s) (events s).

Definition set_incrementCount (v : address → N) (s : State) : State :=
  mkState (fee s) (count s) v (topAddresses s) (topCounts s)
    (nextTokenId s) (userStats s) (userTokenId s) (bronzeThreshold s)
    (silverThreshold s) (goldThreshold s) (platinumThreshold s)
    (diamondThreshold s) (masterThreshold s) (legendaryThreshold s)
    (owner s) (_owners s) (events s).

Definition set_topAddresses (v : list address) (s : State) : State :=
  mkState (fee s) (count s) (incrementCount s) v (topCounts s)
    (nextTokenId s) (userStats s) (userTokenId s) (bronzeThreshold s)
    (silverThreshold s) (goldThreshold s) (platinumThreshold s)
    (diamondThreshold s) (masterThreshold s) (legendaryThreshold s)
    (owner s) (_owners s) (events s).

Definition set_topCounts (v : list N) (s : State) : State :=
  mkState (fee s) (count s) (incrementCount s) (topAddresses s) v
    (nextTokenId s) (userStats s) (userTokenId s) (bronzeThreshold s)
    (silverThreshold s) (goldThreshold s) (platinumThreshold s)
    (diamondThreshold s) (masterThreshold s) (legendaryThreshold s)
    (owner s) (_owners s) (events s).

Definition set_nextTokenId (v : N) (s : State) : State :=
  mkState (fee s) (count s) (incrementCount s) (topAddresses s) (topCounts s)
    v (userStats s) (userTokenId s) (bronzeThreshold s)
    (silverThreshold s) (goldThreshold s) (platinumThreshold s)
    (diamondThreshold s) (masterThreshold s) (legendaryThreshold s)
    (owner s) (_owners s) (events s).

Definition set_userStats (v : address → UserStats) (s : State) : State :=
  mkState (fee s) (count s) (incrementCount s) (topAddresses s) (topCounts s)
    (nextTokenId s) v (userTokenId s) (bronzeThreshold s)
    (silverThreshold s) (goldThreshold s) (platinumThreshold s)
    (diamondThreshold s) (masterThreshold s) (legendaryThreshold s)
    (owner s) (_owners s) (events s).

Definition set_userTokenId (v : address → N) (s : State) : State :=
  mkState (fee s) (count s) (incrementCount s) (topAddresses s) (topCounts s)
    (nextTokenId s) (userStats s) v (bronzeThreshold s)
    (silverThreshold s) (goldThreshold s) (platinumThreshold s)
    (diamondThreshold s) (masterThreshold s) (legendaryThreshold s)
    (owner s) (_owners s) (events s).

Definition set_thresholds (b sv g p d m l : N) (s : State) : State :=
  mkState (fee s) (count s) (incrementCount s) (topAddresses s) (topCounts s)
    (nextTokenId s) (userStats s) (userTokenId s) b sv g p d m l
    (owner s) (_owners s) (events s).

Definition set__owners (v : N → address) (s : State) : State :=
  mkState (fee s) (count s) (incrementCount s) (topAddresses s) (topCounts s)
    (nextTokenId s) (userStats s) (userTokenId s) (bronzeThreshold s)
    (silverThreshold s) (goldThreshold s) (platinumThreshold s)
    (diamondThreshold s) (masterThreshold s) (legendaryThreshold s)
    (owner s) v (events s).

Definition add_event (e : Event) (s : State) : State :=
  mkState (fee s) (count s) (incrementCount s) (topAddresses s) (topCounts s)
    (nextTokenId s) (userStats s) (userTokenId s) (bronzeThreshold s)
    (silverThreshold s) (goldThreshold s) (platinumThreshold s)
    (diamondThreshold s) (masterThreshold s) (legendaryThreshold s)
    (owner s) (_owners s) (events s ++ [e]).

Definition emit (e : Event) : M unit := modify (add_event e).

Definition set_increments (v : N) (u : UserStats) : UserStats :=
  mkUserStats v (decrements u) (lastActionTime u) (badgeTier u).
Definition set_decrements (v : N) (u : UserStats) : UserStats :=
  mkUserStats (increments u) v (lastActionTime u) (badgeTier u).
Definition set_lastActionTime (v : N) (u : UserStats) : UserStats :=
  mkUserStats (increments u) (decrements u) v (badgeTier u).
Definition set_badgeTier (v : N) (u : UserStats) : UserStats :=
  mkUserStats (increments u) (decrements u) (lastActionTime u) v.

(** [userStats[a].f = ...]: rewrite one field of one user's record. *)
Definition modify_userStats (a : address) (f : UserStats → UserStats) : M unit :=
  modify (λ s, set_userStats (upd (userStats s) a (f (userStats s a))) s).

(** ** Storage arrays *)

Definition read_topAddresses (i : nat) : M address :=
  λ s, match topAddresses s !! i with
       | Some a => inr (a, s)
       | None => inl (Panic 50)
       end.

Definition read_topCounts (i : nat) : M N :=
  λ s, match topCounts s !! i with
       | Some c => inr (c, s)
       | None => inl (Panic 50)
       end.

Definition write_topAddresses (i : nat) (a : address) : M unit :=
  λ s, if decide (i < length (topAddresses s))%nat
       then inr (tt, set_topAddresses (<[i := a]> (topAddresses s)) s)
       else inl (Panic 50).

Definition write_topCounts (i : nat) (c : N) : M unit :=
  λ s, if decide (i < length (topCounts s))%nat
       then inr (tt, set_topCounts (<[i := c]> (topCounts s)) s)
       else inl (Panic 50).

(** ** Modifiers *)

Definition onlyPaid (e : Env) (body : M unit) : M unit :=
  let* fee_ := gets fee in
  do* require (msg_value e =? fee_) "Must pay exact fee" in
  body.

(** The [require] of [timeLocked], the part of the modifier that runs
    before the function body. *)
Definition timeLocked_check (e : Env) : M unit :=
  let* last := gets (λ s, lastActionTime (userStats s (msg_sender e))) in
  let* unlock := checked_add last COOLDOWN_SECONDS in
  require (unlock <=? block_timestamp e) "Action locked: wait".

Definition timeLocked (e : Env) (body : M unit) : M unit :=
  do* timeLocked_check e in
  do* body in
  modify_userStats (msg_sender e) (set_lastActionTime (block_timestamp e)).

(** [onlyOwner] of OpenZeppelin's [Ownable]. *)
Definition onlyOwner (e : Env) (body : M unit) : M unit :=
  let* o := gets owner in
  do* require (msg_sender e =? o) "OwnableUnauthorizedAccount" in
  body.

(** A function that is not [payable] rejects a call that carries value. *)
Definition nonPayable (e : Env) (body : M unit) : M unit :=
  do* require (msg_value e =? 0) "" in
  body.

(** ** Leaderboard maintenance *)

(** The bubble loop, written three times in the source (with [i], [j] and
    [k] as the index):
    [while (i > 0 && topCounts[i] > topCounts[i - 1]) { swap; i--; }] *)
Fixpoint bubble (i : nat) : M unit :=
  match i with
  | O => ret tt
  | S i' =>
      let* ci := read_topCounts i in
      let* cl := read_topCounts i' in
      if cl <? ci then
        do* write_topCounts i' ci in
        do* write_topCounts i cl in
        let* ai := read_topAddresses i in
        let* al := read_topAddresses i' in
        do* write_topAddresses i' ai in
        do* write_topAddresses i al in
        bubble i'
      else ret tt
  end.

(** The scan [for (i = 0; i < topAddresses.length; i++)]: [n] iterations are
    left and the index is [i].  Returns [true] when the user was found (the
    source returns from the function there). *)
Fixpoint scan (user : address) (userCount : N) (n i : nat) : M bool :=
  match n with
  | O => ret false
  | S n' =>
      let* a := read_topAddresses i in
      if a =? user then
        do* write_topCounts i userCount in
        do* bubble i in
        ret true
      else scan user userCount n' (S i)
  end.

Definition _updateTopLeaderboard (user : address) : M unit :=
  let* userCount := gets (λ s, incrementCount s user) in
  let* len := gets (λ s, length (topAddresses s)) in
  let* found := scan user userCount len 0 in
  if found : bool then ret tt
  else if decide (len < MAX_TOP)%nat then
    do* modify (λ s, set_topAddresses (topAddresses s ++ [user]) s) in
    do* modify (λ s, set_topCounts (topCounts s ++ [userCount]) s) in
    let* j := gets (λ s, (length (topAddresses s) - 1)%nat) in
    bubble j
  else
    let* clen := gets (λ s, length (topCounts s)) in
    do* (if decide (clen = 0)%nat then fail (Panic 17) else ret tt) in
    let* worst := read_topCounts (clen - 1) in
    if userCount <=? worst then ret tt
    else
      do* write_topAddresses (len - 1) user in
      do* write_topCounts (len - 1) userCount in
      bubble (len - 1).

(** ** Badge logic *)

Definition _determineTier (s : State) (increments : N) : N :=
  if legendaryThreshold s <=? increments then 7
  else if masterThreshold s <=? increments then 6
  else if diamondThreshold s <=? increments then 5
  else if platinumThreshold s <=? increments then 4
  else if goldThreshold s <=? increments then 3
  else if silverThreshold s <=? increments then 2
  else if bronzeThreshold s <=? increments then 1
  else 0.

(** OpenZeppelin's [ERC721._safeMint], at its interface: the token must
    not exist and the receiver must not be the zero address; the token is
    recorded, [Transfer(0, to, tokenId)] is emitted, and the receiver may
    reject the token.  Here the receiver only answers; the calls it may
    make from its hook are in [Reentrant._safeMint]. *)
Definition _safeMint (e : Env) (to : address) (tokenId : N) : M unit :=
  do* require (negb (to =? 0)) "ERC721InvalidReceiver" in
  let* prev := gets (λ s, _owners s tokenId) in
  do* require (prev =? 0) "ERC721InvalidSender" in
  do* modify (λ s, set__owners (λ t, if t =? tokenId then to else _owners s t) s) in
  do* emit (Transfer 0 to tokenId) in
  require (receiver_accepts e) "ERC721InvalidReceiver".

Definition _assignOrUpdateBadge (e : Env) (user : address) : M unit :=
  let* tier := gets (λ s, _determineTier s (increments (userStats s user))) in
  let* stored := gets (λ s, badgeTier (userStats s user)) in
  if stored <? tier then
    do* modify_userStats user (set_badgeTier tier) in
    let* tok := gets (λ s, userTokenId s user) in
    do* (if tok =? 0 then
           let* tokenId := gets nextTokenId in
           let* next := checked_add tokenId 1 in
           do* modify (set_nextTokenId next) in
           do* _safeMint e user tokenId in
           modify (λ s, set_userTokenId (upd (userTokenId s) user tokenId) s)
         else ret tt) in
    let* tok' := gets (λ s, userTokenId s user) in
    emit (BadgeAssigned user tok' tier)
  else ret tt.

(** ** Public functions *)

(** [payable(owner()).transfer(msg.value)] *)
Definition transfer_to_owner (e : Env) : M unit :=
  require (owner_accepts e) "transfer failed".

Definition increment (e : Env) : M unit :=
  onlyPaid e (timeLocked e (
    let* c := gets count in
    let* c' := checked_add c 1 in
    do* modify (set_count c') in
    let* ic := gets (λ s, incrementCount s (msg_sender e)) in
    let* ic' := checked_add ic 1 in
    do* modify (λ s, set_incrementCount (upd (incrementCount s) (msg_sender e) ic') s) in
    do* _updateTopLeaderboard (msg_sender e) in
    let* inc := gets (λ s, increments (userStats s (msg_sender e))) in
    let* inc' := checked_add inc 1 in
    do* modify_userStats (msg_sender e) (set_increments inc') in
    do* _assignOrUpdateBadge e (msg_sender e) in
    do* transfer_to_owner e in
    let* c'' := gets count in
    emit (CounterChanged (msg_sender e) 1%Z c''))).

Definition decrement (e : Env) : M unit :=
  onlyPaid e (timeLocked e (
    let* c := gets count in
    do* require (0 <? c) "Counter already zero" in
    let* c' := checked_sub c 1 in
    do* modify (set_count c') in
    let* ic := gets (λ s, incrementCount s (msg_sender e)) in
    let* ic' := checked_add ic 1 in
    do* modify (λ s, set_incrementCount (upd (incrementCount s) (msg_sender e) ic') s) in
    do* _updateTopLeaderboard (msg_sender e) in
    let* dec := gets (λ s, decrements (userStats s (msg_sender e))) in
    let* dec' := checked_add dec 1 in
    do* modify_userStats (msg_sender e) (set_decrements dec') in
    do* _assignOrUpdateBadge e (msg_sender e) in
    do* transfer_to_owner e in
    let* c'' := gets count in
    emit (CounterChanged (msg_sender e) (-1)%Z c''))).

Definition setFee (e : Env) (_newFee : N) : M unit :=
  nonPayable e (onlyOwner e (
    do* modify (set_fee _newFee) in
    emit (FeeUpdated _newFee))).

Definition resetCounter (e : Env) (_newValue : N) : M unit :=
  nonPayable e (onlyOwner e (
    do* modify (set_count _newValue) in
    emit (CounterReset _newValue))).

Definition setBadgeThresholds (e : Env)
    (bronze silver gold platinum diamond master legendary : N) : M unit :=
  nonPayable e (onlyOwner e (
    do* modify (set_thresholds bronze silver gold platinum diamond master legendary) in
    emit BadgeThresholdsUpdated)).

(** ** Transactions *)

Inductive Call :=
| Increment
| Decrement
| SetFee (_newFee : N)
| ResetCounter (_newValue : N)
| SetBadgeThresholds (bronze silver gold platinum diamond master legendary : N).

Definition dispatch (c : Call) (e : Env) : M unit :=
  match c with
  | Increment => increment e
  | Decrement => decrement e
  | SetFee f => setFee e f
  | ResetCounter v => resetCounter e v
  | SetBadgeThresholds b s g p d m l => setBadgeThresholds e b s g p d m l
  end.

(** A call either commits the storage it computed or, when it aborts,
    leaves the storage it started from. *)
Definition transact (s : State) (ce : Call * Env) : State :=
  match dispatch ce.1 ce.2 s with
  | inr (_, s') => s'
  | inl _ => s
  end.

Definition run (s : State) (calls : list (Call * Env)) : State :=
  foldl transact s calls.

(** The storage after the constructor ran for [deployer] with
    [_initialFee]. *)
Definition deploy (deployer : address) (_initialFee : N) : State :=
  mkState _initialFee 0 (λ _, 0) [] [] 1 (λ _, mkUserStats 0 0 0 0) (λ _, 0)
    10 25 50 100 250 500 1000 deployer (λ _, 0) [].

(** The states reached from the constructor by calls of the five external
    functions of [contract.sol], with receivers that do not call back.
    [Reentrant.reachable] adds the calls a receiver makes from its hook and
    the functions inherited from [ERC721] and [Ownable]; it contains these
    states ([Reentrancy.reachable_passive]). *)
Inductive reachable : State → Prop :=
| reachable_deploy deployer _initialFee :
    reachable (deploy deployer _initialFee)
| reachable_step s ce :
    reachable s → reachable (transact s ce).

(** ** The leaderboard as a sequence of entries *)

Abbreviation Entry := (address * N)%type.

Definition leaderboard (s : State) : list Entry :=
  zip (topAddresses s) (topCounts s).

Definition with_board (A : list address) (C : list N) (s : State) : State :=
  set_topAddresses A (set_topCounts C s).

(** Scores in non-increasing order, and in strictly decreasing order. *)
Definition descending (l : list N) : Prop :=
  ∀ i j x y, (i < j)%nat → l !! i = Some x → l !! j = Some y → y ≤ x.

Definition strictly_descending (l : list N) : Prop :=
  ∀ i j x y, (i < j)%nat → l !! i = Some x → l !! j = Some y → y < x.

(** [lb_update u uc E E']: what one leaderboard update for [u], whose action
    count is [uc], makes of the entries [E].  In each case the entry of [u]
    ends at an index [n] such that the entries it passed ([drop n] of those
    that were ahead of it) all score strictly less than [uc], and the entry
    it stopped behind scores at least [uc]. *)
Inductive lb_update (u : address) (uc : N) : list Entry → list Entry → Prop :=
| lb_found pre c post n :
    u ∉ pre.*1 →
    (n ≤ length pre)%nat →
    Forall (λ p, p.2 < uc) (drop n pre) →
    (∀ p, last (take n pre) = Some p → uc ≤ p.2) →
    lb_update u uc (pre ++ (u, c) :: post)
                   (take n pre ++ (u, uc) :: drop n pre ++ post)
| lb_append E n :
    u ∉ E.*1 →
    (length E < MAX_TOP)%nat →
    (n ≤ length E)%nat →
    Forall (λ p, p.2 < uc) (drop n E) →
    (∀ p, last (take n E) = Some p → uc ≤ p.2) →
    lb_update u uc E (take n E ++ (u, uc) :: drop n E)
| lb_reject E w :
    u ∉ E.*1 →
    (MAX_TOP ≤ length E)%nat →
    last E = Some w →
    uc ≤ w.2 →
    lb_update u uc E E
| lb_replace E w n :
    u ∉ (E ++ [w]).*1 →
    (MAX_TOP ≤ length (E ++ [w]))%nat →
    w.2 < uc →
    (n ≤ length E)%nat →
    Forall (λ p, p.2 < uc) (drop n E) →
    (∀ p, last (take n E) = Some p → uc ≤ p.2) →
    lb_update u uc (E ++ [w]) (take n E ++ (u, uc) :: drop n E).

(** [before a b E]: an entry of [a] stands ahead of an entry of [b]. *)
Definition before (a b : address) (E : list Entry) : Prop :=
  [a; b] `sublist_of` E.*1.

(** No reordering among equal scores, and insertion behind equal scores:
    when [a] stands ahead of [b] on the board [E'] and both hold the same
    score there, [a] was on the board [E] already (an address that enters the
    board is not placed ahead of an equal score), and if [b] was on [E] too,
    [a] stood ahead of [b] there. *)
Definition ties_stable (E E' : list Entry) : Prop :=
  ∀ a b c, (a, c) ∈ E' → (b, c) ∈ E' → before a b E' →
    a ∈ E.*1 ∧ (b ∈ E.*1 → before a b E).

(** ** States and predicates used by the statements *)

(** [board_only s s']: [s'] differs from [s] in the two leaderboard arrays
    at most. *)
Definition board_only (s s' : State) : Prop :=
  s' = with_board (topAddresses s') (topCounts s') s.

Definition action (up : bool) : Call := if up then Increment else Decrement.


(** The storage of a counter action at three points of its body: before the
    leaderboard update, before the badge recomputation, and at its end. *)
Definition pre_update (up : bool) (u : address) (s : State) : State :=
  set_incrementCount (upd (incrementCount s) u (incrementCount s u + 1))
    (set_count (if up then count s + 1 else count s - 1) s).

Definition stats_bumped (up : bool) (u : address) (s : State) : State :=
  set_userStats
    (upd (userStats s) u
       (if up then set_increments (increments (userStats s u) + 1) (userStats s u)
        else set_decrements (decrements (userStats s u) + 1) (userStats s u)))
    s.

Definition finish (up : bool) (e : Env) (s : State) : State :=
  let s5 := add_event (CounterChanged (msg_sender e)
                         (if up then 1%Z else (-1)%Z) (count s)) s in
  set_userStats
    (upd (userStats s5) (msg_sender e)
       (set_lastActionTime (block_timestamp e) (userStats s5 (msg_sender e))))
    s5.

Record lb_inv (s : State) : Prop := mk_lb_inv {
  lb_lengths : length (topAddresses s) = length (topCounts s);
  lb_capacity : (length (topAddresses s) ≤ MAX_TOP)%nat;
  lb_nodup : NoDup (topAddresses s);
  lb_sorted : descending (topCounts s);
  lb_scores : ∀ a c, (a, c) ∈ leaderboard s → c = incrementCount s a;
  lb_actions : ∀ a, incrementCount s a
                    = increments (userStats s a) + decrements (userStats s a)
}.

(** The tokens minted for [a], read off the event log: the ids of the
    [Transfer] events from the zero address to [a]. *)
Definition minted_tokens (a : address) (evs : list Event) : list N :=
  omap (λ ev, match ev with
              | Transfer from to tok =>
                  if (from =? 0) && (to =? a) then Some tok else None
              | _ => None
              end) evs.

Definition same_thresholds (s s' : State) : Prop :=
  bronzeThreshold s' = bronzeThreshold s
  ∧ silverThreshold s' = silverThreshold s
  ∧ goldThreshold s' = goldThreshold s
  ∧ platinumThreshold s' = platinumThreshold s
  ∧ diamondThreshold s' = diamondThreshold s
  ∧ masterThreshold s' = masterThreshold s
  ∧ legendaryThreshold s' = legendaryThreshold s.

Record badge_ok (s : State) : Prop := mk_badge_ok {
  tok_pos : 1 ≤ nextTokenId s;
  tok_tier : ∀ a, userTokenId s a = 0 ↔ badgeTier (userStats s a) = 0;
  tok_minted : ∀ a, minted_tokens a (events s)
                    = if userTokenId s a =? 0 then [] else [userTokenId s a]
}.

(** Two addresses that acted once each: a reachable board with a tie. *)
Definition two_tied : State :=
  run (deploy 1 0) [(Increment, mkEnv 7 0 3600 true true);
                    (Increment, mkEnv 8 0 3600 true true)].

(** Address 7 acting [n] times, one hour apart, on a fresh deployment with
    fee 0. *)
Definition increments_by_7 (n : nat) : State :=
  run (deploy 1 0)
      (map (λ i, (Increment, mkEnv 7 0 (3600 * N.of_nat i) true true))
           (seq 1 n)).

(** A board that holds only counts set beforehand: address [a] has made
    [a] actions.  [updates] runs the leaderboard update for each address of
    a list in turn. *)
Definition preset_counts : State := set_incrementCount (λ a, a) (deploy 0 0).

Definition updates (s : State) (us : list address) : State :=
  foldl (λ s a, match _updateTopLeaderboard a s with
                | inr (_, s') => s'
                | inl _ => s
                end) s us.

Definition addresses_1_to (n : nat) : list address := map N.of_nat (seq 1 n).

(** The thresholds in force are the ones the contract is deployed with. *)
Definition default_thresholds (s : State) : Prop :=
  bronzeThreshold s = 10
  ∧ silverThreshold s = 25
  ∧ goldThreshold s = 50
  ∧ platinumThreshold s = 100
  ∧ diamondThreshold s = 250
  ∧ masterThreshold s = 500
  ∧ legendaryThreshold s = 1000.

End Contract.

(** * The auto-refresh loop of the client

    The page script is single-threaded: a timer callback or the continuation
    of an [await] runs to its next [await] without interruption.  One step of
    the model is one such run.  A refresh cycle is in flight from the tick
    that starts it until its callback has finished; [cycles] lists the cycles
    in flight.  The embedding follows [startAutoRefresh] and
    [stopAutoRefresh] of the two page scripts. *)

Module Client.

Inductive PageEvent :=
| Connected (account : string)   (* userAddress = account *)
| Disconnected                   (* userAddress = null *)
| StartAutoRefresh
| StopAutoRefresh
| Tick                           (* the interval timer fires *)
| Settled (i : nat) (ok : bool). (* the promise cycle [i] awaits settles *)

(** The first script ([main.js]): the callback awaits four reads in turn and
    has no guard against a cycle that is still running. *)
Module MainJs.

Inductive Await := AwaitCount | AwaitBadge | AwaitLeaderboard | AwaitBalance.

Record MainPage := mkMainPage {
  userAddress : option string;
  autoRefreshInterval : option nat;
  main_cycles : list Await
}.

Definition main_init : MainPage := mkMainPage None None [].

Definition startAutoRefresh (p : MainPage) : MainPage :=
  match autoRefreshInterval p with
  | Some _ => p
  | None => mkMainPage (userAddress p) (Some 1%nat) (main_cycles p)
  end.

Definition stopAutoRefresh (p : MainPage) : MainPage :=
  match autoRefreshInterval p with
  | Some _ => mkMainPage (userAddress p) None (main_cycles p)
  | None => p
  end.

(** The interval callback up to its first [await]:
    [if (userAddress) { await updateCount(false); ... }] *)
Definition main_tick (p : MainPage) : MainPage :=
  match autoRefreshInterval p, userAddress p with
  | Some _, Some _ =>
      mkMainPage (userAddress p) (autoRefreshInterval p) (main_cycles p ++ [AwaitCount])
  | _, _ => p
  end.

(** The continuation of cycle [i] when the read it awaits settles: on to
    the next [await], or to the end of the callback.  [updateCount],
    [updateBadge], [fetchLeaderboard] and [updateWalletBalance] each catch
    the rejection of their read, so the callback goes on in the same way
    whether the read was fulfilled ([ok]) or rejected. *)
Definition main_resume (i : nat) (ok : bool) (p : MainPage) : MainPage :=
  match main_cycles p !! i with
  | None => p
  | Some a =>
      let next :=
        match a with
        | AwaitCount => Some AwaitBadge
        | AwaitBadge => Some AwaitLeaderboard
        | AwaitLeaderboard => Some AwaitBalance
        | AwaitBalance => None
        end in
      mkMainPage (userAddress p) (autoRefreshInterval p)
        match next with
        | Some a' => <[i := a']> (main_cycles p)
        | None => delete i (main_cycles p)
        end
  end.

Definition main_step (p : MainPage) (ev : PageEvent) : MainPage :=
  match ev with
  | Connected a => mkMainPage (Some a) (autoRefreshInterval p) (main_cycles p)
  | Disconnected => mkMainPage None (autoRefreshInterval p) (main_cycles p)
  | StartAutoRefresh => startAutoRefresh p
  | StopAutoRefresh => stopAutoRefresh p
  | Tick => main_tick p
  | Settled i ok => main_resume i ok p
  end.

Definition main_run (p : MainPage) (evs : list PageEvent) : MainPage := foldl main_step p evs.

End MainJs.

(** The second script (the longer of the two, "with race condition
    protection"): the callback is guarded by [isRefreshing] and awaits one
    [Promise.all]. *)
Module Guarded.

Record GuardedPage := mkGuardedPage {
  userAddress : option string;
  autoRefreshInterval : option nat;
  isRefreshing : bool;
  guarded_cycles : list unit
}.

Definition guarded_init : GuardedPage := mkGuardedPage None None false [].

Definition startAutoRefresh (p : GuardedPage) : GuardedPage :=
  match autoRefreshInterval p with
  | Some _ => p
  | None => mkGuardedPage (userAddress p) (Some 1%nat) (isRefreshing p) (guarded_cycles p)
  end.

Definition stopAutoRefresh (p : GuardedPage) : GuardedPage :=
  match autoRefreshInterval p with
  | Some _ => mkGuardedPage (userAddress p) None (isRefreshing p) (guarded_cycles p)
  | None => p
  end.

(** [if (userAddress && !isRefreshing) { isRefreshing = true;
      try { await Promise.all([...]) } ... }] *)
Definition guarded_tick (p : GuardedPage) : GuardedPage :=
  match autoRefreshInterval p, userAddress p, isRefreshing p with
  | Some _, Some _, false =>
      mkGuardedPage (userAddress p) (autoRefreshInterval p) true (guarded_cycles p ++ [tt])
  | _, _, _ => p
  end.

(** [catch] logs a rejection; [finally { isRefreshing = false; }] runs
    either way and the callback ends. *)
Definition guarded_resume (i : nat) (ok : bool) (p : GuardedPage) : GuardedPage :=
  match guarded_cycles p !! i with
  | None => p
  | Some _ =>
      mkGuardedPage (userAddress p) (autoRefreshInterval p) false (delete i (guarded_cycles p))
  end.

Definition guarded_step (p : GuardedPage) (ev : PageEvent) : GuardedPage :=
  match ev with
  | Connected a =>
      mkGuardedPage (Some a) (autoRefreshInterval p) (isRefreshing p) (guarded_cycles p)
  | Disconnected =>
      mkGuardedPage None (autoRefreshInterval p) (isRefreshing p) (guarded_cycles p)
  | StartAutoRefresh => startAutoRefresh p
  | StopAutoRefresh => stopAutoRefresh p
  | Tick => guarded_tick p
  | Settled i ok => guarded_resume i ok p
  end.

Definition guarded_run (p : GuardedPage) (evs : list PageEvent) : GuardedPage := foldl guarded_step p evs.

End Guarded.

End Client.

(** * Further predicates on the contract storage

    Definitions used by the properties that go beyond the claims of the
    specification: read-offs of the event log, the threshold table by index,
    and the records of the further invariants. *)

Module ContractViews.
Import Contract.

(** The counter value carried by the last [CounterChanged] or [CounterReset]
    event of a log, if there is one. *)
Definition last_counter (evs : list Event) : option N :=
  foldl (λ acc ev, match ev with
                   | CounterChanged _ _ c => Some c
                   | CounterReset v => Some v
                   | _ => acc
                   end) None evs.

(** The ids of all minted tokens, in the order of their mint events. *)
Definition all_minted (evs : list Event) : list N :=
  omap (λ ev, match ev with
              | Transfer from _ tok => if from =? 0 then Some tok else None
              | _ => None
              end) evs.

(** The threshold of tier [k] (1 to 7); no threshold for other numbers. *)
Definition threshold (s : State) (k : N) : option N :=
  match k with
  | 1 => Some (bronzeThreshold s)
  | 2 => Some (silverThreshold s)
  | 3 => Some (goldThreshold s)
  | 4 => Some (platinumThreshold s)
  | 5 => Some (diamondThreshold s)
  | 6 => Some (masterThreshold s)
  | 7 => Some (legendaryThreshold s)
  | _ => None
  end.

Definition is_setBadgeThresholds (c : Call) : bool :=
  match c with
  | SetBadgeThresholds _ _ _ _ _ _ _ => true
  | _ => false
  end.

Definition is_owner_call (c : Call) : bool :=
  match c with
  | Increment | Decrement => false
  | _ => true
  end.

(** The board holds the highest counts. *)
Record top_inv (s : State) : Prop := mk_top_inv {
  top_bound : ∀ a c, a ∉ topAddresses s → c ∈ topCounts s →
                     incrementCount s a ≤ c;
  top_room : (length (topAddresses s) < MAX_TOP)%nat →
             ∀ a, a ∉ topAddresses s → incrementCount s a = 0;
  top_acted : ∀ a, a ∈ topAddresses s → 1 ≤ incrementCount s a
}.

(** Token bookkeeping of the badge contract. *)
Record token_inv (s : State) : Prop := mk_token_inv {
  tk_next : 1 ≤ nextTokenId s;
  tk_minted : all_minted (events s)
              = map N.of_nat (seq 1 (N.to_nat (nextTokenId s) - 1));
  tk_exists : ∀ t, _owners s t ≠ 0 ↔ 1 ≤ t < nextTokenId s;
  tk_recorded : ∀ a, userTokenId s a ≠ 0 →
                     a ≠ 0 ∧ _owners s (userTokenId s a) = a
}.

(** ** Token metadata

    [badgeNames] is written by the constructor only, so it is a constant
    table.  [Strings.toString] and [Base64.encode] of OpenZeppelin are taken
    as parameters. *)

Definition badgeNames (tier : N) : string :=
  match tier with
  | 1 => "Bronze Counter Badge"
  | 2 => "Silver Counter Badge"
  | 3 => "Gold Counter Badge"
  | 4 => "Platinum Counter Badge"
  | 5 => "Diamond Counter Badge"
  | 6 => "Master Counter Badge"
  | 7 => "Legendary Counter Badge"
  | _ => EmptyString
  end.

Definition _tierColor (tier : N) : string :=
  if tier =? 7 then "purple"
  else if tier =? 6 then "blue"
  else if tier =? 5 then "cyan"
  else if tier =? 4 then "pink"
  else if tier =? 3 then "gold"
  else if tier =? 2 then "silver"
  else if tier =? 1 then "bronze"
  else "gray".

Definition _tierText (tier : N) : string :=
  if tier =? 7 then "Legendary Badge"
  else if tier =? 6 then "Master Badge"
  else if tier =? 5 then "Diamond Badge"
  else if tier =? 4 then "Platinum Badge"
  else if tier =? 3 then "Gold Badge"
  else if tier =? 2 then "Silver Badge"
  else if tier =? 1 then "Bronze Badge"
  else "No Badge".

(** The double-quote character, as a one-character string. *)
Definition dq : string := String (Ascii.ascii_of_nat 34) EmptyString.

Section metadata.
Variable Strings_toString : N → string.
Variable Base64_encode : string → string.

Definition _generateSVG (increments tier : N) : string :=
  let tierColor := _tierColor tier in
  let tierText := _tierText tier in
  "<svg xmlns='http://www.w3.org/2000/svg' width='300' height='300'>"
  +:+ "<rect width='300' height='300' fill='" +:+ tierColor +:+ "'/>"
  +:+ "<text x='50%' y='40%' dominant-baseline='middle' text-anchor='middle' font-size='24' fill='white'>"
  +:+ tierText +:+ "</text>"
  +:+ "<text x='50%' y='60%' dominant-baseline='middle' text-anchor='middle' font-size='18' fill='white'>Increments: "
  +:+ Strings_toString increments +:+ "</text>"
  +:+ "</svg>".

Definition tokenURI (s : State) (tokenId : N) : Error + string :=
  if _owners s tokenId =? 0
  then inl (Revert "ERC721Metadata: nonexistent token")
  else
    let ownerAddr := _owners s tokenId in
    let stats := userStats s ownerAddr in
    let tier := badgeTier stats in
    let name := badgeNames tier in
    let svg := _generateSVG (increments stats) tier in
    let image := Base64_encode svg in
    let json :=
      Base64_encode
        ("{" +:+ dq +:+ "name" +:+ dq +:+ ":" +:+ dq +:+ name +:+ dq
         +:+ "," +:+ dq +:+ "description" +:+ dq +:+ ":" +:+ dq
         +:+ "Evolving On-chain Counter Badge NFT" +:+ dq
         +:+ "," +:+ dq +:+ "attributes" +:+ dq +:+ ":["
         +:+ "{" +:+ dq +:+ "trait_type" +:+ dq +:+ ":" +:+ dq +:+ "Tier"
         +:+ dq +:+ "," +:+ dq +:+ "value" +:+ dq +:+ ":" +:+ dq +:+ name
         +:+ dq +:+ "},"
         +:+ "{" +:+ dq +:+ "trait_type" +:+ dq +:+ ":" +:+ dq
         +:+ "Increments" +:+ dq +:+ "," +:+ dq +:+ "value" +:+ dq +:+ ":"
         +:+ dq +:+ Strings_toString (increments stats) +:+ dq +:+ "}"
         +:+ "]," +:+ dq +:+ "image" +:+ dq +:+ ":" +:+ dq
         +:+ "data:image/svg+xml;base64," +:+ image +:+ dq +:+ "}") in
    inr ("data:application/json;base64," +:+ json).

End metadata.

Definition getTopAddresses (s : State) : list address := topAddresses s.

Definition getTopCounts (s : State) : list N := topCounts s.

Definition getUserStats (s : State) (user : address) : N * N * N * N :=
  let stats := userStats s user in
  (increments stats, decrements stats, lastActionTime stats, badgeTier stats).

(** Addresses 1 to [n] each incrementing once, all in the same block, on a
    fresh deployment with fee 0. *)
Definition crowd (n : nat) : State :=
  run (deploy 100 0)
      (map (λ i, (Increment, mkEnv (N.of_nat i) 0 3600 true true)) (seq 1 n)).

End ContractViews.

(** * Receivers that call back, and the inherited entry points

    [_safeMint] of OpenZeppelin's [ERC721] records the token, emits
    [Transfer], and then calls [onERC721Received] on a receiver that is a
    contract.  That receiver may call into the contract before it returns;
    at that point of [_assignOrUpdateBadge] the new tier is stored already,
    [userTokenId] and, in the modifier, [lastActionTime] are not.  The module
    [Contract] above is the contract as receivers see it that do not call
    back; this module adds the calls a receiver makes.  ([transfer] to the
    owner forwards the 2300 gas stipend only, which does not pay for a write
    to storage, so the owner's callee changes nothing.)

    The functions of [contract.sol] that reach [_safeMint] are written out
    again below with the hook as a parameter; with a hook that does nothing
    they are the functions of [Contract] ([Reentrancy.passive_receiver]).

    The module also lists the public functions that the contract inherits
    from [ERC721] and [Ownable] and that write storage the contract reads:
    the token transfers and the transfers of ownership.  Their code is not
    part of this repository; they are given by their effect on [_owners] and
    [owner], with the caller's authorisation for a token transfer left out
    (every transfer is allowed, which covers the authorised ones). *)

Module Reentrant.
Import Contract.

Section hook.

(** What [onERC721Received] of the receiver does to the storage before it
    returns. *)
Variable hook : M unit.

Definition _safeMint (e : Env) (to : address) (tokenId : N) : M unit :=
  do* require (negb (to =? 0)) "ERC721InvalidReceiver" in
  let* prev := gets (λ s, _owners s tokenId) in
  do* require (prev =? 0) "ERC721InvalidSender" in
  do* modify (λ s, set__owners (λ t, if t =? tokenId then to else _owners s t) s) in
  do* emit (Transfer 0 to tokenId) in
  do* hook in
  require (receiver_accepts e) "ERC721InvalidReceiver".

Definition _assignOrUpdateBadge (e : Env) (user : address) : M unit :=
  let* tier := gets (λ s, _determineTier s (increments (userStats s user))) in
  let* stored := gets (λ s, badgeTier (userStats s user)) in
  if stored <? tier then
    do* modify_userStats user (set_badgeTier tier) in
    let* tok := gets (λ s, userTokenId s user) in
    do* (if tok =? 0 then
           let* tokenId := gets nextTokenId in
           let* next := checked_add tokenId 1 in
           do* modify (set_nextTokenId next) in
           do* _safeMint e user tokenId in
           modify (λ s, set_userTokenId (upd (userTokenId s) user tokenId) s)
         else ret tt) in
    let* tok' := gets (λ s, userTokenId s user) in
    emit (BadgeAssigned user tok' tier)
  else ret tt.

Definition increment (e : Env) : M unit :=
  onlyPaid e (timeLocked e (
    let* c := gets count in
    let* c' := checked_add c 1 in
    do* modify (set_count c') in
    let* ic := gets (λ s, incrementCount s (msg_sender e)) in
    let* ic' := checked_add ic 1 in
    do* modify (λ s, set_incrementCount (upd (incrementCount s) (msg_sender e) ic') s) in
    do* _updateTopLeaderboard (msg_sender e) in
    let* inc := gets (λ s, increments (userStats s (msg_sender e))) in
    let* inc' := checked_add inc 1 in
    do* modify_userStats (msg_sender e) (set_increments inc') in
    do* _assignOrUpdateBadge e (msg_sender e) in
    do* transfer_to_owner e in
    let* c'' := gets count in
    emit (CounterChanged (msg_sender e) 1%Z c''))).

Definition decrement (e : Env) : M unit :=
  onlyPaid e (timeLocked e (
    let* c := gets count in
    do* require (0 <? c) "Counter already zero" in
    let* c' := checked_sub c 1 in
    do* modify (set_count c') in
    let* ic := gets (λ s, incrementCount s (msg_sender e)) in
    let* ic' := checked_add ic 1 in
    do* modify (λ s, set_incrementCount (upd (incrementCount s) (msg_sender e) ic') s) in
    do* _updateTopLeaderboard (msg_sender e) in
    let* dec := gets (λ s, decrements (userStats s (msg_sender e))) in
    let* dec' := checked_add dec 1 in
    do* modify_userStats (msg_sender e) (set_decrements dec') in
    do* _assignOrUpdateBadge e (msg_sender e) in
    do* transfer_to_owner e in
    let* c'' := gets count in
    emit (CounterChanged (msg_sender e) (-1)%Z c''))).

Definition dispatch (c : Call) (e : Env) : M unit :=
  match c with
  | Increment => increment e
  | Decrement => decrement e
  | SetFee f => setFee e f
  | ResetCounter v => resetCounter e v
  | SetBadgeThresholds b s g p d m l => setBadgeThresholds e b s g p d m l
  end.

End hook.

(** [transferFrom] and [safeTransferFrom] of [ERC721]: the token exists, the
    receiver is not the zero address; the owner is replaced and [Transfer] is
    emitted.  The receiver hook of [safeTransferFrom] runs after these
    writes, so the calls it makes are calls that follow the transfer. *)
Definition transferFrom (to : address) (tokenId : N) : M unit :=
  do* require (negb (to =? 0)) "ERC721InvalidReceiver" in
  let* from := gets (λ s, _owners s tokenId) in
  do* require (negb (from =? 0)) "ERC721NonexistentToken" in
  do* modify (λ s, set__owners (λ t, if t =? tokenId then to else _owners s t) s) in
  emit (Transfer from to tokenId).

Definition set_owner (v : address) (s : State) : State :=
  mkState (fee s) (count s) (incrementCount s) (topAddresses s) (topCounts s)
    (nextTokenId s) (userStats s) (userTokenId s) (bronzeThreshold s)
    (silverThreshold s) (goldThreshold s) (platinumThreshold s)
    (diamondThreshold s) (masterThreshold s) (legendaryThreshold s)
    v (_owners s) (events s).

(** [transferOwnership] and [renounceOwnership] of [Ownable] (the latter is
    the case [newOwner = 0]). *)
Definition transferOwnership (e : Env) (newOwner : address) : M unit :=
  nonPayable e (onlyOwner e (modify (set_owner newOwner))).

(** A call into the contract together with the calls made from inside it:
    [inner] are the calls the receiver of the token makes in its hook, each
    with the calls made from inside it.  A call of [inner] that aborts is
    rolled back and the receiver goes on; a receiver that gives up instead
    is one that rejects the token. *)
Unset Elimination Schemes.
Inductive CallTree :=
| ContractCall (c : Call) (e : Env) (inner : list CallTree)
| TransferFrom (to : address) (tokenId : N)
| TransferOwnership (e : Env) (newOwner : address).
Set Elimination Schemes.

(** The calls made from inside a call run in the same block. *)
Definition at_time (ts : N) (e : Env) : Env :=
  mkEnv (msg_sender e) (msg_value e) ts (owner_accepts e) (receiver_accepts e).

Definition commit (s : State) (r : Error + (unit * State)) : State :=
  match r with
  | inr (_, s') => s'
  | inl _ => s
  end.

Fixpoint transact_at (ts : N) (s : State) (t : CallTree) {struct t} : State :=
  match t with
  | ContractCall c e inner =>
      commit s (dispatch (λ s1, inr (tt, foldl (transact_at ts) s1 inner))
                         c (at_time ts e) s)
  | TransferFrom to tokenId => commit s (transferFrom to tokenId s)
  | TransferOwnership e newOwner =>
      commit s (transferOwnership (at_time ts e) newOwner s)
  end.

Definition block_of (t : CallTree) : N :=
  match t with
  | ContractCall _ e _ => block_timestamp e
  | TransferFrom _ _ => 0
  | TransferOwnership e _ => block_timestamp e
  end.

Definition transact (s : State) (t : CallTree) : State :=
  transact_at (block_of t) s t.

Definition run (s : State) (ts : list CallTree) : State := foldl transact s ts.

Inductive reachable : State → Prop :=
| reachable_deploy deployer _initialFee :
    reachable (deploy deployer _initialFee)
| reachable_step s t :
    reachable s → reachable (transact s t).

(** [mentions P t]: some call of the tree [t] satisfies [P]. *)
Fixpoint mentions (P : Call → bool) (t : CallTree) {struct t} : bool :=
  match t with
  | ContractCall c _ inner => P c || existsb (mentions P) inner
  | _ => false
  end.

Definition is_setFee (c : Call) : bool :=
  match c with
  | SetFee _ => true
  | _ => false
  end.

(** The storage when the hook of a first badge starts, and when the badge
    recomputation ends after the hook has left the storage [sh]: [s] is the
    storage at the start of [_assignOrUpdateBadge], [tier] the new tier. *)
Definition hook_start (tier : N) (u : address) (s : State) : State :=
  add_event (Transfer 0 u (nextTokenId s))
    (set__owners (λ t, if t =? nextTokenId s then u else _owners s t)
       (set_nextTokenId (nextTokenId s + 1)
          (set_userStats (upd (userStats s) u (set_badgeTier tier (userStats s u)))
             s))).

Definition hook_end (tier : N) (u : address) (tokenId : N) (sh : State) : State :=
  add_event (BadgeAssigned u tokenId tier)
    (set_userTokenId (upd (userTokenId sh) u tokenId) sh).

(** [untouched g]: the part [g] of the storage is written by none of the
    assignments of [increment], [decrement] and the functions they call. *)
Definition untouched {A} (g : State → A) : Prop :=
  (∀ v s, g (set_count v s) = g s)
  ∧ (∀ v s, g (set_incrementCount v s) = g s)
  ∧ (∀ a c s, g (with_board a c s) = g s)
  ∧ (∀ v s, g (set_userStats v s) = g s)
  ∧ (∀ v s, g (set_nextTokenId v s) = g s)
  ∧ (∀ v s, g (set__owners v s) = g s)
  ∧ (∀ v s, g (set_userTokenId v s) = g s)
  ∧ (∀ ev s, g (add_event ev s) = g s).

Definition thresholds (s : State) : N * N * N * N * N * N * N :=
  (bronzeThreshold s, silverThreshold s, goldThreshold s, platinumThreshold s,
   diamondThreshold s, masterThreshold s, legendaryThreshold s).

(** Token bookkeeping that the calls from inside a mint and the token
    transfers leave in place, read off the variables of [contract.sol] and
    the mint events. *)
Record token_log_inv (s : State) : Prop := mk_token_log_inv {
  tl_next : 1 ≤ nextTokenId s;
  tl_minted : ContractViews.all_minted (events s)
              = map N.of_nat (seq 1 (N.to_nat (nextTokenId s) - 1));
  tl_recorded : ∀ a, userTokenId s a ≠ 0 →
                     Transfer 0 a (userTokenId s a) ∈ events s;
  tl_once : ∀ a b t, Transfer 0 a t ∈ events s → Transfer 0 b t ∈ events s →
                     a = b
}.

(** No token id from [nextTokenId] on has an owner. *)
Definition next_ids_free (s : State) : Prop :=
  ∀ t, nextTokenId s ≤ t → _owners s t = 0.

(** The owner has set thresholds that follow one another; address 7 then
    calls [increment] once, and its hook calls [increment] again. *)
Definition adjacent_thresholds : State :=
  transact (deploy 100 0)
    (ContractCall (SetBadgeThresholds 1 2 3 4 5 6 7) (mkEnv 100 0 0 true true) []).

Definition increment_twice_in_one : CallTree :=
  ContractCall Increment (mkEnv 7 0 3600 true true)
    [ContractCall Increment (mkEnv 7 0 3600 true true) []].

End Reentrant.

(** * Further functions of the client scripts

    The page keeps a handful of variables besides the refresh loop: the
    handles of the cooldown timers, the list of event subscriptions, the
    mirror of the counter, the transaction history in [localStorage] and the
    end of the cooldown.  Each block below embeds the functions that read and
    write one of them.

    A JavaScript number that holds a non-negative integer is modelled by that
    integer.  The arithmetic of the scripts is exact on integers up to
    [MAX_SAFE_INTEGER], and so is the conversion [Number] of a [BigInt]; the
    conversion is a variable of the blocks that use it, and the theorems state
    the bound where they depend on it.  Tests [if (x)] and [!x] follow
    JavaScript truthiness: [null], [0], [0n] and the empty string are
    false. *)

Module ClientViews.

Definition MAX_SAFE_INTEGER : N := Eval cbv in 2 ^ 53 - 1.

Definition truthy_number (x : option N) : bool :=
  match x with
  | Some n => negb (n =? 0)
  | None => false
  end.

Definition truthy_string (x : option string) : bool :=
  match x with
  | Some s => negb (String.eqb s "")
  | None => false
  end.

(** ** The interval timers of the cooldown display

    [setInterval] hands out a fresh positive handle, [clearInterval] stops
    the timer with the given handle.  [period] is the delay of the timer
    that re-reads the cooldown: 5000 in [main.js], 30000 in the second
    script.  The direct call of [refreshCooldownTimer] between the two
    [setInterval] calls starts no timer and is not part of this block. *)
Module Timers.

Inductive TimerCallback :=
| RefreshCooldownTimer
| UpdateCooldownDisplay
| PageCallback.              (* a callback of some other part of the page *)

Record Timer := mkTimer {
  timer_handle : N;
  timer_callback : TimerCallback;
  timer_delay : N
}.

Record TimerPage := mkTimerPage {
  next_handle : N;                      (* the next handle of the browser *)
  timers : list Timer;                  (* the timers that run, oldest first *)
  cooldownIntervalId : option N;
  cooldownDisplayIntervalId : option N
}.

Definition timer_init : TimerPage := mkTimerPage 1 [] None None.

Definition setInterval (cb : TimerCallback) (ms : N) (p : TimerPage) : N * TimerPage :=
  (next_handle p,
   mkTimerPage (next_handle p + 1) (timers p ++ [mkTimer (next_handle p) cb ms])
               (cooldownIntervalId p) (cooldownDisplayIntervalId p)).

Definition clearInterval (h : N) (p : TimerPage) : TimerPage :=
  mkTimerPage (next_handle p) (filter (λ t, timer_handle t ≠ h) (timers p))
              (cooldownIntervalId p) (cooldownDisplayIntervalId p).

Definition stopCooldownAutoRefresh (p : TimerPage) : TimerPage :=
  let p1 :=
    match cooldownIntervalId p with
    | Some h =>
        if truthy_number (Some h) then
          let q := clearInterval h p in
          mkTimerPage (next_handle q) (timers q) None (cooldownDisplayIntervalId q)
        else p
    | None => p
    end in
  match cooldownDisplayIntervalId p1 with
  | Some h =>
      if truthy_number (Some h) then
        let q := clearInterval h p1 in
        mkTimerPage (next_handle q) (timers q) (cooldownIntervalId q) None
      else p1
  | None => p1
  end.

Definition startCooldownAutoRefresh (period : N) (p : TimerPage) : TimerPage :=
  let p0 := stopCooldownAutoRefresh p in
  let '(h1, p1) := setInterval RefreshCooldownTimer period p0 in
  let p2 := mkTimerPage (next_handle p1) (timers p1) (Some h1)
                        (cooldownDisplayIntervalId p1) in
  let '(h2, p3) := setInterval UpdateCooldownDisplay 1000 p2 in
  mkTimerPage (next_handle p3) (timers p3) (cooldownIntervalId p3) (Some h2).

Inductive TimerEvent :=
| StartCooldown (period : N)
| StopCooldown
| PageTimer (ms : N).        (* another part of the page starts a timer *)

Definition timer_step (p : TimerPage) (ev : TimerEvent) : TimerPage :=
  match ev with
  | StartCooldown period => startCooldownAutoRefresh period p
  | StopCooldown => stopCooldownAutoRefresh p
  | PageTimer ms => (setInterval PageCallback ms p).2
  end.

Definition timer_run (p : TimerPage) (evs : list TimerEvent) : TimerPage :=
  foldl timer_step p evs.

Definition is_cooldown_timer (t : Timer) : bool :=
  match timer_callback t with
  | PageCallback => false
  | _ => true
  end.

(** The timers of the cooldown display that run. *)
Definition cooldown_timers (p : TimerPage) : list Timer :=
  filter (λ t, is_cooldown_timer t = true) (timers p).

(** The timers of the rest of the page that run. *)
Definition page_timers (p : TimerPage) : list Timer :=
  filter (λ t, is_cooldown_timer t ≠ true) (timers p).

Record timer_inv (p : TimerPage) : Prop := {
  ti_next : 1 ≤ next_handle p;
  ti_fresh : Forall (λ t, 1 ≤ timer_handle t < next_handle p) (timers p);
  ti_ids :
    match cooldownIntervalId p, cooldownDisplayIntervalId p with
    | None, None => cooldown_timers p = []
    | Some a, Some b =>
        ∃ period, cooldown_timers p
                  = [mkTimer a RefreshCooldownTimer period;
                     mkTimer b UpdateCooldownDisplay 1000]
    | _, _ => False
    end;
  ti_nodup : NoDup (timer_handle <$> timers p)
}.

End Timers.

(** ** The event subscriptions of the second script

    [watchContractEvent] returns the function that ends the subscription, or
    throws; [watch_ok] says which.  [unwatched] logs the calls of these
    functions.  An exception of such a function is caught and logged by
    [cleanupEventListeners]. *)
Module Listeners.

Inductive EventName := CounterChangedName | BadgeAssignedName | CounterResetName.

Record ListenerPage := mkListenerPage {
  configured : bool;                    (* wagmiConfig && CONTRACT_ADDRESS *)
  next_watcher : N;
  watchers : list (N * EventName);      (* every subscription made, oldest first *)
  unwatched : list N;                   (* subscriptions ended, in call order *)
  eventUnwatchFns : list N
}.

Definition listener_init : ListenerPage := mkListenerPage false 0 [] [] [].

Definition watchContractEvent (watch_ok : bool) (name : EventName) (p : ListenerPage)
    : option (N * ListenerPage) :=
  if watch_ok then
    Some (next_watcher p,
          mkListenerPage (configured p) (next_watcher p + 1)
                         (watchers p ++ [(next_watcher p, name)])
                         (unwatched p) (eventUnwatchFns p))
  else None.

Definition push_unwatch (u : N) (p : ListenerPage) : ListenerPage :=
  mkListenerPage (configured p) (next_watcher p) (watchers p) (unwatched p)
                 (eventUnwatchFns p ++ [u]).

Definition cleanupEventListeners (p : ListenerPage) : ListenerPage :=
  mkListenerPage (configured p) (next_watcher p) (watchers p)
                 (unwatched p ++ eventUnwatchFns p) [].

Definition setupEventListeners (ok1 ok2 ok3 : bool) (p : ListenerPage) : ListenerPage :=
  if negb (configured p) then p else
  let p0 := cleanupEventListeners p in
  match watchContractEvent ok1 CounterChangedName p0 with
  | None => p0
  | Some (u1, p1) =>
      let p1 := push_unwatch u1 p1 in
      match watchContractEvent ok2 BadgeAssignedName p1 with
      | None => p1
      | Some (u2, p2) =>
          let p2 := push_unwatch u2 p2 in
          match watchContractEvent ok3 CounterResetName p2 with
          | None => p2
          | Some (u3, p3) => push_unwatch u3 p3
          end
      end
  end.

Inductive ListenerEvent :=
| Configure (b : bool)
| Setup (ok1 ok2 ok3 : bool)
| Cleanup.

Definition listener_step (p : ListenerPage) (ev : ListenerEvent) : ListenerPage :=
  match ev with
  | Configure b =>
      mkListenerPage b (next_watcher p) (watchers p) (unwatched p) (eventUnwatchFns p)
  | Setup ok1 ok2 ok3 => setupEventListeners ok1 ok2 ok3 p
  | Cleanup => cleanupEventListeners p
  end.

Definition listener_run (p : ListenerPage) (evs : list ListenerEvent) : ListenerPage :=
  foldl listener_step p evs.

(** The subscriptions that have not been ended. *)
Definition live_watchers (p : ListenerPage) : list (N * EventName) :=
  filter (λ w, w.1 ∉ unwatched p) (watchers p).

Definition all_names : list EventName :=
  [CounterChangedName; BadgeAssignedName; CounterResetName].

(** The event names of the subscriptions made since the last clean-up. *)
Definition current_names (p : ListenerPage) : list EventName :=
  (drop (length (unwatched p)) (watchers p)).*2.

Record listener_inv (p : ListenerPage) : Prop := {
  li_split : (watchers p).*1 = unwatched p ++ eventUnwatchFns p;
  li_fresh : Forall (λ w, w.1 < next_watcher p) (watchers p);
  li_nodup : NoDup ((watchers p).*1);
  li_names : current_names p `prefix_of` all_names
}.

End Listeners.

(** ** The counter mirror of the second script

    [lastCounterValue] as the [onLogs] callbacks of the [CounterChanged] and
    [CounterReset] subscriptions set it, one log at a time.  A log is its
    [args], [None] when the log has none; a field is [None] when it is
    [undefined].  The animation and the re-read of the leaderboard that
    follow the assignment do not write the variable. *)
Module Mirror.
Import Contract.

Section number.
Variable Number : N → N.





End number.



End Mirror.

(** ** The transaction history (both scripts)

    [localStorage] is a map from keys to strings whose accesses may throw
    ([read_ok], [write_ok]); [safeLocalStorage] turns an exception into
    [null] or [false].  [JSON_parse] is [None] when [JSON.parse] throws. *)
Module TxHistory.

Record TxRecord := mkTxRecord {
  tx_type : string;
  tx_hash : string;
  tx_timestamp : N
}.

Record HistoryPage := mkHistoryPage {
  userAddress : option string;
  localStorage : gmap string string
}.

Definition TX_HISTORY_KEY : string := "nexus_counter_tx_history".
Definition MAX_TX_HISTORY : nat := 5.

Definition safe_getItem (read_ok : bool) (key : string) (p : HistoryPage) : option string :=
  if read_ok then localStorage p !! key else None.

Definition safe_setItem (write_ok : bool) (key value : string) (p : HistoryPage) : HistoryPage :=
  if write_ok then mkHistoryPage (userAddress p) (<[key := value]> (localStorage p))
  else p.

Section json.
Variable toLowerCase : string → string.
Variable JSON_stringify : list TxRecord → string.
Variable JSON_parse : string → option (list TxRecord).

Definition history_key (a : string) : string :=
  TX_HISTORY_KEY +:+ "_" +:+ toLowerCase a.

Definition getTxHistory (read_ok : bool) (p : HistoryPage) : list TxRecord :=
  if negb (truthy_string (userAddress p)) then [] else
  match userAddress p with
  | None => []
  | Some a =>
      let stored := safe_getItem read_ok (history_key a) p in
      if truthy_string stored then
        match stored with
        | Some str => default [] (JSON_parse str)
        | None => []
        end
      else []
  end.

Definition saveTxHistory (write_ok : bool) (history : list TxRecord) (p : HistoryPage)
    : HistoryPage :=
  if negb (truthy_string (userAddress p)) then p else
  match userAddress p with
  | None => p
  | Some a =>
      safe_setItem write_ok (history_key a)
                   (JSON_stringify (take MAX_TX_HISTORY history)) p
  end.

(** [now] is the value of [Date.now()].  The call of [displayTxHistory] that
    ends the function writes the page only. *)
Definition addToTxHistory (read_ok write_ok : bool) (now : N) (type hash : string)
    (p : HistoryPage) : HistoryPage :=
  let history := getTxHistory read_ok p in
  let history := mkTxRecord type hash now :: history in
  saveTxHistory write_ok history p.

End json.

(** An instance of the two JSON functions and of [toLowerCase], to apply the
    properties of this block to: lower-casing of the letters A to Z, and a
    coding that numbers the list and writes the number in unary. *)
Definition lower_ascii (c : Ascii.ascii) : Ascii.ascii :=
  let n := Ascii.nat_of_ascii c in
  if ((65 <=? n) && (n <=? 90))%nat then Ascii.ascii_of_nat (n + 32) else c.

Fixpoint ascii_toLowerCase (s : string) : string :=
  match s with
  | EmptyString => EmptyString
  | String c s' => String (lower_ascii c) (ascii_toLowerCase s')
  end.

Definition record_tuple (r : TxRecord) : string * string * N :=
  (tx_type r, tx_hash r, tx_timestamp r).

Definition tuple_record (t : string * string * N) : TxRecord :=
  mkTxRecord t.1.1 t.1.2 t.2.

Fixpoint unary (n : nat) : string :=
  match n with
  | O => EmptyString
  | S n' => String (Ascii.ascii_of_nat 49) (unary n')
  end.

Definition unary_stringify (l : list TxRecord) : string :=
  unary (Pos.to_nat (encode (record_tuple <$> l))).

Definition unary_parse (s : string) : option (list TxRecord) :=
  match @decode (list (string * string * N)) _ _ (Pos.of_nat (String.length s)) with
  | Some tuples => Some (tuple_record <$> tuples)
  | None => None
  end.

End TxHistory.

(** ** The cooldown display (both scripts) *)
Module Cooldown.

Record CooldownView := mkCooldownView {
  cooldownEndTime : option N;
  cooldownTimer : string              (* ui.cooldownTimer.textContent *)
}.

Definition updateCooldownDisplay (now : N) (v : CooldownView) : CooldownView :=
  if negb (truthy_number (cooldownEndTime v)) then v else
  match cooldownEndTime v with
  | None => v
  | Some endTime =>
      if endTime <=? now then mkCooldownView (cooldownEndTime v) "✅ Ready!"
      else
        let remainingMs := endTime - now in
        let remainingSec := remainingMs / 1000 in
        let mins := remainingSec / 60 in
        let secs := remainingSec mod 60 in
        mkCooldownView (cooldownEndTime v)
          ("⏰ " +:+ pretty mins +:+ "m " +:+ (if secs <? 10 then "0" else "")
           +:+ pretty secs +:+ "s")
  end.

Section number.
Variable Number : N → N.

(** [refreshCooldownTimer] from the point where the read of [getUserStats]
    settles: [stats] is the tuple read, [None] when the read is rejected.
    [connected] is [userAddress && CONTRACT_ADDRESS].  The second script
    updates the display at once ([display_now]); [main.js] leaves that to
    the display timer. *)
Definition refreshCooldownTimer (display_now connected : bool)
    (stats : option (N * N * N * N)) (now : N) (v : CooldownView) : CooldownView :=
  if negb connected then mkCooldownView (cooldownEndTime v) "" else
  match stats with
  | Some (_, _, lastAction, _) =>
      let lastActionSec := Number lastAction in
      let v1 := mkCooldownView (Some ((lastActionSec + 3600) * 1000)) (cooldownTimer v) in
      if display_now then updateCooldownDisplay now v1 else v1
  | None => mkCooldownView None ""
  end.

End number.

End Cooldown.

(** ** The leaderboard view (both scripts)

    [fetchLeaderboard] from the point where its two reads have settled.  The
    result is the list of rows written to the page, [None] when the loop
    throws ([counts[i]] is [undefined], so [counts[i].toString()] is a
    [TypeError]) and the [catch] hides the board.  An address of the contract
    and [userAddress] are compared in lower case by the script, that is, as
    the numbers they denote. *)
Module Leaderboard.
Import Contract.

Record Row := mkRow {
  row_rank : nat;                     (* the i + 1 in front of the address *)
  row_address : address;
  row_count : N;
  row_isCurrentUser : bool
}.

Definition isCurrentUser (userAddress : option address) (a : address) : bool :=
  match userAddress with
  | Some u => a =? u
  | None => false
  end.

(** The loop [for (let i = 0; i < addresses.length; i++)] from index [i] on;
    [addresses] holds the entries from [i] on. *)
Fixpoint render_rows (userAddress : option address) (i : nat)
    (addresses : list address)
    (counts : list N) : option (list Row) :=
  match addresses with
  | [] => Some []
  | a :: rest =>
      match counts !! i with
      | None => None
      | Some c =>
          match render_rows userAddress (S i) rest counts with
          | Some rows => Some (mkRow (i + 1) a c (isCurrentUser userAddress a) :: rows)
          | None => None
          end
      end
  end.

Definition fetchLeaderboard (userAddress : option address)
    (addresses : list address)
    (counts : list N) : option (list Row) :=
  render_rows userAddress 0 addresses counts.

End Leaderboard.

(** ** Formatting (both scripts) *)
Module Format.

(** [now] is the value of [Date.now()]; times are in milliseconds. *)
Definition formatTimeAgo (now timestamp : Z) : string :=
  let seconds := ((now - timestamp) / 1000)%Z in
  if (seconds <? 60)%Z then pretty seconds +:+ "s ago"
  else if (seconds <? 3600)%Z then pretty (seconds / 60)%Z +:+ "m ago"
  else if (seconds <? 86400)%Z then pretty (seconds / 3600)%Z +:+ "h ago"
  else pretty (seconds / 86400)%Z +:+ "d ago".

End Format.

End ClientViews.

Module Ledger.
Import Contract.

Lemma bind_ok {A B} (m : M A) (k : A → M B) s a s1 :
  m s = inr (a, s1) → bind m k s = k a s1.
Proof. unfold bind. by intros ->. Qed.

Lemma bind_inv {A B} (m : M A) (k : A → M B) s b s' :
  bind m k s = inr (b, s') → ∃ a s1, m s = inr (a, s1) ∧ k a s1 = inr (b, s').
Proof.
  unfold bind. destruct (m s) as [e|[a s1]]; [done|]. intros H. by exists a, s1.
Qed.

Lemma with_board_id s : with_board (topAddresses s) (topCounts s) s = s.
Proof. by destruct s. Qed.

Lemma read_topCounts_ok i c s :
  topCounts s !! i = Some c → read_topCounts i s = inr (c, s).
Proof. unfold read_topCounts. by intros ->. Qed.

Lemma read_topAddresses_ok i a s :
  topAddresses s !! i = Some a → read_topAddresses i s = inr (a, s).
Proof. unfold read_topAddresses. by intros ->. Qed.

Lemma write_topCounts_ok i c s :
  (i < length (topCounts s))%nat →
  write_topCounts i c s = inr (tt, set_topCounts (<[i := c]> (topCounts s)) s).
Proof. unfold write_topCounts. intros H. by rewrite decide_True. Qed.

Lemma write_topAddresses_ok i a s :
  (i < length (topAddresses s))%nat →
  write_topAddresses i a s
  = inr (tt, set_topAddresses (<[i := a]> (topAddresses s)) s).
Proof. unfold write_topAddresses. intros H. by rewrite decide_True. Qed.

Lemma swap_adjacent {A} (pre : list A) (y x : A) post :
  <[S (length pre) := y]> (<[length pre := x]> (pre ++ y :: x :: post))
  = pre ++ x :: y :: post.
Proof. induction pre as [|z pre IH]; simpl; [done|]. by f_equal. Qed.

Lemma lookup_mid {A} (pre : list A) (x : A) post :
  (pre ++ x :: post) !! length pre = Some x.
Proof. by rewrite list_lookup_middle. Qed.

Lemma bubble_spec preC : ∀ preA a c postA postC s,
  length preA = length preC →
  topAddresses s = preA ++ a :: postA →
  topCounts s = preC ++ c :: postC →
  ∃ n, (n ≤ length preC)%nat
    ∧ bubble (length preC) s
      = inr (tt, with_board (take n preA ++ a :: drop n preA ++ postA)
                            (take n preC ++ c :: drop n preC ++ postC) s)
    ∧ Forall (λ y, y < c) (drop n preC)
    ∧ (∀ y, last (take n preC) = Some y → c ≤ y).
Proof.
  induction preC as [|y preC IH] using rev_ind; intros preA a c postA postC s Hlen HA HC.
  - destruct preA; [|done]. exists 0%nat. simpl in *.
    rewrite <- HA, <- HC, with_board_id. split; [lia|]. split; [done|]. split; [by constructor|done].
  - destruct preA as [|x preA _] using rev_ind.
    { rewrite length_app in Hlen. simpl in Hlen. lia. }
    rewrite !length_app in Hlen. simpl in Hlen.
    assert (length preA = length preC) as Hl by lia.
    rewrite length_app, Nat.add_1_r. cbn [bubble].
    rewrite <- !app_assoc in HA, HC. simpl in HA, HC.
    assert (topCounts s !! S (length preC) = Some c) as Hc1.
    { rewrite HC. rewrite lookup_app_r by lia.
      replace (S (length preC) - length preC)%nat with 1%nat by lia. done. }
    assert (topCounts s !! length preC = Some y) as Hc0.
    { rewrite HC. apply lookup_mid. }
    rewrite (bind_ok _ _ _ _ _ (read_topCounts_ok _ _ _ Hc1)).
    rewrite (bind_ok _ _ _ _ _ (read_topCounts_ok _ _ _ Hc0)).
    destruct (y <? c) eqn:Hyc.
    + apply N.ltb_lt in Hyc.
      rewrite (bind_ok _ _ _ _ _ (write_topCounts_ok (length preC) c s ltac:(rewrite HC, length_app; simpl; lia))).
      erewrite bind_ok; last first.
      { apply write_topCounts_ok. simpl. rewrite length_insert, HC, length_app. simpl. lia. }
      erewrite bind_ok; last first.
      { apply read_topAddresses_ok. simpl. rewrite HA, <- Hl.
        rewrite lookup_app_r by lia.
        replace (S (length preA) - length preA)%nat with 1%nat by lia. done. }
      erewrite bind_ok; last first.
      { apply read_topAddresses_ok. simpl. rewrite HA, <- Hl. apply lookup_mid. }
      erewrite bind_ok; last first.
      { apply write_topAddresses_ok. simpl. rewrite HA, length_app. simpl. lia. }
      erewrite bind_ok; last first.
      { apply write_topAddresses_ok. simpl. rewrite length_insert, HA, length_app. simpl. lia. }
      match goal with |- context [bubble _ ?s2] =>
        destruct (IH preA a c (x :: postA) (y :: postC) s2)
          as (n & Hn & Hb & Hlt & Hge); [exact Hl | | | ]
      end.
      { simpl. rewrite HA, <- Hl. apply swap_adjacent. }
      { simpl. rewrite HC. apply swap_adjacent. }
      exists n. split; [lia|]. split; [|split].
      * rewrite Hb. rewrite !take_app_le, !drop_app_le by lia.
        rewrite <- !app_assoc. simpl. done.
      * rewrite drop_app_le by lia. apply Forall_app. split; [done|]. by repeat constructor.
      * rewrite take_app_le by lia. done.
    + apply N.ltb_ge in Hyc.
      exists (S (length preC)). split; [lia|]. split; [|split].
      * rewrite !take_ge, !drop_ge by (rewrite length_app; simpl; lia).
        simpl. rewrite <- !app_assoc. simpl. rewrite <- HA, <- HC, with_board_id. done.
      * rewrite drop_ge by (rewrite length_app; simpl; lia). constructor.
      * rewrite take_ge by (rewrite length_app; simpl; lia).
        rewrite last_snoc. by intros ? [= <-].
Qed.
Lemma insert_mid {A} (pre : list A) (x y : A) post :
  <[length pre := y]> (pre ++ x :: post) = pre ++ y :: post.
Proof. induction pre as [|z pre IH]; simpl; [done|]. by f_equal. Qed.

(** The entry-level form of [bubble_spec]. *)
Lemma bubble_entries (pre : list Entry) a c post s :
  topAddresses s = (pre ++ (a, c) :: post).*1 →
  topCounts s = (pre ++ (a, c) :: post).*2 →
  ∃ n, (n ≤ length pre)%nat
    ∧ bubble (length pre) s
      = inr (tt, with_board (take n pre ++ (a, c) :: drop n pre ++ post).*1
                            (take n pre ++ (a, c) :: drop n pre ++ post).*2 s)
    ∧ Forall (λ p, p.2 < c) (drop n pre)
    ∧ (∀ p, last (take n pre) = Some p → c ≤ p.2).
Proof.
  intros HA HC. rewrite fmap_app, fmap_cons in HA, HC. simpl in HA, HC.
  destruct (bubble_spec (pre.*2) (pre.*1) a c (post.*1) (post.*2) s)
    as (n & Hn & Hb & Hlt & Hge); [by rewrite !length_fmap | done | done |].
  rewrite length_fmap in Hn, Hb.
  exists n. split; [done|]. split; [|split].
  - rewrite Hb. by rewrite !fmap_app, !fmap_cons, !fmap_app, !fmap_take, !fmap_drop.
  - rewrite <- fmap_drop in Hlt. by apply Forall_fmap in Hlt.
  - intros p Hp. apply Hge. by rewrite <- fmap_take, fmap_last, Hp.
Qed.

Section scan.
Context (user : address) (uc : N).

Lemma scan_miss rest : ∀ seen s,
  topAddresses s = seen ++ rest →
  user ∉ rest →
  scan user uc (length rest) (length seen) s = inr (false, s).
Proof.
  induction rest as [|a rest IH]; intros seen s HA Hnot; [done|].
  cbn [length scan].
  rewrite (bind_ok _ _ _ a s); last first.
  { apply read_topAddresses_ok. rewrite HA. apply lookup_mid. }
  apply not_elem_of_cons in Hnot as [Hne Hnot].
  destruct (a =? user) eqn:Heq; [apply N.eqb_eq in Heq; congruence|].
  replace (S (length seen)) with (length (seen ++ [a]))
    by (rewrite length_app; simpl; lia).
  apply IH; [|done]. by rewrite <- app_assoc.
Qed.

Lemma scan_hit r1 : ∀ seen r2 s,
  topAddresses s = seen ++ r1 ++ user :: r2 →
  user ∉ r1 →
  scan user uc (length (r1 ++ user :: r2)) (length seen) s
  = (do* write_topCounts (length (seen ++ r1)) uc in
     do* bubble (length (seen ++ r1)) in
     ret true) s.
Proof.
  induction r1 as [|a r1 IH]; intros seen r2 s HA Hnot.
  - simpl in *. rewrite app_nil_r.
    rewrite (bind_ok _ _ _ user s); last first.
    { apply read_topAddresses_ok. rewrite HA. apply lookup_mid. }
    by rewrite N.eqb_refl.
  - cbn [app length scan].
    rewrite (bind_ok _ _ _ a s); last first.
    { apply read_topAddresses_ok. rewrite HA. apply lookup_mid. }
    apply not_elem_of_cons in Hnot as [Hne Hnot].
    destruct (a =? user) eqn:Heq; [apply N.eqb_eq in Heq; congruence|].
    replace (S (length seen)) with (length (seen ++ [a]))
      by (rewrite length_app; simpl; lia).
    rewrite (IH (seen ++ [a]) r2 s); [|by rewrite <- app_assoc|done].
    by rewrite <- app_assoc.
Qed.
End scan.

Lemma entries_split (u : address) (E : list Entry) :
  u ∈ E.*1 → ∃ pre c post, E = pre ++ (u, c) :: post ∧ u ∉ pre.*1.
Proof.
  induction E as [|[a c] E IH]; simpl; [by intros ?%elem_of_nil|].
  destruct (decide (a = u)) as [->|Hne].
  - intros _. exists [], c, E. split; [done|]. simpl. apply not_elem_of_nil.
  - intros [?|Hin]%elem_of_cons; [congruence|].
    destruct (IH Hin) as (pre & c' & post & -> & Hpre).
    exists ((a, c) :: pre), c', post. split; [done|].
    simpl. apply not_elem_of_cons. split; [congruence|done].
Qed.

Lemma bind_gets {A B} (f : State → A) (k : A → M B) s :
  bind (gets f) k s = k (f s) s.
Proof. done. Qed.

Lemma bind_modify {B} (f : State → State) (k : unit → M B) s :
  bind (modify f) k s = k tt (f s).
Proof. done. Qed.

Lemma bind_ret {A B} (a : A) (k : A → M B) s : bind (ret a) k s = k a s.
Proof. done. Qed.

Ltac msimp :=
  repeat (first [rewrite bind_gets | rewrite bind_modify | rewrite bind_ret];
          cbv beta).

(** The leaderboard update never aborts on a board whose two arrays have the
    same length, and its result is an [lb_update] of the entries. *)
Lemma update_spec u s (E : list Entry) :
  topAddresses s = E.*1 →
  topCounts s = E.*2 →
  ∃ E', lb_update u (incrementCount s u) E E'
      ∧ _updateTopLeaderboard u s = inr (tt, with_board (E'.*1) (E'.*2) s).
Proof.
  intros HA HC. unfold _updateTopLeaderboard.
  msimp. set (uc := incrementCount s u).
  destruct (decide (u ∈ E.*1)) as [Hin|Hnot].
  - destruct (entries_split u E Hin) as (pre & c & post & -> & Hpre).
    set (s1 := set_topCounts ((pre ++ (u, uc) :: post).*2) s).
    destruct (bubble_entries pre u uc post s1) as (n & Hn & Hb & Hlt & Hge).
    { simpl. rewrite HA. by rewrite !fmap_app, !fmap_cons. }
    { done. }
    exists (take n pre ++ (u, uc) :: drop n pre ++ post). split.
    { by constructor. }
    rewrite fmap_app, fmap_cons in HA, HC. simpl in HA, HC.
    rewrite HA at 1.
    rewrite (bind_ok _ _ _ true
      (with_board ((take n pre ++ (u, uc) :: drop n pre ++ post).*1)
                  ((take n pre ++ (u, uc) :: drop n pre ++ post).*2) s)).
    { done. }
    etrans; [exact (scan_hit u uc (pre.*1) [] (post.*1) s HA Hpre)|].
    simpl length. rewrite length_fmap.
    rewrite (bind_ok _ _ _ tt s1).
    { by rewrite (bind_ok _ _ _ _ _ Hb). }
    rewrite write_topCounts_ok.
    + unfold s1. rewrite HC. rewrite <- (length_fmap snd pre) at 1.
      rewrite insert_mid. by rewrite fmap_app, fmap_cons.
    + rewrite HC, length_app, length_fmap. simpl. lia.
  - assert (length (topAddresses s) = length E) as HlenA
      by (by rewrite HA, length_fmap).
    assert (length (topCounts s) = length E) as HlenC
      by (by rewrite HC, length_fmap).
    rewrite (bind_ok _ _ _ false s); last first.
    { rewrite HA at 1. exact (scan_miss u uc (E.*1) [] s HA Hnot). }
    rewrite HlenA. destruct (decide (length E < MAX_TOP)%nat) as [Hlt|Hge].
    + msimp. cbn [topAddresses topCounts set_topAddresses set_topCounts].
      rewrite length_app, HlenA. simpl length.
      replace (length E + 1 - 1)%nat with (length E) by lia.
      match goal with |- context [bubble _ ?s2] =>
        destruct (bubble_entries E u uc [] s2) as (n & Hn & Hb & Hlt' & Hge')
      end.
      { simpl. by rewrite HA, fmap_app. }
      { simpl. by rewrite HC, fmap_app. }
      rewrite app_nil_r in Hb.
      exists (take n E ++ (u, uc) :: drop n E). split; [by constructor|].
      by rewrite Hb.
    + msimp. rewrite HlenC.
      destruct E as [|w E _] using rev_ind; [unfold MAX_TOP in Hge; simpl in Hge; lia|].
      rewrite length_app in *. simpl length in *.
      rewrite decide_False by lia. msimp.
      replace (length E + 1 - 1)%nat with (length E) by lia.
      rewrite (bind_ok _ _ _ (w.2) s); last first.
      { apply read_topCounts_ok. rewrite HC, fmap_app.
        rewrite <- (length_fmap snd E). apply lookup_mid. }
      destruct (uc <=? w.2) eqn:Hle.
      * apply N.leb_le in Hle. exists (E ++ [w]). split.
        { apply (lb_reject _ _ _ w); [done| rewrite length_app; simpl; lia| apply last_snoc | done]. }
        unfold ret. by rewrite <- HA, <- HC, with_board_id.
      * apply N.leb_gt in Hle.
        rewrite fmap_app in HA, HC. simpl in HA, HC.
        rewrite (bind_ok _ _ _ tt (set_topAddresses (E.*1 ++ [u]) s)); last first.
        { rewrite write_topAddresses_ok by lia.
          rewrite HA. rewrite <- (length_fmap fst E). by rewrite insert_mid. }
        rewrite (bind_ok _ _ _ tt
          (set_topCounts (E.*2 ++ [uc]) (set_topAddresses (E.*1 ++ [u]) s)));
          last first.
        { rewrite write_topCounts_ok by (simpl; lia).
          simpl. rewrite HC. rewrite <- (length_fmap snd E). by rewrite insert_mid. }
        match goal with |- context [bubble _ ?s2] =>
          destruct (bubble_entries E u uc [] s2) as (n & Hn & Hb & Hlt' & Hge')
        end.
        { simpl. by rewrite fmap_app. }
        { simpl. by rewrite fmap_app. }
        rewrite app_nil_r in Hb.
        exists (take n E ++ (u, uc) :: drop n E). split.
        { apply lb_replace; try done. rewrite length_app. simpl. lia. }
        by rewrite Hb.
Qed.

(** *** Ordered score lists *)

Lemma descending_nil : descending [].
Proof. intros i j x y _ Hi. by rewrite lookup_nil in Hi. Qed.

Lemma descending_cons x l :
  descending (x :: l) ↔ Forall (λ y, y ≤ x) l ∧ descending l.
Proof.
  split.
  - intros H. split.
    + apply Forall_lookup. intros j y Hj. by apply (H 0%nat (S j) x y); [lia|..].
    + intros i j a b Hij Hi Hj. by apply (H (S i) (S j) a b); [lia|..].
  - intros [Hall H] i j a b Hij Hi Hj.
    destruct j as [|j]; [lia|]. simpl in Hj.
    destruct i as [|i]; simpl in Hi.
    + injection Hi as <-. eapply Forall_lookup in Hall; [apply Hall|done].
    + apply (H i j a b); [lia|done..].
Qed.

Lemma descending_app l1 l2 :
  descending (l1 ++ l2)
  ↔ descending l1 ∧ descending l2 ∧ ∀ x y, x ∈ l1 → y ∈ l2 → y ≤ x.
Proof.
  induction l1 as [|a l1 IH]; simpl.
  - split; [|by intros (_ & ? & _)].
    intros H. split; [apply descending_nil|]. split; [done|].
    by intros x y ?%elem_of_nil.
  - rewrite !descending_cons, IH, Forall_app, !Forall_forall. split.
    + intros ((H1 & H2) & H3 & H4 & H5). repeat split; try done.
      intros x y [->|Hx]%elem_of_cons Hy; auto.
    + intros ((H1 & H2) & H3 & H4). repeat split; try done.
      * intros y Hy. apply H4; [left|done].
      * intros x y Hx Hy. apply H4; [by right|done].
Qed.

Lemma descending_last l z x :
  descending l → last l = Some z → x ∈ l → z ≤ x.
Proof.
  intros H Hlast Hx. destruct l as [|a l _] using rev_ind; [done|].
  rewrite last_snoc in Hlast. injection Hlast as ->.
  apply descending_app in H as (_ & _ & H).
  apply elem_of_app in Hx as [Hx|Hx%list_elem_of_singleton].
  - apply H; [done|]. by apply list_elem_of_singleton.
  - by subst.
Qed.

(** Placing a score at index [n] of an ordered list keeps it ordered when the
    scores it is placed ahead of are no larger and the score it is placed
    behind is no smaller. *)
Lemma descending_insert (P Q : list N) uc n :
  descending (P ++ Q) →
  Forall (λ y, y ≤ uc) Q →
  Forall (λ y, y < uc) (drop n P) →
  (∀ y, last (take n P) = Some y → uc ≤ y) →
  descending (take n P ++ uc :: drop n P ++ Q).
Proof.
  intros HPQ HQ Hdrop Hlast.
  rewrite <- (take_drop n P) in HPQ.
  rewrite <- app_assoc in HPQ.
  apply descending_app in HPQ as (Htake & HdQ & Hcross).
  rewrite Forall_forall in HQ, Hdrop.
  apply descending_app. split; [done|]. split.
  - apply descending_cons. split; [|done].
    apply Forall_app. rewrite !Forall_forall. split; [|done].
    intros y Hy. apply N.lt_le_incl. by apply Hdrop.
  - intros x y Hx [->|Hy]%elem_of_cons; [|by apply Hcross].
    destruct (last (take n P)) as [z|] eqn:Hz.
    + trans z; [by apply Hlast|]. by apply (descending_last (take n P)).
    + apply last_None in Hz. rewrite Hz in Hx. by apply elem_of_nil in Hx.
Qed.

Lemma descending_delete (P Q : list N) c :
  descending (P ++ c :: Q) →
  descending (P ++ Q) ∧ Forall (λ y, y ≤ c) Q.
Proof.
  intros (HP & HcQ & Hcross)%descending_app.
  apply descending_cons in HcQ as [Hall HQ]. split; [|done].
  apply descending_app. split; [done|]. split; [done|].
  intros x y Hx Hy. apply Hcross; [done|by right].
Qed.

(** *** What an update preserves *)

Lemma insert_perm {A} n (x : A) P Q :
  take n P ++ x :: drop n P ++ Q ≡ₚ x :: P ++ Q.
Proof.
  rewrite <- Permutation_middle. rewrite (assoc_L (++)), take_drop. done.
Qed.

Lemma lb_update_fst u uc E E' :
  lb_update u uc E E' →
  E' = E ∨ E'.*1 ≡ₚ E.*1
  ∨ ((u ∉ E.*1) ∧ (length E < MAX_TOP)%nat ∧ E'.*1 ≡ₚ u :: E.*1)
  ∨ ((u ∉ E.*1) ∧ ∃ E0 w, E = E0 ++ [w] ∧ E'.*1 ≡ₚ u :: E0.*1).
Proof.
  destruct 1 as [pre c post n Hpre Hn Hlt Hge|E n Hu Hlen Hn Hlt Hge
                |E w Hu Hlen Hw Hle|E w n Hu Hlen Hw Hn Hlt Hge].
  - right. left. rewrite !fmap_app, !fmap_cons, fmap_app. simpl.
    rewrite fmap_take, fmap_drop, insert_perm. by rewrite Permutation_middle.
  - right. right. left. split; [done|]. split; [done|].
    rewrite <- (app_nil_r (drop n E)), fmap_app, fmap_cons, fmap_app. simpl.
    rewrite fmap_take, fmap_drop, insert_perm. by rewrite app_nil_r.
  - by left.
  - right. right. right. split; [done|]. exists E, w. split; [done|].
    rewrite <- (app_nil_r (drop n E)), fmap_app, fmap_cons, fmap_app. simpl.
    rewrite fmap_take, fmap_drop, insert_perm. by rewrite app_nil_r.
Qed.

Lemma lb_update_NoDup u uc E E' :
  lb_update u uc E E' → NoDup E.*1 → NoDup E'.*1.
Proof.
  intros H Hnd.
  destruct (lb_update_fst _ _ _ _ H)
    as [->|[Hp|[(Hu & _ & Hp)|(Hu & E0 & w & -> & Hp)]]]; [done|..].
  - by rewrite Hp.
  - rewrite Hp. by apply NoDup_cons.
  - rewrite Hp. rewrite fmap_app in Hnd, Hu.
    apply NoDup_app in Hnd as (Hnd & _ & _).
    apply NoDup_cons. split; [|done].
    intros Hin. apply Hu. apply elem_of_app. by left.
Qed.

Lemma lb_update_length u uc E E' :
  lb_update u uc E E' →
  (length E ≤ MAX_TOP)%nat → (length E' ≤ MAX_TOP)%nat.
Proof.
  intros H Hlen.
  destruct (lb_update_fst _ _ _ _ H)
    as [->|[Hp|[(Hu & Hlt & Hp)|(Hu & E0 & w & -> & Hp)]]]; [done|..];
    apply Permutation_length in Hp; rewrite ?length_app in *;
    simpl in *; rewrite ?length_fmap in *; lia.
Qed.

Lemma lb_update_descending u uc E E' :
  lb_update u uc E E' →
  descending E.*2 →
  (∀ c, (u, c) ∈ E → c ≤ uc) →
  descending E'.*2.
Proof.
  assert (∀ (l : list Entry) n,
    Forall (λ p, p.2 < uc) (drop n l) → Forall (λ y, y < uc) (drop n (l.*2))) as Hd.
  { intros l n H. rewrite <- fmap_drop. by apply Forall_fmap. }
  assert (∀ (l : list Entry) n,
    (∀ p, last (take n l) = Some p → uc ≤ p.2) →
    ∀ y, last (take n (l.*2)) = Some y → uc ≤ y) as Ht.
  { intros l n H y. rewrite <- fmap_take, fmap_last.
    destruct (last (take n l)) as [p|]; [|done]. intros [= <-]. by apply H. }
  destruct 1 as [pre c post n Hpre Hn Hlt Hge|E n Hu Hlen Hn Hlt Hge
                |E w Hu Hlen Hw Hle|E w n Hu Hlen Hw Hn Hlt Hge];
    intros Hdesc Hold; [ | | done | ].
  - rewrite fmap_app, fmap_cons in Hdesc. simpl in Hdesc.
    apply descending_delete in Hdesc as [Hdesc Hpost].
    rewrite !fmap_app, !fmap_cons, fmap_app, fmap_take, fmap_drop. simpl.
    apply descending_insert; [done| |by apply Hd|by apply Ht].
    assert (c ≤ uc) as Hc.
    { apply Hold. apply elem_of_app. right. by left. }
    eapply Forall_impl; [exact Hpost|]. simpl. intros y Hy. by trans c.
  - rewrite <- (app_nil_r (drop n E)).
    rewrite !fmap_app, !fmap_cons, fmap_app, fmap_take, fmap_drop. simpl.
    apply descending_insert; [by rewrite app_nil_r|done|by apply Hd|by apply Ht].
  - rewrite fmap_app in Hdesc. simpl in Hdesc.
    apply descending_delete in Hdesc as [Hdesc _].
    rewrite <- (app_nil_r (drop n E)).
    rewrite !fmap_app, !fmap_cons, fmap_app, fmap_take, fmap_drop. simpl.
    apply descending_insert; [done|done|by apply Hd|by apply Ht].
Qed.

Lemma fst_unique (E : list Entry) a c1 c2 :
  NoDup E.*1 → (a, c1) ∈ E → (a, c2) ∈ E → c1 = c2.
Proof.
  induction E as [|[b c] E IH]; simpl; [by intros _ ?%elem_of_nil|].
  intros [Hb Hnd]%NoDup_cons [H1|H1]%elem_of_cons [H2|H2]%elem_of_cons.
  - congruence.
  - injection H1 as -> ->. destruct Hb. apply list_elem_of_fmap. by exists (b, c2).
  - injection H2 as -> ->. destruct Hb. apply list_elem_of_fmap. by exists (b, c1).
  - by apply IH.
Qed.

(** Every entry of the new board is the updated one or an entry of another
    address taken over from the old board. *)
Lemma lb_update_elem u uc E E' a c :
  lb_update u uc E E' → NoDup E.*1 →
  (a, c) ∈ E' → (a, c) = (u, uc) ∨ ((a, c) ∈ E ∧ a ≠ u).
Proof.
  destruct 1 as [pre c0 post n Hpre Hn Hlt Hge|E n Hu Hlen Hn Hlt Hge
                |E w Hu Hlen Hw Hle|E w n Hu Hlen Hw Hn Hlt Hge];
    intros Hnd HE'.
  - rewrite insert_perm in HE'.
    apply elem_of_cons in HE' as [?|HE']; [by left|]. right.
    rewrite fmap_app, fmap_cons in Hnd. simpl in Hnd.
    apply NoDup_app in Hnd as (_ & Hcross & [Hpost _]%NoDup_cons).
    apply elem_of_app in HE' as [HE'|HE'].
    + split; [apply elem_of_app; by left|].
      intros ->. apply Hpre. apply list_elem_of_fmap. by exists (u, c).
    + split; [apply elem_of_app; right; by right|].
      intros ->. apply Hpost. apply list_elem_of_fmap. by exists (u, c).
  - rewrite <- (app_nil_r (drop n E)), insert_perm, app_nil_r in HE'.
    apply elem_of_cons in HE' as [?|HE']; [by left|]. right. split; [done|].
    intros ->. apply Hu. apply list_elem_of_fmap. by exists (u, c).
  - right. split; [done|].
    intros ->. apply Hu. apply list_elem_of_fmap. by exists (u, c).
  - rewrite <- (app_nil_r (drop n E)), insert_perm, app_nil_r in HE'.
    apply elem_of_cons in HE' as [?|HE']; [by left|]. right.
    split; [apply elem_of_app; by left|].
    intros ->. apply Hu. rewrite fmap_app. apply elem_of_app. left.
    apply list_elem_of_fmap. by exists (u, c).
Qed.

Lemma move_left_before {A} (T D Q : list A) u a b :
  [a; b] `sublist_of` T ++ u :: D ++ Q →
  (a = u → b ∉ D) →
  [a; b] `sublist_of` (T ++ D) ++ u :: Q.
Proof.
  intros [H|(l1 & l2 & Heq & H1 & H2)]%sublist_app_cons_r Hb.
  - etrans; [exact H|]. rewrite <- (assoc_L (++)).
    apply sublist_app; [done|]. apply sublist_app; [done|]. by apply sublist_cons.
  - destruct l1 as [|x [|y l1]]; simpl in Heq.
    + injection Heq as -> <-.
      apply sublist_app_r in H2 as (k1 & k2 & Hk & Hk1 & Hk2).
      destruct k1 as [|z k1]; simpl in Hk.
      * subst k2. apply (sublist_app [] _ (u :: [b])); [apply sublist_nil_l|].
        by apply sublist_skip.
      * injection Hk as <- _. destruct Hb; [done|].
        eapply sublist_subseteq; [exact Hk1|]. by left.
    + injection Heq as <- -> <-.
      apply (sublist_app [a] _ [u]).
      * by apply sublist_inserts_r.
      * apply sublist_skip, sublist_nil_l.
    + by destruct l1.
Qed.

Lemma before_elem {A} (a b : A) (l : list A) :
  [a; b] `sublist_of` l → a ∈ l ∧ b ∈ l.
Proof.
  intros H. split; (eapply sublist_subseteq; [exact H|]).
  - by left.
  - right. by left.
Qed.

(** An entry inserted at [n] into [E], behind [take n E] and ahead of
    [drop n E], which all score less: what stands ahead of an equal score
    after the insertion is not the new entry. *)
Lemma insert_behind_ties (E : list Entry) u uc n a b c :
  u ∉ E.*1 →
  Forall (λ p, p.2 < uc) (drop n E) →
  NoDup (take n E ++ (u, uc) :: drop n E).*1 →
  (a, c) ∈ take n E ++ (u, uc) :: drop n E →
  (b, c) ∈ take n E ++ (u, uc) :: drop n E →
  [a; b] `sublist_of` (take n E ++ (u, uc) :: drop n E).*1 →
  a ∈ E.*1 ∧ (b ∈ E.*1 → [a; b] `sublist_of` E.*1).
Proof.
  intros Hu Hlt Hnd Hac Hbc Hbefore.
  rewrite fmap_app, fmap_cons in Hbefore. simpl in Hbefore.
  apply sublist_app_cons_r in Hbefore as [H|(l1 & l2 & Heq & H1 & H2)].
  { rewrite <- fmap_app, take_drop in H.
    split; [by apply before_elem in H as [? _]|done]. }
  destruct l1 as [|x [|y l1]]; simpl in Heq.
  - injection Heq as -> <-. exfalso.
    assert ((u, uc) ∈ take n E ++ (u, uc) :: drop n E) as Huc.
    { apply elem_of_app. right. by left. }
    pose proof (fst_unique _ _ _ _ Hnd Hac Huc) as ->.
    assert (b ∈ (drop n E).*1) as Hin.
    { eapply sublist_subseteq; [exact H2|]. by left. }
    apply list_elem_of_fmap in Hin as ([b' c'] & Heq & Hin). simpl in Heq. subst b'.
    assert ((b, c') ∈ take n E ++ (u, uc) :: drop n E) as Hbc'.
    { apply elem_of_app. right. by right. }
    pose proof (fst_unique _ _ _ _ Hnd Hbc Hbc') as <-.
    rewrite Forall_forall in Hlt. apply Hlt in Hin. simpl in Hin. lia.
  - injection Heq as <- -> <-.
    assert (a ∈ E.*1) as Ha.
    { rewrite <- (take_drop n E), fmap_app. apply elem_of_app. left.
      eapply sublist_subseteq; [exact H1|]. by left. }
    split; [done|]. by intros Hb.
  - by destruct l1.
Qed.

Lemma lb_update_stable u uc E E' :
  lb_update u uc E E' → NoDup E'.*1 → ties_stable E E'.
Proof.
  destruct 1 as [pre c0 post n Hpre Hn Hlt Hge|E n Hu Hlen Hn Hlt Hge
                |E w Hu Hlen Hw Hle|E w n Hu Hlen Hw Hn Hlt Hge];
    intros Hnd a b c Hac Hbc Hbefore; unfold before in *.
  - assert (∀ x, x ∈ (take n pre ++ (u, uc) :: drop n pre ++ post).*1 →
                 x ∈ (pre ++ (u, c0) :: post).*1) as Hsame.
    { intros x. rewrite !fmap_app, !fmap_cons, fmap_app. simpl.
      rewrite <- (take_drop n pre) at 3. rewrite fmap_app.
      rewrite !elem_of_app, !elem_of_cons, !elem_of_app. tauto. }
    split; [by apply Hsame, (before_elem a b)|]. intros _.
    rewrite !fmap_app, !fmap_cons, fmap_app in Hbefore. simpl in Hbefore.
    rewrite fmap_app, fmap_cons. simpl.
    rewrite <- (take_drop n pre) at 1. rewrite fmap_app.
    apply move_left_before; [done|]. intros -> Hin.
    assert ((u, uc) ∈ take n pre ++ (u, uc) :: drop n pre ++ post) as Huc.
    { apply elem_of_app. right. by left. }
    pose proof (fst_unique _ _ _ _ Hnd Hac Huc) as ->.
    apply list_elem_of_fmap in Hin as ([b' c'] & Heq & Hin). simpl in Heq. subst b'.
    assert ((b, c') ∈ take n pre ++ (u, uc) :: drop n pre ++ post) as Hbc'.
    { apply elem_of_app. right. right. apply elem_of_app. by left. }
    pose proof (fst_unique _ _ _ _ Hnd Hbc Hbc') as <-.
    rewrite Forall_forall in Hlt. apply Hlt in Hin. simpl in Hin. lia.
  - by apply (insert_behind_ties E u uc n a b c).
  - split; [by apply (before_elem a b)|done].
  - assert (u ∉ E.*1) as Hu'.
    { intros Hin. apply Hu. rewrite fmap_app. apply elem_of_app. by left. }
    destruct (insert_behind_ties E u uc n a b c Hu' Hlt Hnd Hac Hbc Hbefore)
      as [Ha Hb].
    rewrite fmap_app. split; [apply elem_of_app; by left|].
    intros Hbin. apply sublist_inserts_r, Hb.
    apply (before_elem a b) in Hbefore as [_ Hb'].
    rewrite fmap_app, fmap_cons in Hb'. simpl in Hb'.
    rewrite <- (take_drop n E), fmap_app.
    apply elem_of_app in Hb' as [Hb'|Hb']; [apply elem_of_app; by left|].
    apply elem_of_cons in Hb' as [->|Hb']; [|apply elem_of_app; by right].
    by rewrite <- fmap_app in Hbin.
Qed.

(** *** Inversion of successful runs *)

Lemma gets_inv {A} (f : State → A) s a s' :
  gets f s = inr (a, s') → a = f s ∧ s' = s.
Proof. unfold gets. by intros [= <- <-]. Qed.

Lemma modify_inv (f : State → State) s a s' :
  modify f s = inr (a, s') → s' = f s.
Proof. unfold modify. by intros [= <-]. Qed.

Lemma ret_inv {A} (x : A) s a s' : ret x s = inr (a, s') → a = x ∧ s' = s.
Proof. unfold ret. by intros [= <- <-]. Qed.

Lemma fail_inv {A} e s (a : A) s' : fail e s = inr (a, s') → False.
Proof. done. Qed.

Lemma require_inv b r s a s' :
  require b r s = inr (a, s') → b = true ∧ s' = s.
Proof. destruct b; [by intros [= <-]|done]. Qed.

Lemma checked_add_inv a b s r s' :
  checked_add a b s = inr (r, s') → r = a + b ∧ a + b ≤ MAX_UINT256 ∧ s' = s.
Proof.
  unfold checked_add. destruct (a + b <=? MAX_UINT256) eqn:H; [|done].
  apply N.leb_le in H. by intros [= <- <-].
Qed.

Lemma checked_sub_inv a b s r s' :
  checked_sub a b s = inr (r, s') → r = a - b ∧ b ≤ a ∧ s' = s.
Proof.
  unfold checked_sub. destruct (b <=? a) eqn:H; [|done].
  apply N.leb_le in H. by intros [= <- <-].
Qed.

Lemma read_topCounts_inv i s c s' :
  read_topCounts i s = inr (c, s') → topCounts s !! i = Some c ∧ s' = s.
Proof. unfold read_topCounts. destruct (_ !! _); [by intros [= <- <-]|done]. Qed.

Lemma read_topAddresses_inv i s a s' :
  read_topAddresses i s = inr (a, s') → topAddresses s !! i = Some a ∧ s' = s.
Proof. unfold read_topAddresses. destruct (_ !! _); [by intros [= <- <-]|done]. Qed.

Lemma write_topCounts_inv i c s a s' :
  write_topCounts i c s = inr (a, s') →
  s' = set_topCounts (<[i := c]> (topCounts s)) s.
Proof. unfold write_topCounts. case_decide; [by intros [= <-]|done]. Qed.

Lemma write_topAddresses_inv i x s a s' :
  write_topAddresses i x s = inr (a, s') →
  s' = set_topAddresses (<[i := x]> (topAddresses s)) s.
Proof. unfold write_topAddresses. case_decide; [by intros [= <-]|done]. Qed.

(** Take a successful run apart along its binds, one primitive at a time;
    calls of other functions are left as hypotheses. *)
Ltac minv H :=
  lazymatch type of H with
  | bind _ _ _ = inr _ =>
      let a := fresh "a" in let s1 := fresh "s" in
      let H1 := fresh "H" in let H2 := fresh "H" in
      apply bind_inv in H as (a & s1 & H1 & H2); minv H1; cbv beta in H2; minv H2
  | gets _ _ = inr _ => apply gets_inv in H as [? ?]; subst
  | modify _ _ = inr _ => apply modify_inv in H; subst
  | ret _ _ = inr _ => apply ret_inv in H as [? ?]; subst
  | fail _ _ = inr _ => by apply fail_inv in H
  | require _ _ _ = inr _ => apply require_inv in H as [? ?]; subst
  | checked_add _ _ _ = inr _ => apply checked_add_inv in H as (? & ? & ?); subst
  | checked_sub _ _ _ = inr _ => apply checked_sub_inv in H as (? & ? & ?); subst
  | read_topCounts _ _ = inr _ => apply read_topCounts_inv in H as [? ?]; subst
  | read_topAddresses _ _ = inr _ =>
      apply read_topAddresses_inv in H as [? ?]; subst
  | write_topCounts _ _ _ = inr _ => apply write_topCounts_inv in H; subst
  | write_topAddresses _ _ _ = inr _ => apply write_topAddresses_inv in H; subst
  | (if ?c then _ else _) _ = inr _ =>
      let Hc := fresh "Hc" in destruct c eqn:Hc; minv H
  | _ => idtac
  end.

Lemma board_only_refl s : board_only s s.
Proof. unfold board_only. by rewrite with_board_id. Qed.

Lemma board_only_trans s1 s2 s3 :
  board_only s1 s2 → board_only s2 s3 → board_only s1 s3.
Proof. unfold board_only. intros H1 H2. rewrite H2 at 1. by rewrite H1. Qed.

Lemma board_only_counts s C : board_only s (set_topCounts C s).
Proof. by destruct s. Qed.

Lemma board_only_addresses s A : board_only s (set_topAddresses A s).
Proof. by destruct s. Qed.

Lemma bubble_board_only i : ∀ s a s',
  bubble i s = inr (a, s') → board_only s s'.
Proof.
  induction i as [|i IH]; intros s a s' H; cbn [bubble] in H.
  - minv H. apply board_only_refl.
  - minv H; [|apply board_only_refl].
    match goal with H : bubble _ _ = inr _ |- _ => apply IH in H; exact H end.
Qed.

Lemma scan_board_only u uc n : ∀ i s a s',
  scan u uc n i s = inr (a, s') → board_only s s'.
Proof.
  induction n as [|n IH]; intros i s a s' H; cbn [scan] in H.
  - minv H. apply board_only_refl.
  - minv H.
    + match goal with H : bubble _ _ = inr _ |- _ =>
        apply bubble_board_only in H; exact H end.
    + match goal with H : scan _ _ _ _ _ = inr _ |- _ =>
        apply IH in H; exact H end.
Qed.

Lemma update_board_only u s a s' :
  _updateTopLeaderboard u s = inr (a, s') → board_only s s'.
Proof.
  unfold _updateTopLeaderboard. intros H. minv H;
    match goal with H : scan _ _ _ _ _ = inr _ |- _ =>
      apply scan_board_only in H end;
    try done;
    match goal with H : bubble _ _ = inr _ |- _ =>
      apply bubble_board_only in H end;
    (eapply board_only_trans; [eassumption|]); done.
Qed.

Lemma upd_same {V} (m : address → V) k v : upd m k v k = v.
Proof. unfold upd. by rewrite N.eqb_refl. Qed.

(** Turn the boolean tests of the code into propositions. *)
Ltac unbool :=
  repeat match goal with
  | H : (_ =? _) = true |- _ => apply N.eqb_eq in H
  | H : (_ =? _) = false |- _ => apply N.eqb_neq in H
  | H : (_ <? _) = true |- _ => apply N.ltb_lt in H
  | H : (_ <? _) = false |- _ => apply N.ltb_ge in H
  | H : (_ <=? _) = true |- _ => apply N.leb_le in H
  | H : (_ <=? _) = false |- _ => apply N.leb_gt in H
  | H : negb _ = true |- _ => apply negb_true_iff in H
  end.

(** The three ways a badge recomputation ends: nothing to do, an upgrade of
    an address that holds its token, and the first badge with its mint. *)
Lemma badge_inv e u s s' :
  _assignOrUpdateBadge e u s = inr (tt, s') →
  let tier := _determineTier s (increments (userStats s u)) in
  let stored := badgeTier (userStats s u) in
  let s1 := set_userStats
              (upd (userStats s) u (set_badgeTier tier (userStats s u))) s in
  (tier ≤ stored ∧ s' = s)
  ∨ (stored < tier ∧ userTokenId s u ≠ 0
     ∧ s' = add_event (BadgeAssigned u (userTokenId s u) tier) s1)
  ∨ (stored < tier ∧ userTokenId s u = 0
     ∧ u ≠ 0 ∧ receiver_accepts e = true
     ∧ nextTokenId s + 1 ≤ MAX_UINT256
     ∧ s' = add_event (BadgeAssigned u (nextTokenId s) tier)
              (set_userTokenId (upd (userTokenId s) u (nextTokenId s))
                (add_event (Transfer 0 u (nextTokenId s))
                  (set__owners
                     (λ t, if t =? nextTokenId s then u else _owners s t)
                     (set_nextTokenId (nextTokenId s + 1) s1))))).
Proof.
  unfold _assignOrUpdateBadge, _safeMint, modify_userStats, emit.
  intros H. minv H; unbool.
  - right. right. cbn in *. by rewrite upd_same.
  - right. left. done.
  - by left.
Qed.

Lemma action_inv up e s s' :
  dispatch (action up) e s = inr (tt, s') →
  msg_value e = fee s
  ∧ lastActionTime (userStats s (msg_sender e)) + COOLDOWN_SECONDS
    ≤ block_timestamp e
  ∧ (if up then count s + 1 ≤ MAX_UINT256 else 0 < count s)
  ∧ incrementCount s (msg_sender e) + 1 ≤ MAX_UINT256
  ∧ owner_accepts e = true
  ∧ ∃ s2 s4,
      _updateTopLeaderboard (msg_sender e) (pre_update up (msg_sender e) s)
      = inr (tt, s2)
      ∧ _assignOrUpdateBadge e (msg_sender e) (stats_bumped up (msg_sender e) s2)
        = inr (tt, s4)
      ∧ s' = finish up e s4.
Proof.
  destruct up; simpl;
    unfold increment, decrement, onlyPaid, timeLocked, timeLocked_check,
      transfer_to_owner, modify_userStats, emit;
    intros H; minv H; unbool;
    repeat match goal with a : unit |- _ => destruct a end;
    (split; [done|]); (split; [done|]); (split; [done|]);
    (split; [done|]); (split; [done|]); eauto.
Qed.

Lemma owner_call_inv c e s s' :
  dispatch c e s = inr (tt, s') →
  match c with
  | Increment | Decrement => True
  | SetFee f =>
      msg_sender e = owner s ∧ s' = add_event (FeeUpdated f) (set_fee f s)
  | ResetCounter v =>
      msg_sender e = owner s ∧ s' = add_event (CounterReset v) (set_count v s)
  | SetBadgeThresholds b sv g p d m l =>
      msg_sender e = owner s
      ∧ s' = add_event BadgeThresholdsUpdated (set_thresholds b sv g p d m l s)
  end.
Proof.
  destruct c; [done|done|..]; simpl;
    unfold setFee, resetCounter, setBadgeThresholds, nonPayable, onlyOwner, emit;
    intros H; minv H; unbool; done.
Qed.

(** What the badge recomputation leaves alone. *)
Lemma badge_frame e u s s' :
  _assignOrUpdateBadge e u s = inr (tt, s') →
  topAddresses s' = topAddresses s
  ∧ topCounts s' = topCounts s
  ∧ incrementCount s' = incrementCount s
  ∧ count s' = count s
  ∧ fee s' = fee s
  ∧ owner s' = owner s
  ∧ (∀ a, increments (userStats s' a) = increments (userStats s a))
  ∧ (∀ a, decrements (userStats s' a) = decrements (userStats s a))
  ∧ (∀ a, lastActionTime (userStats s' a) = lastActionTime (userStats s a)).
Proof.
  intros H. apply badge_inv in H.
  destruct H as [[_ ->]|[(_ & _ & ->)|(_ & _ & _ & _ & _ & ->)]]; cbn;
    repeat split; try done;
    intros a; unfold upd; by destruct (a =? u) eqn:Ha; unbool; subst.
Qed.

(** What a successful counter action does to the counter, the action counts,
    the statistics and the leaderboard. *)
Lemma action_effect up e s s' :
  length (topAddresses s) = length (topCounts s) →
  dispatch (action up) e s = inr (tt, s') →
  let u := msg_sender e in
  (∃ E', lb_update u (incrementCount s u + 1) (leaderboard s) E'
       ∧ topAddresses s' = E'.*1 ∧ topCounts s' = E'.*2)
  ∧ (∀ a, incrementCount s' a
          = if a =? u then incrementCount s u + 1 else incrementCount s a)
  ∧ (∀ a, increments (userStats s' a)
          = if (a =? u) && up then increments (userStats s a) + 1
            else increments (userStats s a))
  ∧ (∀ a, decrements (userStats s' a)
          = if (a =? u) && negb up then decrements (userStats s a) + 1
            else decrements (userStats s a))
  ∧ (∀ a, lastActionTime (userStats s' a)
          = if a =? u then block_timestamp e
            else lastActionTime (userStats s a))
  ∧ count s' = (if up then count s + 1 else count s - 1)
  ∧ fee s' = fee s
  ∧ owner s' = owner s.
Proof.
  intros Hlen H u.
  apply action_inv in H as (_ & _ & _ & _ & _ & s2 & s4 & Hup & Hbadge & ->).
  fold u in Hup, Hbadge.
  destruct (update_spec u (pre_update up u s) (leaderboard s))
    as (E' & HE' & Hup').
  { simpl. unfold leaderboard. rewrite fst_zip; [done|lia]. }
  { simpl. unfold leaderboard. rewrite snd_zip; [done|lia]. }
  rewrite Hup in Hup'. injection Hup' as ->.
  apply badge_frame in Hbadge
    as (HA & HC & Hic & Hcount & Hfee & Howner & Hinc & Hdec & Hlast).
  cbn in HA, HC, Hic, Hcount, Hfee, Howner.
  split.
  { exists E'. split; [|by split].
    simpl in HE'. by rewrite upd_same in HE'. }
  cbn. rewrite Hic, Hcount, Hfee, Howner. fold u.
  split; [done|].
  split; [|split; [|split]]; [| | |done].
  - intros a. specialize (Hinc a). cbn in Hinc. unfold upd in *.
    destruct (a =? u) eqn:Ha, up; unbool; subst; simpl in *; congruence.
  - intros a. specialize (Hdec a). cbn in Hdec. unfold upd in *.
    destruct (a =? u) eqn:Ha, up; unbool; subst; simpl in *; congruence.
  - intros a. specialize (Hlast a). cbn in Hlast. unfold upd in *.
    destruct (a =? u) eqn:Ha, up; unbool; subst; simpl in *; congruence.
Qed.

(** ** The leaderboard invariant *)

Lemma lb_inv_deploy deployer f : lb_inv (deploy deployer f).
Proof.
  split; simpl.
  - done.
  - unfold MAX_TOP. lia.
  - constructor.
  - apply descending_nil.
  - intros a c H. by apply elem_of_nil in H.
  - done.
Qed.

Lemma leaderboard_fst s :
  length (topAddresses s) = length (topCounts s) →
  (leaderboard s).*1 = topAddresses s.
Proof. intros H. unfold leaderboard. rewrite fst_zip; [done|lia]. Qed.

Lemma leaderboard_snd s :
  length (topAddresses s) = length (topCounts s) →
  (leaderboard s).*2 = topCounts s.
Proof. intros H. unfold leaderboard. rewrite snd_zip; [done|lia]. Qed.

Lemma leaderboard_eq s (E : list Entry) :
  topAddresses s = E.*1 → topCounts s = E.*2 → leaderboard s = E.
Proof. unfold leaderboard. intros -> ->. apply zip_fst_snd. Qed.

Lemma lb_inv_action up e s s' :
  lb_inv s → dispatch (action up) e s = inr (tt, s') → lb_inv s'.
Proof.
  intros [Hlen Hcap Hnd Hsort Hsc Hact] H.
  apply action_effect in H; [|done].
  destruct H as ((E' & HE' & HA & HC) & Hic & Hinc & Hdec & _).
  pose proof (leaderboard_fst s Hlen) as Hfst.
  pose proof (leaderboard_snd s Hlen) as Hsnd.
  split.
  - by rewrite HA, HC, !length_fmap.
  - rewrite HA, length_fmap. eapply lb_update_length; [exact HE'|].
    by rewrite <- (length_fmap fst), Hfst.
  - rewrite HA. eapply lb_update_NoDup; [exact HE'|]. by rewrite Hfst.
  - rewrite HC. eapply lb_update_descending; [exact HE'|by rewrite Hsnd|].
    intros c Hc. apply Hsc in Hc as ->. lia.
  - rewrite (leaderboard_eq s' E' HA HC). intros a c Hin.
    eapply lb_update_elem in Hin; [|exact HE'|by rewrite Hfst].
    rewrite Hic. destruct Hin as [[= -> ->]|[Hin Hne]].
    + by rewrite N.eqb_refl.
    + apply N.eqb_neq in Hne as ->. by apply Hsc.
  - intros a. rewrite Hic, Hinc, Hdec.
    destruct (a =? msg_sender e) eqn:Ha, up; unbool; subst; simpl;
      rewrite ?Hact; lia.
Qed.

Lemma lb_inv_transact s ce : lb_inv s → lb_inv (transact s ce).
Proof.
  intros Hinv. unfold transact.
  destruct (dispatch ce.1 ce.2 s) as [err|[[] s']] eqn:H; [done|].
  destruct ce as [c e]. simpl in H.
  destruct c; [by apply (lb_inv_action true e s)
              |by apply (lb_inv_action false e s)|..];
    apply owner_call_inv in H as [_ ->]; by destruct Hinv.
Qed.

Lemma lb_inv_reachable s : reachable s → lb_inv s.
Proof.
  induction 1; [apply lb_inv_deploy|by apply lb_inv_transact].
Qed.

(** ** Badges *)

(** The effect of a successful counter action on the badge state. *)
Lemma action_badge up e s s' :
  dispatch (action up) e s = inr (tt, s') →
  let u := msg_sender e in
  let tier := _determineTier s (if up then increments (userStats s u) + 1
                                else increments (userStats s u)) in
  let stored := badgeTier (userStats s u) in
  let mint := (stored <? tier) && (userTokenId s u =? 0) in
  (∀ a, badgeTier (userStats s' a)
        = if (a =? u) && (stored <? tier) then tier
          else badgeTier (userStats s a))
  ∧ (∀ a, userTokenId s' a
          = if (a =? u) && mint then nextTokenId s else userTokenId s a)
  ∧ nextTokenId s' = (if mint then nextTokenId s + 1 else nextTokenId s)
  ∧ (∀ a, minted_tokens a (events s')
          = minted_tokens a (events s)
            ++ if (a =? u) && mint then [nextTokenId s] else [])
  ∧ same_thresholds s s'.
Proof.
  intros H u.
  apply action_inv in H as (_ & _ & _ & _ & _ & s2 & s4 & Hup & Hbadge & ->).
  fold u in Hup, Hbadge.
  apply update_board_only in Hup. unfold board_only in Hup.
  rewrite Hup in Hbadge. apply badge_inv in Hbadge.
  destruct up; cbn in Hbadge; rewrite upd_same in Hbadge;
    unfold _determineTier in *; cbn in Hbadge;
    set (tier := if legendaryThreshold s <=? _ then _ else _) in *;
    (destruct Hbadge
      as [[Hle ->]|[(Hlt & Htok & ->)|(Hlt & Htok & _ & _ & _ & ->)]];
     [apply N.ltb_ge in Hle; rewrite Hle
     |apply N.ltb_lt in Hlt; apply N.eqb_neq in Htok; rewrite Hlt, Htok
     |apply N.ltb_lt in Hlt; rewrite Hlt, Htok]);
    cbn; fold u;
    (split; [|split; [|split; [done|split; [|done]]]]);
    intros a; rewrite ?omap_app; unfold upd; simpl;
    rewrite ?(N.eqb_sym u a);
    destruct (a =? u) eqn:Ha; unbool; subst; rewrite ?N.eqb_refl; simpl;
    rewrite ?app_nil_r; done.
Qed.

Lemma badge_ok_deploy deployer f : badge_ok (deploy deployer f).
Proof. split; simpl; [lia|done|done]. Qed.

Lemma badge_ok_action up e s s' :
  badge_ok s → dispatch (action up) e s = inr (tt, s') → badge_ok s'.
Proof.
  intros [Hpos Htier Hminted] H.
  apply action_badge in H as (Hb & Htok & Hnext & Hm & _).
  set (u := msg_sender e) in *.
  set (tier := _determineTier s _) in *.
  set (stored := badgeTier (userStats s u)) in *.
  pose proof (Htier u) as Hu. fold stored in Hu.
  split.
  - rewrite Hnext. destruct (_ && _); lia.
  - intros a. rewrite Hb, Htok.
    destruct (a =? u) eqn:Ha; simpl; [|apply Htier]. unbool. subst a.
    destruct (stored <? tier) eqn:Hlt; simpl; [|done]. unbool.
    destruct (userTokenId s u =? 0) eqn:Hz; unbool; lia.
  - intros a. rewrite Hm, Htok, Hminted.
    destruct (a =? u) eqn:Ha; simpl; [|by rewrite app_nil_r]. unbool. subst a.
    destruct (stored <? tier) eqn:Hlt; simpl; [|by rewrite app_nil_r].
    destruct (userTokenId s u =? 0) eqn:Hz; simpl; [|by rewrite Hz].
    destruct (nextTokenId s =? 0) eqn:Hn; [unbool; lia|done].
Qed.

Lemma badge_ok_transact s ce : badge_ok s → badge_ok (transact s ce).
Proof.
  intros Hok. unfold transact.
  destruct (dispatch ce.1 ce.2 s) as [err|[[] s']] eqn:H; [done|].
  destruct ce as [c e]. simpl in H.
  destruct c; [by apply (badge_ok_action true e s)
              |by apply (badge_ok_action false e s)|..];
    apply owner_call_inv in H as [_ ->]; destruct Hok as [? ? Hm];
    (split; [done|done|]); intros a; cbn; unfold minted_tokens in *;
    rewrite omap_app; simpl; by rewrite app_nil_r.
Qed.

Lemma badge_ok_reachable s : reachable s → badge_ok s.
Proof.
  induction 1; [apply badge_ok_deploy|by apply badge_ok_transact].
Qed.

Lemma reachable_run s calls : reachable s → reachable (run s calls).
Proof.
  revert s. induction calls as [|ce calls IH]; intros s H; [done|].
  simpl. apply IH. by constructor.
Qed.

Lemma ties_stable_refl E : ties_stable E E.
Proof.
  intros a b c Ha _ H. split; [|done].
  apply list_elem_of_fmap. by exists (a, c).
Qed.

(** The predicate tells the two places of a newcomer apart: behind the equal
    score is stable, ahead of it is not. *)
Lemma ties_stable_newcomer :
  ties_stable [(7, 1)] [(7, 1); (8, 1)]
  ∧ ¬ ties_stable [(7, 1)] [(8, 1); (7, 1)].
Proof.
  split.
  - apply (lb_update_stable 8 1).
    + apply (lb_append 8 1 [(7, 1)] 1%nat); simpl.
      * intros H. apply elem_of_cons in H as [H|H]; [done|by apply elem_of_nil in H].
      * unfold MAX_TOP. lia.
      * lia.
      * constructor.
      * intros p [= <-]. simpl. lia.
    + simpl. apply NoDup_cons. split; [|apply NoDup_singleton].
      intros H. apply elem_of_cons in H as [H|H]; [done|by apply elem_of_nil in H].
  - intros H. destruct (H 8 7 1) as [Hin _].
    + by left.
    + right. by left.
    + unfold before. simpl. done.
    + simpl in Hin. apply elem_of_cons in Hin as [Hin|Hin]; [done|].
      by apply elem_of_nil in Hin.
Qed.

Lemma ties_stable_transact s ce :
  lb_inv s → ties_stable (leaderboard s) (leaderboard (transact s ce)).
Proof.
  intros Hinv. unfold transact.
  destruct (dispatch ce.1 ce.2 s) as [err|[[] s']] eqn:H;
    [apply ties_stable_refl|].
  destruct ce as [c e]. simpl in H.
  assert (∀ up, dispatch (action up) e s = inr (tt, s') →
                ties_stable (leaderboard s) (leaderboard s')) as Hact.
  { intros up Hup. apply action_effect in Hup; [|by destruct Hinv].
    destruct Hup as ((E' & HE' & HA & HC) & _).
    rewrite (leaderboard_eq s' E' HA HC).
    eapply lb_update_stable; [exact HE'|].
    eapply lb_update_NoDup; [exact HE'|].
    rewrite leaderboard_fst; by destruct Hinv. }
  destruct c; [by apply (Hact true)|by apply (Hact false)|..];
    apply owner_call_inv in H as [_ ->]; apply ties_stable_refl.
Qed.


(** ** The claims of the specification *)

(** C1, as stated, fails: after two addresses have each made one action the
    leaderboard holds two entries of score 1, so its scores are not in
    strictly decreasing order. *)
Lemma C1_tie_is_not_strictly_descending :
  reachable two_tied
  ∧ leaderboard two_tied = [(7, 1); (8, 1)]
  ∧ ¬ strictly_descending (leaderboard two_tied).*2.
Proof.
  split; [apply reachable_run, reachable_deploy|]. split; [done|].
  intros H. specialize (H 0%nat 1%nat 1 1). simpl in H.
  assert (1 < 1) by (apply H; [lia|done|done]). lia.
Qed.


(** With receivers that do not call back ([Contract]), at most one badge
    token is minted for an address: in every state they reach the tokens
    minted for an address are the token recorded for it, if any, and a call
    mints a token for the address exactly when it takes the stored tier of
    the address from 0 to a positive value.  A receiver that calls back from
    its hook is minted more ([Reentrancy]). *)
Lemma passive_receivers_one_badge (s : State) (a : address) :
  reachable s →
  (length (minted_tokens a (events s)) ≤ 1)%nat
  ∧ minted_tokens a (events s)
    = (if userTokenId s a =? 0 then [] else [userTokenId s a])
  ∧ ∀ ce, let s' := transact s ce in
      minted_tokens a (events s')
      = minted_tokens a (events s)
        ++ if (badgeTier (userStats s a) =? 0)
              && (0 <? badgeTier (userStats s' a))
           then [nextTokenId s] else [].
Proof.
  intros Hr. pose proof (badge_ok_reachable s Hr) as [Hpos Htier Hminted].
  split; [|split; [done|]].
  { rewrite Hminted. destruct (_ =? _); simpl; lia. }
  intros ce s'. unfold s', transact.
  assert (∀ x, (x =? 0) && (0 <? x) = false) as Hno.
  { intros x. destruct (x =? 0) eqn:Hx; [|done]. unbool. by subst. }
  destruct (dispatch ce.1 ce.2 s) as [err|[[] s1]] eqn:H.
  { by rewrite Hno, app_nil_r. }
  destruct ce as [c e]. simpl in H.
  assert (∀ up, dispatch (action up) e s = inr (tt, s1) →
    minted_tokens a (events s1)
    = minted_tokens a (events s)
      ++ if (badgeTier (userStats s a) =? 0) && (0 <? badgeTier (userStats s1 a))
         then [nextTokenId s] else []) as Hact.
  { intros up Hup. apply action_badge in Hup as (Hb & _ & _ & Hm & _).
    rewrite Hm, Hb. f_equal.
    destruct (a =? msg_sender e) eqn:Ha; simpl; [|by rewrite Hno].
    unbool. subst a.
    pose proof (Htier (msg_sender e)) as Hu.
    destruct (userTokenId s (msg_sender e) =? 0) eqn:Hz; unbool.
    - apply Hu in Hz as Hst. rewrite Hst. simpl. rewrite andb_true_r.
      destruct (0 <? _) eqn:Hlt; [by rewrite Hlt|done].
    - rewrite andb_false_r.
      destruct (badgeTier (userStats s (msg_sender e)) =? 0) eqn:Hst; [|done].
      unbool. by apply Hu in Hst. }
  destruct c; [by apply (Hact true)|by apply (Hact false)|..];
    apply owner_call_inv in H as [_ ->]; cbn; rewrite Hno, app_nil_r;
    unfold minted_tokens; rewrite omap_app; simpl; by rewrite app_nil_r.
Qed.

Lemma transact_revert s c e err :
  dispatch c e s = inl err → transact s (c, e) = s.
Proof. unfold transact. simpl. by intros ->. Qed.

(** C4: an [increment] or [decrement] whose payment differs from the
    configured fee aborts with "Must pay exact fee", and the storage (counter,
    statistics, leaderboard and badges) is what it was before the call. *)
Theorem C4_wrong_payment_changes_nothing (s : State) (e : Env) :
  msg_value e ≠ fee s →
  increment e s = inl (Revert "Must pay exact fee")
  ∧ decrement e s = inl (Revert "Must pay exact fee")
  ∧ transact s (Increment, e) = s
  ∧ transact s (Decrement, e) = s.
Proof.
  intros Hne. apply N.eqb_neq in Hne.
  assert (increment e s = inl (Revert "Must pay exact fee")) as Hi.
  { unfold increment, onlyPaid. rewrite bind_gets. unfold bind, require.
    by rewrite Hne. }
  assert (decrement e s = inl (Revert "Must pay exact fee")) as Hd.
  { unfold decrement, onlyPaid. rewrite bind_gets. unfold bind, require.
    by rewrite Hne. }
  split; [done|]. split; [done|].
  split; by eapply transact_revert.
Qed.

Lemma C4_wrong_payment_witness :
  increment (mkEnv 7 4 3600 true true) (deploy 1 5)
  = inl (Revert "Must pay exact fee")
  ∧ decrement (mkEnv 7 4 3600 true true) (deploy 1 5)
    = inl (Revert "Must pay exact fee")
  ∧ transact (deploy 1 5) (Increment, mkEnv 7 4 3600 true true) = deploy 1 5
  ∧ transact (deploy 1 5) (Decrement, mkEnv 7 4 3600 true true) = deploy 1 5.
Proof.
  apply (C4_wrong_payment_changes_nothing (deploy 1 5) (mkEnv 7 4 3600 true true)).
  simpl. lia.
Defined.


Lemma timeLocked_check_ok e s :
  lastActionTime (userStats s (msg_sender e)) + COOLDOWN_SECONDS
  ≤ block_timestamp e →
  block_timestamp e ≤ MAX_UINT256 →
  timeLocked_check e s = inr (tt, s).
Proof.
  intros Hle Hmax. unfold timeLocked_check. rewrite bind_gets.
  unfold bind, checked_add.
  assert (lastActionTime (userStats s (msg_sender e)) + COOLDOWN_SECONDS
          ≤ MAX_UINT256) as Hno by lia.
  apply N.leb_le in Hno, Hle. rewrite Hno. unfold ret, require.
  cbv beta iota. by rewrite Hle.
Qed.



Lemma onlyPaid_paid e body s :
  msg_value e = fee s → onlyPaid e body s = body s.
Proof.
  intros Hfee. unfold onlyPaid. rewrite bind_gets. unfold bind, require.
  apply N.eqb_eq in Hfee. by rewrite Hfee.
Qed.

(** C7: a [decrement] that passes the payment and cooldown checks while the
    counter is 0 aborts with "Counter already zero" before anything is
    written, and the counter stays 0. *)
Theorem C7_decrement_at_zero (s : State) (e : Env) :
  count s = 0 →
  msg_value e = fee s →
  lastActionTime (userStats s (msg_sender e)) + COOLDOWN_SECONDS
  ≤ block_timestamp e →
  block_timestamp e ≤ MAX_UINT256 →
  decrement e s = inl (Revert "Counter already zero")
  ∧ transact s (Decrement, e) = s
  ∧ count (transact s (Decrement, e)) = 0.
Proof.
  intros Hz Hfee Hle Hmax.
  assert (decrement e s = inl (Revert "Counter already zero")) as Hd.
  { unfold decrement, onlyPaid, timeLocked.
    rewrite bind_gets. apply N.eqb_eq in Hfee.
    unfold bind at 1. unfold require at 1. rewrite Hfee. unfold ret at 1.
    rewrite (bind_ok _ _ _ _ _ (timeLocked_check_ok e s Hle Hmax)).
    unfold bind at 1. rewrite bind_gets. unfold bind, require.
    by rewrite Hz. }
  split; [done|].
  rewrite (transact_revert s Decrement e _ Hd). by split.
Qed.

Lemma C7_decrement_at_zero_witness :
  decrement (mkEnv 7 0 3600 true true) (deploy 1 0)
  = inl (Revert "Counter already zero")
  ∧ transact (deploy 1 0) (Decrement, mkEnv 7 0 3600 true true) = deploy 1 0
  ∧ count (transact (deploy 1 0) (Decrement, mkEnv 7 0 3600 true true)) = 0.
Proof.
  apply (C7_decrement_at_zero (deploy 1 0) (mkEnv 7 0 3600 true true));
    [reflexivity|reflexivity|vm_compute; by intros [=]|vm_compute; by intros [=]].
Defined.

(** The update on a full board that does not hold the address: compare
    with the last score, then overwrite the last slot and bubble. *)
Lemma update_full u s (E : list Entry) (w : Entry) :
  topAddresses s = (E ++ [w]).*1 →
  topCounts s = (E ++ [w]).*2 →
  (MAX_TOP ≤ length (E ++ [w]))%nat →
  u ∉ (E ++ [w]).*1 →
  _updateTopLeaderboard u s
  = if incrementCount s u <=? w.2 then inr (tt, s)
    else bubble (length E)
           (with_board (E.*1 ++ [u]) (E.*2 ++ [incrementCount s u]) s).
Proof.
  intros HA HC Hfull Hnot. unfold _updateTopLeaderboard.
  msimp. set (uc := incrementCount s u).
  assert (length (topAddresses s) = length (E ++ [w])) as HlenA
    by (by rewrite HA, length_fmap).
  assert (length (topCounts s) = length (E ++ [w])) as HlenC
    by (by rewrite HC, length_fmap).
  rewrite (bind_ok _ _ _ false s); last first.
  { rewrite HA at 1. exact (scan_miss u uc ((E ++ [w]).*1) [] s HA Hnot). }
  rewrite HlenA. rewrite decide_False by lia.
  msimp. rewrite HlenC.
  rewrite length_app in *. simpl length in *.
  rewrite decide_False by lia. msimp.
  replace (length E + 1 - 1)%nat with (length E) by lia.
  rewrite (bind_ok _ _ _ (w.2) s); last first.
  { apply read_topCounts_ok. rewrite HC, fmap_app.
    rewrite <- (length_fmap snd E). apply lookup_mid. }
  destruct (uc <=? w.2) eqn:Hle; [done|].
  rewrite fmap_app in HA, HC. simpl in HA, HC.
  rewrite (bind_ok _ _ _ tt (set_topAddresses (E.*1 ++ [u]) s)); last first.
  { rewrite write_topAddresses_ok by lia.
    rewrite HA. rewrite <- (length_fmap fst E). by rewrite insert_mid. }
  rewrite (bind_ok _ _ _ tt
    (set_topCounts (E.*2 ++ [uc]) (set_topAddresses (E.*1 ++ [u]) s)));
    last first.
  { rewrite write_topCounts_ok by (simpl; lia).
    simpl. rewrite HC. rewrite <- (length_fmap snd E). by rewrite insert_mid. }
  done.
Qed.

(** C6: on a full board that does not hold the address, the update is a
    no-op when the address's count is not strictly greater than the last
    score; otherwise it overwrites the last slot and bubbles the new entry
    left, past strictly smaller scores only, to a place that keeps the board
    ordered.  The address is on the board afterwards exactly when its count
    was strictly greater.  Updating for addresses 1..21 with counts 1..21
    leaves the 20 entries 21..2. *)
Theorem C6_full_board_admission :
  (∀ (s : State) (u : address) (E : list Entry) (w : Entry),
     topAddresses s = (E ++ [w]).*1 →
     topCounts s = (E ++ [w]).*2 →
     length (E ++ [w]) = MAX_TOP →
     u ∉ (E ++ [w]).*1 →
     let uc := incrementCount s u in
     (uc ≤ w.2 → _updateTopLeaderboard u s = inr (tt, s))
     ∧ (w.2 < uc →
        _updateTopLeaderboard u s
        = bubble (length E) (with_board (E.*1 ++ [u]) (E.*2 ++ [uc]) s)
        ∧ ∃ n, (n ≤ length E)%nat
            ∧ _updateTopLeaderboard u s
              = inr (tt, with_board ((take n E ++ (u, uc) :: drop n E).*1)
                                    ((take n E ++ (u, uc) :: drop n E).*2) s)
            ∧ Forall (λ p, p.2 < uc) (drop n E)
            ∧ (∀ p, last (take n E) = Some p → uc ≤ p.2)
            ∧ (descending ((E ++ [w]).*2) →
               descending ((take n E ++ (u, uc) :: drop n E).*2)))
     ∧ match _updateTopLeaderboard u s with
       | inr (_, s') =>
           (u ∈ topAddresses s' ↔ w.2 < uc)
           ∧ length (topAddresses s') = MAX_TOP
       | inl _ => False
       end)
  ∧ leaderboard (updates preset_counts (addresses_1_to 21))
    = map (λ i, (N.of_nat i, N.of_nat i)) (rev (seq 2 20))
  ∧ 1 ∉ topAddresses (updates preset_counts (addresses_1_to 21)).
Proof.
  split; [|split; [by vm_compute|]].
  - intros s u E w HA HC Hlen Hnot uc.
    pose proof (update_full u s E w HA HC ltac:(lia) Hnot) as Hup.
    fold uc in Hup.
    assert (w.2 < uc →
      ∃ n, (n ≤ length E)%nat
        ∧ bubble (length E) (with_board (E.*1 ++ [u]) (E.*2 ++ [uc]) s)
          = inr (tt, with_board ((take n E ++ (u, uc) :: drop n E).*1)
                                ((take n E ++ (u, uc) :: drop n E).*2) s)
        ∧ Forall (λ p, p.2 < uc) (drop n E)
        ∧ (∀ p, last (take n E) = Some p → uc ≤ p.2)) as Hb.
    { intros _.
      destruct (bubble_entries E u uc []
                  (with_board (E.*1 ++ [u]) (E.*2 ++ [uc]) s))
        as (n & Hn & Hb & Hlt & Hge).
      { simpl. by rewrite fmap_app. }
      { simpl. by rewrite fmap_app. }
      rewrite app_nil_r in Hb. exists n. by rewrite Hb. }
    split; [|split].
    + intros Hle. apply N.leb_le in Hle. by rewrite Hup, Hle.
    + intros Hlt. destruct (Hb Hlt) as (n & Hn & Hbn & Hdrop & Hlast).
      apply N.leb_gt in Hlt as Hlt'. rewrite Hup, Hlt'. split; [done|].
      exists n. split; [done|]. split; [done|]. split; [done|]. split; [done|].
      intros Hdesc.
      eapply (lb_update_descending u uc (E ++ [w])); [|done|].
      * apply lb_replace; try done. rewrite Hlen. done.
      * intros c Hc. destruct Hnot. apply list_elem_of_fmap. by exists (u, c).
    + destruct (uc <=? w.2) eqn:Hle; rewrite Hup; unbool.
      * split; [|by rewrite HA, length_fmap].
        split; [|lia]. intros Hin. by rewrite HA in Hin.
      * destruct (Hb Hle) as (n & Hn & -> & _). simpl. split.
        -- split; [done|]. intros _. rewrite fmap_app, fmap_cons. simpl.
           apply elem_of_app. right. by left.
        -- rewrite length_fmap, length_app. simpl.
           rewrite length_take, length_drop.
           rewrite length_app in Hlen. simpl in Hlen. lia.
  - vm_compute. intros H.
    repeat (apply elem_of_cons in H as [H|H]; [done|]).
    by apply elem_of_nil in H.
Qed.

Lemma C6_full_board_witness :
  let s := updates preset_counts (addresses_1_to 20) in
  _updateTopLeaderboard 21 s
  = bubble 19 (with_board (map N.of_nat (rev (seq 2 19)) ++ [21])
                          (map N.of_nat (rev (seq 2 19)) ++ [21]) s)
  ∧ match _updateTopLeaderboard 21 s with
    | inr (_, s') => 21 ∈ topAddresses s' ∧ length (topAddresses s') = MAX_TOP
    | inl _ => False
    end.
Proof.
  intros s.
  destruct C6_full_board_admission as [Hgen _].
  destruct (Hgen s 21
              (map (λ i, (N.of_nat i, N.of_nat i)) (rev (seq 2 19))) (1, 1))
    as (_ & Hadmit & Hmatch);
    [by vm_compute|by vm_compute|by vm_compute| |].
  { vm_compute. intros H.
    repeat (apply elem_of_cons in H as [H|H]; [done|]).
    by apply elem_of_nil in H. }
  split.
  - destruct Hadmit as [Heq _]; [by vm_compute|]. exact Heq.
  - destruct (_updateTopLeaderboard 21 s) as [err|[[] s']]; [done|].
    destruct Hmatch as [[_ Hin] Hlen]. split; [|done].
    apply Hin. by vm_compute.
Defined.

(** C8: [_determineTier] is a function of the increments count and the
    thresholds alone; against the deployed table 10, 25, 50, 100, 250, 500,
    1000 it returns the number of thresholds reached, each inclusively, and 0
    below all of them.  Ten increments by a fresh address, with fee 0 and the
    calls an hour apart, give counter 10, 10 increments, tier 1 and the
    leaderboard [(A, 10)]; after nine the tier is still 0. *)
Theorem C8_tier_table :
  (∀ (s : State) (n : N),
     default_thresholds s →
     _determineTier s n
     = if n <? 10 then 0 else if n <? 25 then 1 else if n <? 50 then 2
       else if n <? 100 then 3 else if n <? 250 then 4
       else if n <? 500 then 5 else if n <? 1000 then 6 else 7)
  ∧ (∀ deployer f, default_thresholds (deploy deployer f))
  ∧ (let s := increments_by_7 10 in
     count s = 10
     ∧ increments (userStats s 7) = 10
     ∧ badgeTier (userStats s 7) = 1
     ∧ leaderboard s = [(7, 10)])
  ∧ badgeTier (userStats (increments_by_7 9) 7) = 0.
Proof.
  split; [|split; [|split]].
  - intros s n H. unfold _determineTier.
    destruct H as (-> & -> & -> & -> & -> & -> & ->).
    rewrite !N.leb_antisym.
    repeat match goal with
    | |- context [n <? ?a] => destruct (n <? a) eqn:?; simpl
    end; unbool; try done; lia.
  - intros deployer f. by repeat split.
  - by vm_compute.
  - by vm_compute.
Qed.

Lemma C8_tier_table_witness :
  _determineTier (deploy 1 0) 10 = 1
  ∧ _determineTier (deploy 1 0) 9 = 0
  ∧ _determineTier (deploy 1 0) 1000 = 7.
Proof.
  destruct C8_tier_table as (Htable & Hdeploy & _).
  split; [|split].
  - exact (Htable (deploy 1 0) 10 (Hdeploy 1 0)).
  - exact (Htable (deploy 1 0) 9 (Hdeploy 1 0)).
  - exact (Htable (deploy 1 0) 1000 (Hdeploy 1 0)).
Defined.




End Ledger.

Module Refresh.
Import Client.

Lemma guarded_step_keeps p ev :
  Guarded.guarded_cycles p = (if Guarded.isRefreshing p then [tt] else []) →
  Guarded.guarded_cycles (Guarded.guarded_step p ev)
  = (if Guarded.isRefreshing (Guarded.guarded_step p ev) then [tt] else []).
Proof.
  intros H. destruct ev; simpl; try done.
  - unfold Guarded.startAutoRefresh. by destruct (Guarded.autoRefreshInterval p).
  - unfold Guarded.stopAutoRefresh. by destruct (Guarded.autoRefreshInterval p).
  - unfold Guarded.guarded_tick.
    destruct (Guarded.autoRefreshInterval p); [|done].
    destruct (Guarded.userAddress p); [|done].
    destruct (Guarded.isRefreshing p) eqn:Hr; [by rewrite Hr|].
    simpl. by rewrite H.
  - unfold Guarded.guarded_resume. rewrite H.
    destruct (Guarded.isRefreshing p) eqn:Hr.
    + destruct i as [|i]; simpl; [done|by rewrite Hr].
    + simpl. by rewrite Hr.
Qed.

(** In the guarded script at most one refresh cycle is in flight after any
    sequence of page events, and one is in flight exactly while
    [isRefreshing] is set. *)
Lemma guarded_one_cycle_in_flight (evs : list PageEvent) :
  let p := Guarded.guarded_run Guarded.guarded_init evs in
  (length (Guarded.guarded_cycles p) ≤ 1)%nat
  ∧ Guarded.guarded_cycles p = (if Guarded.isRefreshing p then [tt] else []).
Proof.
  assert (∀ p, Guarded.guarded_cycles p = (if Guarded.isRefreshing p then [tt] else []) →
    Guarded.guarded_cycles (Guarded.guarded_run p evs)
    = (if Guarded.isRefreshing (Guarded.guarded_run p evs) then [tt] else [])) as H.
  { induction evs as [|ev evs IH]; intros p Hp; [done|].
    simpl. apply IH. by apply guarded_step_keeps. }
  intros p. specialize (H Guarded.guarded_init eq_refl). fold p in H.
  split; [|done]. rewrite H. destruct (Guarded.isRefreshing p); simpl; lia.
Qed.

(** C9 fails for [main.js]: with a connected account and the timer running,
    two ticks while the first cycle still awaits its first read leave two
    refresh cycles in flight, and both run on when their reads settle. *)
Theorem C9_unguarded_cycles_overlap :
  MainJs.main_cycles
    (MainJs.main_run MainJs.main_init [Connected "0xA"; StartAutoRefresh; Tick; Tick])
  = [MainJs.AwaitCount; MainJs.AwaitCount]
  ∧ MainJs.main_cycles
      (MainJs.main_run MainJs.main_init
         [Connected "0xA"; StartAutoRefresh; Tick; Tick;
          Settled 0 true; Settled 1 true])
    = [MainJs.AwaitBadge; MainJs.AwaitBadge]
  ∧ Guarded.guarded_cycles
      (Guarded.guarded_run Guarded.guarded_init [Connected "0xA"; StartAutoRefresh; Tick; Tick])
    = [tt].
Proof. by repeat split. Qed.

End Refresh.

(** * Further properties of the contract *)

Module LedgerMore.
Import Contract ContractViews Ledger.

(** The events and the token owners after a successful counter action. *)
Lemma action_log up e s s' :
  dispatch (action up) e s = inr (tt, s') →
  let u := msg_sender e in
  let tier := _determineTier s (if up then increments (userStats s u) + 1
                                else increments (userStats s u)) in
  let stored := badgeTier (userStats s u) in
  let mint := (stored <? tier) && (userTokenId s u =? 0) in
  events s'
  = events s
    ++ (if mint then [Transfer 0 u (nextTokenId s)] else [])
    ++ (if stored <? tier
        then [BadgeAssigned u (if mint then nextTokenId s else userTokenId s u)
                tier]
        else [])
    ++ [CounterChanged u (if up then 1%Z else (-1)%Z) (count s')]
  ∧ (∀ t, _owners s' t
          = if mint && (t =? nextTokenId s) then u else _owners s t)
  ∧ (mint = true → u ≠ 0)
  ∧ count s' = (if up then count s + 1 else count s - 1).
Proof.
  intros H u.
  apply action_inv in H as (_ & _ & _ & _ & _ & s2 & s4 & Hup & Hbadge & ->).
  fold u in Hup, Hbadge.
  apply update_board_only in Hup. unfold board_only in Hup.
  rewrite Hup in Hbadge. apply badge_inv in Hbadge.
  destruct up; cbn in Hbadge; rewrite upd_same in Hbadge;
    unfold _determineTier in *; cbn in Hbadge;
    set (tier := if legendaryThreshold s <=? _ then _ else _) in *;
    (destruct Hbadge
      as [[Hle ->]|[(Hlt & Htok & ->)|(Hlt & Htok & Hu0 & _ & _ & ->)]];
     [apply N.ltb_ge in Hle; rewrite Hle
     |apply N.ltb_lt in Hlt; apply N.eqb_neq in Htok; rewrite Hlt, Htok
     |apply N.ltb_lt in Hlt; rewrite Hlt, Htok]);
    cbn; fold u; rewrite <- ?app_assoc; simpl;
    (split; [done|split; [|split; [done|done]]]);
    intros t; by destruct (t =? nextTokenId s).
Qed.

(** ** The board holds the highest counts *)

Lemma elem_fst (E : list Entry) a c : (a, c) ∈ E → a ∈ E.*1.
Proof. intros H. apply list_elem_of_fmap. by exists (a, c). Qed.

Lemma elem_snd (E : list Entry) a c : (a, c) ∈ E → c ∈ E.*2.
Proof. intros H. apply list_elem_of_fmap. by exists (a, c). Qed.

Lemma lb_update_top u uc (E E' : list Entry) (ic : address → N) :
  lb_update u uc E E' →
  descending E.*2 →
  (∀ a c, (a, c) ∈ E → c = ic a) →
  uc = ic u + 1 →
  (∀ a c, a ∉ E.*1 → c ∈ E.*2 → ic a ≤ c) →
  ((length E < MAX_TOP)%nat → ∀ a, a ∉ E.*1 → ic a = 0) →
  (∀ a, a ∈ E.*1 → 1 ≤ ic a) →
  let ic' := λ a, if a =? u then uc else ic a in
  (∀ a c, a ∉ E'.*1 → c ∈ E'.*2 → ic' a ≤ c)
  ∧ ((length E' < MAX_TOP)%nat → ∀ a, a ∉ E'.*1 → ic' a = 0)
  ∧ (∀ a, a ∈ E'.*1 → 1 ≤ ic' a).
Proof.
  intros Hup Hdesc Hsc Huc P1 P2 P3 ic'. unfold ic'.
  destruct Hup as [pre c0 post n Hpre Hn Hlt Hge|E n Hu Hlen Hn Hlt Hge
                  |E w Hu Hlen Hw Hle|E w n Hu Hlen Hw Hn Hlt Hge].
  - assert (c0 = ic u) as Hc0.
    { apply Hsc. apply elem_of_app. right. by left. }
    assert (∀ a, a ∈ (take n pre ++ (u, uc) :: drop n pre ++ post).*1
                 ↔ a ∈ (pre ++ (u, c0) :: post).*1) as HA.
    { intros a. rewrite insert_perm, <- Permutation_middle.
      by rewrite !fmap_cons. }
    assert (∀ c, c ∈ (take n pre ++ (u, uc) :: drop n pre ++ post).*2 →
                 c = uc ∨ c ∈ (pre ++ (u, c0) :: post).*2) as HC.
    { intros c. rewrite insert_perm, <- (Permutation_middle pre).
      rewrite !fmap_cons. simpl. rewrite !elem_of_cons. tauto. }
    assert (u ∈ (pre ++ (u, c0) :: post).*1) as Huin.
    { apply (elem_fst _ u c0). apply elem_of_app. right. by left. }
    split; [|split].
    + intros a c Ha Hc. rewrite HA in Ha.
      destruct (a =? u) eqn:Hau; unbool; [by subst|].
      apply HC in Hc as [->|Hc]; [|by apply P1].
      trans c0; [|lia]. apply P1; [done|].
      apply (elem_snd _ u c0). apply elem_of_app. right. by left.
    + intros Hl a Ha. rewrite HA in Ha.
      destruct (a =? u) eqn:Hau; unbool; [by subst|].
      apply P2; [|done].
      rewrite length_app in *. simpl in *.
      rewrite length_take, length_app, length_drop in Hl. simpl in Hl. lia.
    + intros a Ha. rewrite HA in Ha.
      destruct (a =? u) eqn:Hau; unbool; [lia|by apply P3].
  - assert (∀ a, a ∈ (take n E ++ (u, uc) :: drop n E).*1 ↔ a = u ∨ a ∈ E.*1)
      as HA.
    { intros a. rewrite <- (app_nil_r (drop n E)), insert_perm, app_nil_r.
      rewrite fmap_cons. simpl. by rewrite elem_of_cons. }
    split; [|split].
    + intros a c Ha Hc. rewrite HA in Ha.
      destruct (a =? u) eqn:Hau; unbool; [tauto|].
      rewrite (P2 Hlen a); [lia|tauto].
    + intros _ a Ha. rewrite HA in Ha.
      destruct (a =? u) eqn:Hau; unbool; [tauto|].
      apply (P2 Hlen a). tauto.
    + intros a Ha. rewrite HA in Ha.
      destruct (a =? u) eqn:Hau; unbool; [lia|]. apply P3. tauto.
  - split; [|split].
    + intros a c Ha Hc. destruct (a =? u) eqn:Hau; unbool; [|by apply P1].
      trans w.2; [done|].
      apply (descending_last (E.*2)); [done| |done].
      by rewrite fmap_last, Hw.
    + intros Hl. lia.
    + intros a Ha. destruct (a =? u) eqn:Hau; unbool; [by subst|by apply P3].
  - assert (∀ a, a ∈ (take n E ++ (u, uc) :: drop n E).*1 ↔ a = u ∨ a ∈ E.*1)
      as HA.
    { intros a. rewrite <- (app_nil_r (drop n E)), insert_perm, app_nil_r.
      rewrite fmap_cons. simpl. by rewrite elem_of_cons. }
    assert (∀ c, c ∈ (take n E ++ (u, uc) :: drop n E).*2 ↔ c = uc ∨ c ∈ E.*2)
      as HC.
    { intros c. rewrite <- (app_nil_r (drop n E)), insert_perm, app_nil_r.
      rewrite fmap_cons. simpl. by rewrite elem_of_cons. }
    rewrite fmap_app in Hdesc. simpl in Hdesc.
    apply descending_app in Hdesc as (_ & _ & Hcross).
    assert (∀ a, a ∉ E.*1 → a ≠ u → ic a ≤ w.2) as Hw2.
    { intros a Ha Hau. destruct (decide (a = w.1)) as [->|Hne].
      - rewrite <- (Hsc w.1 w.2); [done|].
        apply elem_of_app. right. destruct w. by left.
      - apply P1.
        + rewrite fmap_app. simpl. rewrite elem_of_app, list_elem_of_singleton.
          tauto.
        + rewrite fmap_app. apply elem_of_app. right. by left. }
    split; [|split].
    + intros a c Ha Hc. rewrite HA in Ha. rewrite HC in Hc.
      destruct (a =? u) eqn:Hau; unbool; [tauto|].
      assert (ic a ≤ w.2) by (apply Hw2; tauto).
      destruct Hc as [->|Hc]; [lia|].
      trans w.2; [done|]. apply Hcross; [done|by left].
    + intros Hl. rewrite length_app in *. simpl in *.
      rewrite length_take, length_drop in Hl. lia.
    + intros a Ha. rewrite HA in Ha.
      destruct (a =? u) eqn:Hau; unbool; [lia|]. apply P3.
      rewrite fmap_app. apply elem_of_app. tauto.
Qed.

Lemma top_inv_deploy deployer f : top_inv (deploy deployer f).
Proof.
  split; simpl.
  - intros a c _ Hc. by apply elem_of_nil in Hc.
  - done.
  - intros a Ha. by apply elem_of_nil in Ha.
Qed.

Lemma top_inv_transact s ce :
  lb_inv s → top_inv s → top_inv (transact s ce).
Proof.
  intros Hinv Htop. unfold transact.
  destruct (dispatch ce.1 ce.2 s) as [err|[[] s']] eqn:H; [done|].
  destruct ce as [c e]. simpl in H.
  assert (∀ up, dispatch (action up) e s = inr (tt, s') → top_inv s') as Hact.
  { intros up Hup. destruct Hinv as [Hlen Hcap Hnd Hsort Hsc Hact].
    destruct Htop as [P1 P2 P3].
    apply action_effect in Hup; [|done].
    destruct Hup as ((E' & HE' & HA & HC) & Hic & _).
    pose proof (leaderboard_fst s Hlen) as Hfst.
    pose proof (leaderboard_snd s Hlen) as Hsnd.
    destruct (lb_update_top _ _ _ _ (incrementCount s) HE')
      as (Q1 & Q2 & Q3).
    { by rewrite Hsnd. }
    { exact Hsc. }
    { done. }
    { intros a x. rewrite Hfst, Hsnd. apply P1. }
    { intros Hl a. rewrite Hfst. apply P2.
      by rewrite <- (length_fmap fst), Hfst in Hl. }
    { intros a. rewrite Hfst. apply P3. }
    split.
    - intros a x. rewrite HA, HC, Hic. apply Q1.
    - rewrite HA, length_fmap. intros Hl a. rewrite Hic. by apply Q2.
    - intros a. rewrite HA, Hic. apply Q3. }
  destruct c; [by apply (Hact true)|by apply (Hact false)|..];
    apply owner_call_inv in H as [_ ->]; by destruct Htop.
Qed.

Lemma top_inv_reachable s : reachable s → top_inv s.
Proof.
  induction 1 as [|s ce Hr IH]; [apply top_inv_deploy|].
  apply top_inv_transact; [by apply lb_inv_reachable|done].
Qed.

Lemma not_elem_of_21 : 21 ∉ topAddresses (crowd 21).
Proof.
  vm_compute. intros H.
  repeat (apply elem_of_cons in H as [H|H]; [done|]).
  by apply elem_of_nil in H.
Qed.

(** X1: in every reachable state the leaderboard holds the highest action
    counts: an address that is not on the board has an action count no
    greater than any score on the board. *)
Theorem X1_board_holds_top_counts (s : State) (a : address) (c : N) :
  reachable s →
  a ∉ topAddresses s →
  c ∈ topCounts s →
  incrementCount s a ≤ c.
Proof. intros Hr. apply (top_bound s (top_inv_reachable s Hr)). Qed.

Lemma X1_board_holds_top_counts_witness :
  incrementCount (crowd 21) 21 ≤ 1.
Proof.
  apply (X1_board_holds_top_counts (crowd 21) 21 1).
  - apply reachable_run, reachable_deploy.
  - apply not_elem_of_21.
  - vm_compute. by left.
Defined.

Lemma lb_update_keeps u uc (E E' : list Entry) :
  lb_update u uc E E' →
  (length E ≤ length E')%nat
  ∧ ((length E < MAX_TOP)%nat → ∀ a, a ∈ E.*1 → a ∈ E'.*1).
Proof.
  destruct 1 as [pre c0 post n Hpre Hn Hlt Hge|E n Hu Hlen Hn Hlt Hge
                |E w Hu Hlen Hw Hle|E w n Hu Hlen Hw Hn Hlt Hge].
  - split.
    + rewrite (Permutation_length (insert_perm n (u, uc) pre post)).
      rewrite length_app. simpl. rewrite length_app. lia.
    + intros _ a. rewrite insert_perm, <- Permutation_middle.
      by rewrite !fmap_cons.
  - split.
    + rewrite <- (app_nil_r (drop n E)).
      rewrite (Permutation_length (insert_perm n (u, uc) E [])).
      simpl. rewrite app_nil_r. lia.
    + intros _ a Ha.
      rewrite <- (app_nil_r (drop n E)), insert_perm, app_nil_r.
      rewrite fmap_cons. by right.
  - done.
  - split; [|lia].
    rewrite <- (app_nil_r (drop n E)).
    rewrite (Permutation_length (insert_perm n (u, uc) E [])).
    simpl. rewrite app_nil_r, length_app. simpl. lia.
Qed.



(** ** Owner functions *)

(** A counter action leaves the fee and the owner alone, in any state. *)
Lemma action_frame up e s s' :
  dispatch (action up) e s = inr (tt, s') →
  fee s' = fee s ∧ owner s' = owner s.
Proof.
  intros H.
  apply action_inv in H as (_ & _ & _ & _ & _ & s2 & s4 & Hup & Hbadge & ->).
  apply update_board_only in Hup. unfold board_only in Hup.
  apply badge_frame in Hbadge as (_ & _ & _ & _ & Hfee & Howner & _).
  cbn in *. rewrite Hfee, Howner, Hup. by destruct up.
Qed.

Lemma owner_call_rejected c e s :
  is_owner_call c = true →
  msg_sender e ≠ owner s ∨ msg_value e ≠ 0 →
  ∃ err, dispatch c e s = inl err.
Proof.
  intros Hc Hbad.
  assert (∀ body, ∃ err, nonPayable e (onlyOwner e body) s = inl err) as H.
  { intros body. unfold nonPayable, onlyOwner, bind, require, gets.
    destruct (msg_value e =? 0) eqn:Hv; [|by eexists]. simpl.
    destruct (msg_sender e =? owner s) eqn:Ho; [|by eexists].
    unbool. by destruct Hbad. }
  destruct c; try done; apply H.
Qed.

(** ** The counter in the event log *)

Lemma last_counter_snoc evs ev :
  last_counter (evs ++ [ev])
  = match ev with
    | CounterChanged _ _ c => Some c
    | CounterReset v => Some v
    | _ => last_counter evs
    end.
Proof. unfold last_counter. rewrite foldl_app. by destruct ev. Qed.

(** ** Token bookkeeping *)

Lemma all_minted_snoc evs ev :
  all_minted (evs ++ [ev])
  = all_minted evs
    ++ match ev with
       | Transfer from _ tok => if from =? 0 then [tok] else []
       | _ => []
       end.
Proof.
  unfold all_minted. rewrite omap_app. f_equal.
  destruct ev; try done. simpl. by destruct (from =? 0).
Qed.

Lemma seq_next (n : N) :
  1 ≤ n →
  map N.of_nat (seq 1 (N.to_nat (n + 1) - 1))
  = map N.of_nat (seq 1 (N.to_nat n - 1)) ++ [n].
Proof.
  intros Hn.
  replace (N.to_nat (n + 1) - 1)%nat with (S (N.to_nat n - 1)) by lia.
  rewrite seq_S, map_app. simpl. f_equal. f_equal. lia.
Qed.

Lemma token_inv_deploy deployer f : token_inv (deploy deployer f).
Proof.
  split; simpl; [lia|done| |done].
  intros t. split; [done|lia].
Qed.

Lemma token_inv_action up e s s' :
  token_inv s → dispatch (action up) e s = inr (tt, s') → token_inv s'.
Proof.
  intros [Hnext Hminted Hexists Hrec] H.
  pose proof (action_log _ _ _ _ H) as (Hev & Hown & Hu0 & _).
  apply action_badge in H as (_ & Htok & Hnx & _).
  set (u := msg_sender e) in *.
  set (tier := _determineTier s _) in *.
  set (stored := badgeTier (userStats s u)) in *.
  set (mint := (stored <? tier) && (userTokenId s u =? 0)) in *.
  split.
  - rewrite Hnx. destruct mint; lia.
  - rewrite Hev, Hnx, !(assoc_L (++)).
    rewrite all_minted_snoc, app_nil_r.
    destruct mint eqn:Hm.
    + apply andb_true_iff in Hm as [Hlt _]. rewrite Hlt.
      rewrite all_minted_snoc, app_nil_r, all_minted_snoc. simpl.
      by rewrite Hminted, seq_next.
    + rewrite app_nil_r.
      destruct (stored <? tier); [|by rewrite app_nil_r].
      by rewrite all_minted_snoc, app_nil_r.
  - intros t. rewrite Hown, Hnx. destruct mint eqn:Hm; simpl; [|apply Hexists].
    destruct (t =? nextTokenId s) eqn:Ht; unbool.
    + subst t. split; [lia|]. intros _. by apply Hu0.
    + rewrite Hexists. lia.
  - intros a. rewrite Htok, Hown. fold mint.
    destruct mint eqn:Hm; simpl.
    + destruct (a =? u) eqn:Ha; simpl; unbool.
      * subst a. intros _. rewrite N.eqb_refl. split; [by apply Hu0|done].
      * intros Ht. destruct (Hrec a Ht) as [Ha0 Hown'].
        split; [done|].
        destruct (userTokenId s a =? nextTokenId s) eqn:Heq; unbool; [|done].
        assert (_owners s (userTokenId s a) ≠ 0) as Hne by (by rewrite Hown').
        apply Hexists in Hne. lia.
    + rewrite andb_false_r. apply Hrec.
Qed.

Lemma token_inv_transact s ce : token_inv s → token_inv (transact s ce).
Proof.
  intros Hinv. unfold transact.
  destruct (dispatch ce.1 ce.2 s) as [err|[[] s']] eqn:H; [done|].
  destruct ce as [c e]. simpl in H.
  destruct c; [by apply (token_inv_action true e s)
              |by apply (token_inv_action false e s)|..];
    apply owner_call_inv in H as [_ ->]; destruct Hinv as [? Hm ? ?];
    (split; [done| |done|done]); cbn;
    by rewrite all_minted_snoc, app_nil_r.
Qed.

Lemma token_inv_reachable s : reachable s → token_inv s.
Proof.
  induction 1; [apply token_inv_deploy|by apply token_inv_transact].
Qed.

(** ** Tiers and thresholds *)

Lemma threshold_Some s k th :
  threshold s k = Some th →
  k = 1 ∨ k = 2 ∨ k = 3 ∨ k = 4 ∨ k = 5 ∨ k = 6 ∨ k = 7.
Proof.
  destruct k as [|p]; [done|].
  destruct p as [[[]|[]|]|[[]|[]|]|]; simpl; try done; intros _; tauto.
Qed.

Lemma determineTier_le7 s n : _determineTier s n ≤ 7.
Proof.
  unfold _determineTier.
  repeat match goal with
  | |- context [if ?a <=? n then _ else _] => destruct (a <=? n); [lia|]
  end. lia.
Qed.

Lemma determineTier_mono s n m :
  n ≤ m → _determineTier s n ≤ _determineTier s m.
Proof.
  intros Hm. unfold _determineTier.
  repeat match goal with
  | |- context [?a <=? n] => destruct (a <=? n) eqn:?
  end; unbool;
  repeat match goal with
  | |- context [?a <=? m] => destruct (a <=? m) eqn:?
  end; unbool; lia.
Qed.

Lemma determineTier_same s s' n :
  same_thresholds s s' → _determineTier s' n = _determineTier s n.
Proof.
  intros (H1 & H2 & H3 & H4 & H5 & H6 & H7). unfold _determineTier.
  by rewrite H1, H2, H3, H4, H5, H6, H7.
Qed.

(** X7: for any thresholds, ordered or not, [_determineTier] returns the
    highest tier whose threshold the count reaches (0 when it reaches none):
    the result is at most 7, its own threshold is reached, no higher tier's
    threshold is, and the result does not decrease when the count grows.
    When the silver threshold is not above the bronze one, tier 1 is never
    returned. *)
Theorem X7_highest_reached_tier (s : State) (n : N) :
  let t := _determineTier s n in
  t ≤ 7
  ∧ (t = 0 ∨ ∃ th, threshold s t = Some th ∧ th ≤ n)
  ∧ (∀ k th, t < k → threshold s k = Some th → n < th)
  ∧ (∀ m, n ≤ m → t ≤ _determineTier s m)
  ∧ (silverThreshold s ≤ bronzeThreshold s → t ≠ 1).
Proof.
  unfold _determineTier. cbv zeta.
  split; [|split; [|split; [|split]]].
  - repeat match goal with
    | |- context [if ?a <=? n then _ else _] => destruct (a <=? n); [lia|]
    end. lia.
  - repeat match goal with
    | |- context [if ?a <=? n then _ else _] =>
        destruct (a <=? n) eqn:?;
        [right; eexists; split; [reflexivity|unbool; done]|]
    end.
    by left.
  - intros k th Hk Hth.
    destruct (threshold_Some _ _ _ Hth) as [->|[->|[->|[->|[->|[->| ->]]]]]];
      simpl in Hth; injection Hth as <-;
      repeat match goal with
      | H : context [if ?a <=? n then _ else _] |- _ =>
          destruct (a <=? n) eqn:?
      end; unbool; lia.
  - intros m Hm. by apply determineTier_mono.
  - intros Hsb.
    repeat match goal with
    | |- context [if ?a <=? n then _ else _] => destruct (a <=? n) eqn:?
    end; unbool; lia.
Qed.

Lemma X7_highest_reached_tier_witness :
  _determineTier
    (set_thresholds 10 5 50 100 250 500 1000 (deploy 1 0)) 12 = 2
  ∧ ∀ m, 12 ≤ m →
      2 ≤ _determineTier
            (set_thresholds 10 5 50 100 250 500 1000 (deploy 1 0)) m.
Proof.
  split; [reflexivity|].
  destruct (X7_highest_reached_tier
              (set_thresholds 10 5 50 100 250 500 1000 (deploy 1 0)) 12)
    as (_ & _ & _ & Hmono & _).
  exact Hmono.
Defined.

Lemma ratchet_le (x y : N) : x ≤ y → (if x <? y then y else x) = y.
Proof. intros H. destruct (x <? y) eqn:Hlt; [done|]. unbool. lia. Qed.

Lemma tier_le7_transact s ce :
  (∀ a, badgeTier (userStats s a) ≤ 7) →
  ∀ a, badgeTier (userStats (transact s ce) a) ≤ 7.
Proof.
  intros Hle. unfold transact.
  destruct (dispatch ce.1 ce.2 s) as [err|[[] s']] eqn:H; [done|].
  destruct ce as [c e]. simpl in H.
  assert (∀ up, dispatch (action up) e s = inr (tt, s') →
                ∀ a, badgeTier (userStats s' a) ≤ 7) as Hact.
  { intros up Hup a. apply action_badge in Hup as (Hb & _). rewrite Hb.
    destruct (_ && _); [apply determineTier_le7|apply Hle]. }
  destruct c; [by apply (Hact true)|by apply (Hact false)|..];
    by apply owner_call_inv in H as [_ ->].
Qed.

Lemma tier_sync_transact s ce :
  lb_inv s →
  is_setBadgeThresholds ce.1 = false →
  default_thresholds s
  ∧ (∀ a, badgeTier (userStats s a)
          = _determineTier s (increments (userStats s a))) →
  default_thresholds (transact s ce)
  ∧ (∀ a, badgeTier (userStats (transact s ce) a)
          = _determineTier (transact s ce)
              (increments (userStats (transact s ce) a))).
Proof.
  intros Hinv Hc [Hdef Hsync]. unfold transact.
  destruct (dispatch ce.1 ce.2 s) as [err|[[] s']] eqn:H; [done|].
  destruct ce as [c e]. simpl in H, Hc.
  assert (∀ up, dispatch (action up) e s = inr (tt, s') →
    default_thresholds s'
    ∧ (∀ a, badgeTier (userStats s' a)
            = _determineTier s' (increments (userStats s' a)))) as Hact.
  { intros up Hup.
    pose proof (action_badge _ _ _ _ Hup) as (Hb & _ & _ & _ & Hth).
    apply action_effect in Hup as (_ & _ & Hinc & _); [|by destruct Hinv].
    split.
    { unfold default_thresholds.
      destruct Hth as (-> & -> & -> & -> & -> & -> & ->). exact Hdef. }
    intros a. rewrite (determineTier_same s s' _ Hth), Hb, Hinc.
    destruct (a =? msg_sender e) eqn:Ha; simpl; [|apply Hsync].
    unbool. subst a. rewrite Hsync.
    set (u := msg_sender e).
    assert (_determineTier s (increments (userStats s u))
            ≤ _determineTier s (if up then increments (userStats s u) + 1
                                else increments (userStats s u))) as Hmono.
    { apply determineTier_mono. destruct up; lia. }
    destruct up; simpl in *; by apply ratchet_le. }
  destruct c; [by apply (Hact true)|by apply (Hact false)|..]; try done;
    by apply owner_call_inv in H as [_ ->].
Qed.

(** X6: the stored tier of an address is never above 7; and as long as the
    owner has not called [setBadgeThresholds] since deployment, the stored
    tier of every address is the tier of its current increments count under
    the deployed thresholds. *)
Theorem X6_stored_tier_is_current (deployer : address) (f : N)
    (calls : list (Call * Env)) (a : address) :
  let s := run (deploy deployer f) calls in
  badgeTier (userStats s a) ≤ 7
  ∧ (forallb (λ ce, negb (is_setBadgeThresholds ce.1)) calls = true →
     default_thresholds s
     ∧ badgeTier (userStats s a)
       = _determineTier s (increments (userStats s a))).
Proof.
  assert (∀ s0, reachable s0 → (∀ a, badgeTier (userStats s0 a) ≤ 7) →
    (∀ a, badgeTier (userStats (run s0 calls) a) ≤ 7)
    ∧ (forallb (λ ce, negb (is_setBadgeThresholds ce.1)) calls = true →
       default_thresholds s0
       ∧ (∀ a, badgeTier (userStats s0 a)
               = _determineTier s0 (increments (userStats s0 a))) →
       default_thresholds (run s0 calls)
       ∧ (∀ a, badgeTier (userStats (run s0 calls) a)
               = _determineTier (run s0 calls)
                   (increments (userStats (run s0 calls) a))))) as Hgen.
  { induction calls as [|ce calls IH]; intros s0 Hr Hle; [done|].
    simpl.
    destruct (IH (transact s0 ce)) as [IH1 IH2];
      [by constructor|by apply tier_le7_transact|].
    split; [done|].
    intros [Hce Hall]%andb_true_iff Hsync. apply IH2; [done|].
    apply tier_sync_transact; [by apply lb_inv_reachable| |done].
    by apply negb_true_iff in Hce. }
  intros s.
  destruct (Hgen (deploy deployer f)) as [H1 H2]; [constructor|done|].
  split; [apply H1|]. intros Hall.
  destruct H2 as [Hdef Hsync]; [done|split; [by repeat split|done]|].
  split; [done|apply Hsync].
Qed.

Lemma X6_stored_tier_witness :
  badgeTier (userStats (increments_by_7 10) 7)
  = _determineTier (increments_by_7 10)
      (increments (userStats (increments_by_7 10) 7)).
Proof.
  destruct (X6_stored_tier_is_current 1 0
              (map (λ i, (Increment, mkEnv 7 0 (3600 * N.of_nat i) true true))
                   (seq 1 10)) 7) as [_ H].
  destruct H as [_ Hs]; [vm_compute; reflexivity|]. exact Hs.
Defined.

(** ** Calls that cannot abort *)

Lemma bind_checked_add {B} a b (k : N → M B) s :
  a + b ≤ MAX_UINT256 → bind (checked_add a b) k s = k (a + b) s.
Proof.
  intros H. unfold bind, checked_add. apply N.leb_le in H. by rewrite H.
Qed.

Lemma bind_checked_sub {B} a b (k : N → M B) s :
  b ≤ a → bind (checked_sub a b) k s = k (a - b) s.
Proof.
  intros H. unfold bind, checked_sub. apply N.leb_le in H. by rewrite H.
Qed.

Lemma bind_require {B} b r (k : unit → M B) s :
  b = true → bind (require b r) k s = k tt s.
Proof. by intros ->. Qed.

Lemma badge_succeeds e u s :
  u ≠ 0 →
  receiver_accepts e = true →
  nextTokenId s + 1 ≤ MAX_UINT256 →
  _owners s (nextTokenId s) = 0 →
  ∃ s', _assignOrUpdateBadge e u s = inr (tt, s').
Proof.
  intros Hu Hrecv Hnext Hfresh.
  unfold _assignOrUpdateBadge, modify_userStats, emit. msimp.
  destruct (_ <? _); [|by eexists].
  msimp. cbn [userTokenId set_userStats].
  destruct (userTokenId s u =? 0).
  - match goal with |- ∃ s', bind ?m ?k ?s1 = _ =>
      assert (∃ s2, m s1 = inr (tt, s2)) as [s2 Hs2]
    end.
    { msimp. cbn [nextTokenId set_userStats].
      rewrite bind_checked_add by done. msimp.
      match goal with |- ∃ s', bind ?m ?k ?s1 = _ =>
        assert (∃ s3, m s1 = inr (tt, s3)) as [s3 Hs3]
      end.
      { unfold _safeMint, emit.
        rewrite bind_require by (apply negb_true_iff; by apply N.eqb_neq).
        msimp. cbn [_owners set_nextTokenId set_userStats].
        rewrite bind_require by (by apply N.eqb_eq).
        msimp. unfold require. rewrite Hrecv. by eexists. }
      rewrite (bind_ok _ _ _ _ _ Hs3). by eexists. }
    rewrite (bind_ok _ _ _ _ _ Hs2). msimp. by eexists.
  - msimp. by eexists.
Qed.

Lemma action_succeeds_free (up : bool) e s :
  lb_inv s → _owners s (nextTokenId s) = 0 →
  msg_value e = fee s →
  lastActionTime (userStats s (msg_sender e)) + COOLDOWN_SECONDS
  ≤ block_timestamp e →
  block_timestamp e ≤ MAX_UINT256 →
  msg_sender e ≠ 0 →
  owner_accepts e = true →
  receiver_accepts e = true →
  incrementCount s (msg_sender e) < MAX_UINT256 →
  nextTokenId s < MAX_UINT256 →
  (if up then count s < MAX_UINT256 else 0 < count s) →
  ∃ s', dispatch (action up) e s = inr (tt, s').
Proof.
  intros Hinv Htok Hfee Hcd Hmax Hu Hown Hrecv Hic Hnext Hcount.
  set (u := msg_sender e) in *.
  pose proof (lb_actions s Hinv u) as Hact.
  set (s1 := pre_update up u s).
  destruct (update_spec u s1 (leaderboard s)) as (E' & _ & Hup).
  { simpl. by rewrite leaderboard_fst; [|apply (lb_lengths s Hinv)]. }
  { simpl. by rewrite leaderboard_snd; [|apply (lb_lengths s Hinv)]. }
  set (s2 := with_board (E'.*1) (E'.*2) s1) in *.
  destruct (badge_succeeds e u (stats_bumped up u s2)) as [s4 Hbadge];
    [done|done|simpl; lia| |].
  { simpl. exact Htok. }
  destruct up; simpl in Hcount |- *;
    unfold increment, decrement; rewrite onlyPaid_paid by done;
    unfold timeLocked;
    rewrite (bind_ok _ _ _ _ _ (timeLocked_check_ok e s Hcd Hmax));
    unfold modify_userStats, transfer_to_owner, emit.
  - rewrite (bind_ok _ _ s tt
      (add_event (CounterChanged u 1 (count s4)) s4)); [by eexists|].
    msimp. rewrite bind_checked_add by lia. msimp.
    cbn [incrementCount set_count]. fold u.
    rewrite bind_checked_add by lia. msimp. fold s1.
    rewrite (bind_ok _ _ _ _ _ Hup). msimp.
    rewrite bind_checked_add by (simpl; fold u; lia). msimp.
    rewrite (bind_ok _ _ _ _ _ Hbadge).
    rewrite bind_require by done. by msimp.
  - rewrite (bind_ok _ _ s tt
      (add_event (CounterChanged u (-1) (count s4)) s4)); [by eexists|].
    msimp. rewrite bind_require by (by apply N.ltb_lt).
    rewrite bind_checked_sub by lia. msimp.
    cbn [incrementCount set_count]. fold u.
    rewrite bind_checked_add by lia. msimp. fold s1.
    rewrite (bind_ok _ _ _ _ _ Hup). msimp.
    rewrite bind_checked_add by (simpl; fold u; lia). msimp.
    rewrite (bind_ok _ _ _ _ _ Hbadge).
    rewrite bind_require by done. by msimp.
Qed.

Lemma action_succeeds (up : bool) e s :
  lb_inv s → token_inv s →
  msg_value e = fee s →
  lastActionTime (userStats s (msg_sender e)) + COOLDOWN_SECONDS
  ≤ block_timestamp e →
  block_timestamp e ≤ MAX_UINT256 →
  msg_sender e ≠ 0 →
  owner_accepts e = true →
  receiver_accepts e = true →
  incrementCount s (msg_sender e) < MAX_UINT256 →
  nextTokenId s < MAX_UINT256 →
  (if up then count s < MAX_UINT256 else 0 < count s) →
  ∃ s', dispatch (action up) e s = inr (tt, s').
Proof.
  intros Hinv Htok. apply action_succeeds_free; [done|].
  destruct (decide (_owners s (nextTokenId s) = 0)) as [|Hne]; [done|].
  apply (tk_exists s Htok) in Hne. lia.
Qed.

(** *** Which errors the function bodies can end with *)



















(** X8: in a reachable state an [increment] or [decrement] succeeds whenever
    the payment is exact, the cooldown has passed, the owner accepts the fee,
    the caller accepts a token, and no counter is at the top of its range
    (for [decrement]: the counter is not 0).  In particular the leaderboard
    maintenance never aborts a call. *)
Theorem X8_actions_succeed (s : State) (e : Env) :
  reachable s →
  msg_value e = fee s →
  lastActionTime (userStats s (msg_sender e)) + COOLDOWN_SECONDS
  ≤ block_timestamp e →
  block_timestamp e ≤ MAX_UINT256 →
  msg_sender e ≠ 0 →
  owner_accepts e = true →
  receiver_accepts e = true →
  incrementCount s (msg_sender e) < MAX_UINT256 →
  nextTokenId s < MAX_UINT256 →
  (count s < MAX_UINT256 → ∃ s', increment e s = inr (tt, s'))
  ∧ (0 < count s → ∃ s', decrement e s = inr (tt, s')).
Proof.
  intros Hr Hfee Hcd Hmax Hu Hown Hrecv Hic Hnext.
  pose proof (lb_inv_reachable s Hr) as Hinv.
  pose proof (token_inv_reachable s Hr) as Htok.
  split; intros Hc.
  - by apply (action_succeeds true e s).
  - by apply (action_succeeds false e s).
Qed.

Lemma X8_actions_succeed_witness :
  (∃ s', increment (mkEnv 7 0 36000 true true) (increments_by_7 9)
         = inr (tt, s'))
  ∧ (∃ s', decrement (mkEnv 7 0 36000 true true) (increments_by_7 9)
           = inr (tt, s')).
Proof.
  destruct (X8_actions_succeed (increments_by_7 9) (mkEnv 7 0 36000 true true))
    as [Hi Hd].
  - apply reachable_run, reachable_deploy.
  - reflexivity.
  - vm_compute. by intros [=].
  - vm_compute. by intros [=].
  - vm_compute. by intros [=].
  - reflexivity.
  - reflexivity.
  - vm_compute. reflexivity.
  - vm_compute. reflexivity.
  - split; [apply Hi|apply Hd]; vm_compute; reflexivity.
Defined.

(** ** Token metadata *)

Lemma elem_of_minted (n t : N) :
  t ∈ map N.of_nat (seq 1 (N.to_nat n - 1)) ↔ 1 ≤ t < n.
Proof.
  rewrite list_elem_of_fmap. split.
  - intros (i & -> & Hi). apply elem_of_seq in Hi. lia.
  - intros Ht. exists (N.to_nat t). split; [lia|]. apply elem_of_seq. lia.
Qed.

Lemma tier_le7_reachable s a : reachable s → badgeTier (userStats s a) ≤ 7.
Proof.
  intros Hr. revert a.
  induction Hr as [|s ce Hr IH]; [simpl; lia|by apply tier_le7_transact].
Qed.

Section metadata_facts.
Variable Strings_toString : N → string.
Variable Base64_encode : string → string.

(** X9: in a reachable state [tokenURI] aborts with "ERC721Metadata:
    nonexistent token" exactly for the ids that were never minted (0 and
    the ids from nextTokenId on), and returns a data URI for every minted
    id. *)
Theorem X9_tokenURI_of_minted_ids (s : State) (tokenId : N) :
  reachable s →
  (tokenURI Strings_toString Base64_encode s tokenId
   = inl (Revert "ERC721Metadata: nonexistent token")
   ↔ tokenId ∉ all_minted (events s))
  ∧ (tokenId ∈ all_minted (events s) ↔ 1 ≤ tokenId < nextTokenId s)
  ∧ (tokenId ∈ all_minted (events s) →
     ∃ json, tokenURI Strings_toString Base64_encode s tokenId
             = inr ("data:application/json;base64," +:+ Base64_encode json)).
Proof.
  intros Hr. pose proof (token_inv_reachable s Hr) as [Hn Hm Hex _].
  assert (tokenId ∈ all_minted (events s) ↔ _owners s tokenId ≠ 0) as Hin.
  { by rewrite Hm, elem_of_minted, Hex. }
  split; [|split].
  - rewrite Hin. unfold tokenURI.
    destruct (_owners s tokenId =? 0) eqn:Ho; unbool.
    + split; [intros _ Hne; by apply Hne|done].
    + split; [done|]. intros Hne. by destruct Hne.
  - by rewrite Hm, elem_of_minted.
  - intros Ht. apply Hin in Ht. unfold tokenURI.
    apply N.eqb_neq in Ht. rewrite Ht. by eexists.
Qed.

End metadata_facts.

Lemma X9_tokenURI_witness :
  (∃ json, tokenURI (λ _, "10") (λ x, x) (increments_by_7 10) 1
           = inr ("data:application/json;base64," +:+ json))
  ∧ tokenURI (λ _, "10") (λ x, x) (increments_by_7 10) 2
    = inl (Revert "ERC721Metadata: nonexistent token").
Proof.
  split.
  - destruct (X9_tokenURI_of_minted_ids (λ _, "10") (λ x, x)
                (increments_by_7 10) 1) as (_ & _ & Hok).
    { apply reachable_run, reachable_deploy. }
    apply Hok. vm_compute. by left.
  - destruct (X9_tokenURI_of_minted_ids (λ _, "10") (λ x, x)
                (increments_by_7 10) 2) as (Hrev & _ & _).
    { apply reachable_run, reachable_deploy. }
    apply Hrev. vm_compute. intros H.
    apply elem_of_cons in H as [H|H]; [done|]. by apply elem_of_nil in H.
Defined.

Lemma tier_cases (t : N) :
  t ≤ 7 → t = 0 ∨ t = 1 ∨ t = 2 ∨ t = 3 ∨ t = 4 ∨ t = 5 ∨ t = 6 ∨ t = 7.
Proof. lia. Qed.

(** X10: in a reachable state the stored tier of an address renders as a
    named badge (not "No Badge", not gray, not the empty name) exactly when
    the address has minted its token; and two different tiers up to 7 never
    share a text, a colour or a name. *)
Theorem X10_tier_rendering (s : State) (a : address) :
  reachable s →
  let t := badgeTier (userStats s a) in
  (userTokenId s a ≠ 0 ↔ _tierText t ≠ "No Badge")
  ∧ (userTokenId s a ≠ 0 ↔ _tierColor t ≠ "gray")
  ∧ (userTokenId s a ≠ 0 ↔ badgeNames t ≠ EmptyString)
  ∧ (∀ t1 t2, t1 ≤ 7 → t2 ≤ 7 →
       _tierText t1 = _tierText t2 ∨ _tierColor t1 = _tierColor t2
       ∨ badgeNames t1 = badgeNames t2 →
       t1 = t2).
Proof.
  intros Hr t.
  pose proof (tok_tier s (badge_ok_reachable s Hr) a) as Htok. fold t in Htok.
  pose proof (tier_le7_reachable s a Hr) as Hle. fold t in Hle.
  assert (∀ f : N → string, f 0 ≠ f 1 → f 0 ≠ f 2 → f 0 ≠ f 3 → f 0 ≠ f 4 →
            f 0 ≠ f 5 → f 0 ≠ f 6 → f 0 ≠ f 7 →
            (userTokenId s a ≠ 0 ↔ f t ≠ f 0)) as Hgen.
  { intros f H1 H2 H3 H4 H5 H6 H7. rewrite Htok.
    destruct (tier_cases t Hle) as [->|[->|[->|[->|[->|[->|[->| ->]]]]]]];
      split; try done; intros _; try lia; by apply not_eq_sym. }
  split; [by apply (Hgen _tierText)|].
  split; [by apply (Hgen _tierColor)|].
  split; [by apply (Hgen badgeNames)|].
  intros t1 t2 H1 H2 Heq.
  destruct (tier_cases t1 H1) as [->|[->|[->|[->|[->|[->|[->| ->]]]]]]];
    destruct (tier_cases t2 H2) as [->|[->|[->|[->|[->|[->|[->| ->]]]]]]];
    try done; by destruct Heq as [?|[?|?]].
Qed.

Lemma X10_tier_rendering_witness :
  _tierText (badgeTier (userStats (increments_by_7 10) 7)) ≠ "No Badge".
Proof.
  destruct (X10_tier_rendering (increments_by_7 10) 7) as (Htext & _).
  { apply reachable_run, reachable_deploy. }
  apply Htext. vm_compute. by intros [=].
Defined.

End LedgerMore.

(** * Calls from inside a mint *)

Module Reentrancy.
Import Contract ContractViews Ledger.

Lemma CallTree_ind (P : Reentrant.CallTree → Prop) :
  (∀ c e inner, Forall P inner → P (Reentrant.ContractCall c e inner)) →
  (∀ to tokenId, P (Reentrant.TransferFrom to tokenId)) →
  (∀ e newOwner, P (Reentrant.TransferOwnership e newOwner)) →
  ∀ t, P t.
Proof.
  intros Hc Ht Ho. fix IH 1. intros [c e inner|to tok|e o]; [|apply Ht|apply Ho].
  apply Hc. induction inner as [|t inner IHl]; constructor; [apply IH|exact IHl].
Qed.

(** With a receiver that makes no calls the functions are those of
    [Contract]. *)
Lemma passive_receiver c e s :
  Reentrant.dispatch (ret tt) c e s = dispatch c e s.
Proof. by destruct c. Qed.

Lemma passive_transact c e s :
  Reentrant.transact s (Reentrant.ContractCall c e []) = transact s (c, e).
Proof.
  unfold Reentrant.transact, transact. simpl.
  assert (Reentrant.at_time (block_timestamp e) e = e) as -> by (by destruct e).
  change (λ s1 : State, inr (tt, s1)) with (ret (A:=unit) tt).
  rewrite passive_receiver. unfold Reentrant.commit.
  by destruct (dispatch c e s) as [|[[] ?]].
Qed.

Lemma reachable_calls s ts :
  Reentrant.reachable s → Reentrant.reachable (Reentrant.run s ts).
Proof.
  revert s. induction ts as [|t ts IH]; intros s Hr; [done|].
  simpl. apply IH. by constructor.
Qed.

(** What receivers that do not call back can reach, receivers that call
    back can reach too. *)
Lemma reachable_passive s : reachable s → Reentrant.reachable s.
Proof.
  induction 1 as [d f|s [c e] _ IH]; [constructor|].
  rewrite <- passive_transact. by constructor.
Qed.

(** *** Inversion of a successful call with a hook *)

Lemma badge_inv_hook hook e u s s' :
  Reentrant._assignOrUpdateBadge hook e u s = inr (tt, s') →
  let tier := _determineTier s (increments (userStats s u)) in
  let stored := badgeTier (userStats s u) in
  let s1 := set_userStats
              (upd (userStats s) u (set_badgeTier tier (userStats s u))) s in
  (tier ≤ stored ∧ s' = s)
  ∨ (stored < tier ∧ userTokenId s u ≠ 0
     ∧ s' = add_event (BadgeAssigned u (userTokenId s u) tier) s1)
  ∨ (stored < tier ∧ userTokenId s u = 0
     ∧ u ≠ 0 ∧ receiver_accepts e = true
     ∧ nextTokenId s + 1 ≤ MAX_UINT256
     ∧ ∃ sh, hook (Reentrant.hook_start tier u s) = inr (tt, sh)
             ∧ s' = Reentrant.hook_end tier u (nextTokenId s) sh).
Proof.
  unfold Reentrant._assignOrUpdateBadge, Reentrant._safeMint, modify_userStats, emit.
  intros H. minv H; unbool.
  - right. right. cbn in *.
    repeat match goal with a : unit |- _ => destruct a end.
    do 5 (split; [done|]). eexists. split; [eassumption|].
    unfold Reentrant.hook_end. cbn. by rewrite upd_same.
  - right. left. done.
  - by left.
Qed.

Lemma action_inv_hook hook up e s s' :
  Reentrant.dispatch hook (action up) e s = inr (tt, s') →
  msg_value e = fee s
  ∧ lastActionTime (userStats s (msg_sender e)) + COOLDOWN_SECONDS
    ≤ block_timestamp e
  ∧ ∃ s2 s4,
      _updateTopLeaderboard (msg_sender e) (pre_update up (msg_sender e) s)
      = inr (tt, s2)
      ∧ Reentrant._assignOrUpdateBadge hook e (msg_sender e)
          (stats_bumped up (msg_sender e) s2)
        = inr (tt, s4)
      ∧ s' = finish up e s4.
Proof.
  destruct up; simpl;
    unfold Reentrant.increment, Reentrant.decrement, onlyPaid, timeLocked,
      timeLocked_check, transfer_to_owner, modify_userStats, emit;
    intros H; minv H; unbool;
    repeat match goal with a : unit |- _ => destruct a end;
    (split; [done|]); (split; [done|]); eauto.
Qed.

(** *** What the counter actions leave alone *)

Lemma action_untouched {A} (g : State → A) hook up e s s' :
  Reentrant.untouched g →
  (∀ x y, hook x = inr (tt, y) → g y = g x) →
  Reentrant.dispatch hook (action up) e s = inr (tt, s') →
  g s' = g s.
Proof.
  intros (Hcount & Hic & Hboard & Hstats & Hnext & Hown & Htok & Hev) Hhook H.
  apply action_inv_hook in H as (_ & _ & s2 & s4 & Hup & Hbadge & ->).
  apply update_board_only in Hup. unfold board_only in Hup.
  assert (g s2 = g s) as H2.
  { rewrite Hup, Hboard. unfold pre_update. by rewrite Hic, Hcount. }
  assert (g (stats_bumped up (msg_sender e) s2) = g s) as H3.
  { unfold stats_bumped. by rewrite Hstats. }
  assert (g s4 = g s) as H4.
  { apply badge_inv_hook in Hbadge
      as [[_ ->]|[(_ & _ & ->)|(_ & _ & _ & _ & _ & sh & Hh & ->)]].
    - done.
    - by rewrite Hev, Hstats.
    - unfold Reentrant.hook_end. rewrite Hev, Htok, (Hhook _ _ Hh).
      unfold Reentrant.hook_start. by rewrite Hev, Hown, Hnext, Hstats. }
  unfold finish. cbv zeta. by rewrite Hstats, Hev.
Qed.

Lemma untouched_fee : Reentrant.untouched fee.
Proof. by repeat split. Qed.

Lemma untouched_thresholds : Reentrant.untouched Reentrant.thresholds.
Proof. by repeat split. Qed.

Lemma untouched_owner : Reentrant.untouched owner.
Proof. by repeat split. Qed.

Lemma foldl_keeps {A} (g : State → A) (f : State → Reentrant.CallTree → State)
    (ts : list Reentrant.CallTree) s :
  Forall (λ t, ∀ x, g (f x t) = g x) ts → g (foldl f s ts) = g s.
Proof.
  revert s. induction ts as [|t ts IH]; intros s Hts; [done|].
  apply Forall_cons in Hts as [Ht Hts]. simpl. by rewrite IH, Ht.
Qed.

Lemma commit_keeps {A} (g : State → A) s r :
  (∀ s', r = inr (tt, s') → g s' = g s) → g (Reentrant.commit s r) = g s.
Proof. intros H. destruct r as [|[[] s']]; [done|]. by apply H. Qed.

(** A part of the storage that the counter actions leave alone and that the
    inherited functions leave alone changes only in a call tree that
    mentions a call of one of the other functions. *)
Lemma tree_keeps {A} (g : State → A) (writes : Call → bool) t :
  Reentrant.untouched g →
  (∀ v s, g (Reentrant.set_owner v s) = g s) →
  (∀ c e s s', is_owner_call c = true → writes c = false →
               dispatch c e s = inr (tt, s') → g s' = g s) →
  Reentrant.mentions writes t = false →
  ∀ ts s, g (Reentrant.transact_at ts s t) = g s.
Proof.
  intros Hg Hso Hother. induction t as [c e inner IH|to tok|e o] using CallTree_ind;
    intros Hm ts s; simpl in *.
  - apply orb_false_iff in Hm as [Hc Hinner].
    apply commit_keeps. intros s' H.
    assert (∀ x y, (λ s1 : State,
                      inr (tt, foldl (Reentrant.transact_at ts) s1 inner)
                      : Error + unit * State) x = inr (tt, y) →
                   g y = g x) as Hhook.
    { intros x y [= <-]. apply foldl_keeps.
      rewrite Forall_forall in IH. apply Forall_forall. intros t Ht x'.
      apply IH; [done|].
      destruct (Reentrant.mentions writes t) eqn:Hmt; [|done].
      assert (existsb (Reentrant.mentions writes) inner = true) as Hex; [|congruence].
      apply existsb_exists. exists t. split; [|done].
      by apply list_elem_of_In. }
    destruct c.
    + exact (action_untouched g _ true _ s s' Hg Hhook H).
    + exact (action_untouched g _ false _ s s' Hg Hhook H).
    + by apply (Hother (SetFee _newFee) (Reentrant.at_time ts e)).
    + by apply (Hother (ResetCounter _newValue) (Reentrant.at_time ts e)).
    + by apply (Hother (SetBadgeThresholds bronze silver gold platinum diamond master legendary)
                  (Reentrant.at_time ts e)).
  - apply commit_keeps. intros s' H.
    destruct Hg as (_ & _ & _ & _ & _ & Hown & _ & Hev).
    unfold Reentrant.transferFrom, emit in H. minv H. by rewrite Hev, Hown.
  - apply commit_keeps. intros s' H.
    unfold Reentrant.transferOwnership, nonPayable, onlyOwner in H. minv H.
    apply Hso.
Qed.

(** C3: the claim fails for a receiver that calls back.  The owner has set the
    thresholds 1, 2, ..., 7.  Address 7, a contract, calls [increment]; the
    mint of its first badge calls its [onERC721Received], which calls
    [increment] again.  The cooldown does not stop the second call
    ([lastActionTime] is written when the first call ends) and the check
    [userTokenId[user] == 0] does not stop a second mint ([userTokenId] is
    written after [_safeMint] returns): tokens 1 and 2 are minted for address
    7 in one transaction, the second one when its tier goes from 1 to 2.
    The same call made by a receiver that does not call back mints one
    token. *)
Theorem C3_receiver_calling_back_is_minted_two_tokens :
  let s := Reentrant.transact Reentrant.adjacent_thresholds
             Reentrant.increment_twice_in_one in
  Reentrant.reachable s
  ∧ events s
    = [BadgeThresholdsUpdated;
       Transfer 0 7 1; Transfer 0 7 2;
       BadgeAssigned 7 2 2; CounterChanged 7 1 2;
       BadgeAssigned 7 1 1; CounterChanged 7 1 2]
  ∧ minted_tokens 7 (events s) = [1; 2]
  ∧ _owners s 1 = 7 ∧ _owners s 2 = 7
  ∧ userTokenId s 7 = 1
  ∧ badgeTier (userStats s 7) = 2
  ∧ minted_tokens 7
      (events (transact Reentrant.adjacent_thresholds
                 (Increment, mkEnv 7 0 3600 true true)))
    = [1].
Proof.
  cbv zeta. split.
  { do 2 apply Reentrant.reachable_step. apply Reentrant.reachable_deploy. }
  by vm_compute.
Qed.

(** ** Owner functions *)

Lemma at_own_time e : Reentrant.at_time (block_timestamp e) e = e.
Proof. by destruct e. Qed.

Lemma owner_dispatch hook c e :
  is_owner_call c = true → Reentrant.dispatch hook c e = dispatch c e.
Proof. destruct c; intros H; try discriminate H; reflexivity. Qed.

(** X3: the fee changes only in a transaction in which [setFee] is called,
    and the thresholds only in one in which [setBadgeThresholds] is called,
    at the top or from inside a mint; a call of [setFee], [resetCounter] or
    [setBadgeThresholds] by anyone but the owner, or with value attached,
    aborts wherever it is made, and at the top level leaves the storage as it
    was; and an owner function called at the top level touches neither the
    leaderboard nor the statistics or the token of any address. *)
Theorem X3_owner_functions (s : State) (t : Reentrant.CallTree) :
  let s' := Reentrant.transact s t in
  (fee s' ≠ fee s → Reentrant.mentions Reentrant.is_setFee t = true)
  ∧ (¬ same_thresholds s s' →
     Reentrant.mentions is_setBadgeThresholds t = true)
  ∧ (∀ hook c e x, is_owner_call c = true →
       msg_sender e ≠ owner x ∨ msg_value e ≠ 0 →
       ∃ err, Reentrant.dispatch hook c e x = inl err)
  ∧ (∀ c e inner, t = Reentrant.ContractCall c e inner →
       is_owner_call c = true →
       (msg_sender e ≠ owner s ∨ msg_value e ≠ 0 → s' = s)
       ∧ topAddresses s' = topAddresses s
       ∧ topCounts s' = topCounts s
       ∧ incrementCount s' = incrementCount s
       ∧ userStats s' = userStats s
       ∧ userTokenId s' = userTokenId s).
Proof.
  intros s'. split; [|split; [|split]].
  - intros Hne. destruct (Reentrant.mentions Reentrant.is_setFee t) eqn:Hm; [done|].
    destruct Hne. unfold s', Reentrant.transact.
    apply (tree_keeps fee Reentrant.is_setFee t untouched_fee); [done| |done].
    intros c e x x' Hc Hw H. apply owner_call_inv in H.
    destruct c; try done; by destruct H as [_ ->].
  - intros Hne. destruct (Reentrant.mentions is_setBadgeThresholds t) eqn:Hm; [done|].
    destruct Hne.
    assert (Reentrant.thresholds s' = Reentrant.thresholds s) as Heq.
    { unfold s', Reentrant.transact.
      apply (tree_keeps Reentrant.thresholds is_setBadgeThresholds t
               untouched_thresholds); [done| |done].
      intros c e x x' Hc Hw H. apply owner_call_inv in H.
      destruct c; try done; by destruct H as [_ ->]. }
    unfold Reentrant.thresholds in Heq. injection Heq as H1 H2 H3 H4 H5 H6 H7.
    by repeat split.
  - intros hook c e x Hc Hbad. rewrite (owner_dispatch hook c e Hc).
    by apply LedgerMore.owner_call_rejected.
  - intros c e inner -> Hc. unfold s', Reentrant.transact. simpl.
    rewrite at_own_time, (owner_dispatch _ c e Hc).
    split.
    + intros Hbad.
      destruct (LedgerMore.owner_call_rejected c e s Hc Hbad) as [err ->]. done.
    + destruct (dispatch c e s) as [err|[[] s1]] eqn:H; [done|]. simpl.
      apply owner_call_inv in H. destruct c; try done; by destruct H as [_ ->].
Qed.

Lemma X3_owner_functions_witness :
  Reentrant.transact (crowd 3)
    (Reentrant.ContractCall (SetFee 5) (mkEnv 7 0 9000 true true) [])
  = crowd 3
  ∧ topCounts
      (Reentrant.transact (crowd 3)
         (Reentrant.ContractCall (ResetCounter 0) (mkEnv 100 0 9000 true true) []))
    = topCounts (crowd 3)
  ∧ ∃ err, Reentrant.dispatch (ret tt) (SetFee 5) (mkEnv 7 0 9000 true true)
             Reentrant.adjacent_thresholds
           = inl err.
Proof.
  split; [|split].
  - destruct (X3_owner_functions (crowd 3)
                (Reentrant.ContractCall (SetFee 5) (mkEnv 7 0 9000 true true) []))
      as (_ & _ & _ & Htop).
    destruct (Htop (SetFee 5) (mkEnv 7 0 9000 true true) [] eq_refl eq_refl)
      as [Hrej _].
    apply Hrej. left. vm_compute. by intros [=].
  - destruct (X3_owner_functions (crowd 3)
                (Reentrant.ContractCall (ResetCounter 0)
                   (mkEnv 100 0 9000 true true) []))
      as (_ & _ & _ & Htop).
    destruct (Htop (ResetCounter 0) (mkEnv 100 0 9000 true true) [] eq_refl eq_refl)
      as (_ & _ & HC & _).
    exact HC.
  - destruct (X3_owner_functions (crowd 3) (Reentrant.TransferFrom 1 1))
      as (_ & _ & Hrej & _).
    apply Hrej; [reflexivity|]. left. vm_compute. by intros [=].
Defined.

(** ** The counter in the event log *)

(** X4: in every state reached by calls, calls from inside a mint and token
    transfers included, the counter is the value carried by the last
    [CounterChanged] or [CounterReset] event of the log (0 when there is
    none); a successful [increment] or [decrement] ends the log with
    [CounterChanged(caller, +1 or -1, counter)], whatever its receiver did;
    and when the receiver makes no call, the counter has moved by exactly
    1. *)
Theorem X4_counter_in_events (s : State) :
  Reentrant.reachable s →
  default 0 (last_counter (events s)) = count s
  ∧ (∀ hook e s', Reentrant.increment hook e s = inr (tt, s') →
       last (events s') = Some (CounterChanged (msg_sender e) 1 (count s')))
  ∧ (∀ hook e s', Reentrant.decrement hook e s = inr (tt, s') →
       last (events s') = Some (CounterChanged (msg_sender e) (-1) (count s')))
  ∧ (∀ e s', Reentrant.increment (ret tt) e s = inr (tt, s') →
       count s' = count s + 1)
  ∧ (∀ e s', Reentrant.decrement (ret tt) e s = inr (tt, s') →
       count s' + 1 = count s).
Proof.
  assert (∀ hook up e x x',
    Reentrant.dispatch hook (action up) e x = inr (tt, x') →
    last (events x')
    = Some (CounterChanged (msg_sender e) (if up then 1%Z else (-1)%Z) (count x'))
    ∧ default 0 (last_counter (events x')) = count x') as Hact.
  { intros hook up e x x' H.
    apply action_inv_hook in H as (_ & _ & s2 & s4 & _ & _ & ->).
    unfold finish. cbn. by rewrite last_snoc, LedgerMore.last_counter_snoc. }
  intros Hr. split; [|split; [|split; [|split]]].
  - induction Hr as [|s t Hr IH]; [done|].
    unfold Reentrant.transact.
    destruct t as [c e inner|to tok|e o]; simpl.
    + match goal with |- context [Reentrant.dispatch ?h c ?e' s] =>
        destruct (Reentrant.dispatch h c e' s) as [err|[[] s']] eqn:H end;
        [done|]. simpl.
      destruct c;
        [by apply (Hact _ true _ _ _ H)|by apply (Hact _ false _ _ _ H)|..];
        rewrite owner_dispatch in H by done;
        apply owner_call_inv in H as [_ ->]; cbn;
        by rewrite LedgerMore.last_counter_snoc.
    + destruct (Reentrant.transferFrom to tok s) as [err|[[] s']] eqn:H; [done|].
      simpl. unfold Reentrant.transferFrom, emit in H. minv H. cbn.
      by rewrite LedgerMore.last_counter_snoc.
    + destruct (Reentrant.transferOwnership _ o s) as [err|[[] s']] eqn:H; [done|].
      simpl. unfold Reentrant.transferOwnership, nonPayable, onlyOwner in H.
      by minv H.
  - intros hook e s' H. by apply (Hact hook true e s s').
  - intros hook e s' H. by apply (Hact hook false e s s').
  - intros e s' H. change (dispatch (action true) e s = inr (tt, s')) in H.
    by apply LedgerMore.action_log in H as (_ & _ & _ & ->).
  - intros e s' H. change (dispatch (action false) e s = inr (tt, s')) in H.
    pose proof (Ledger.action_inv false e s s' H) as (_ & _ & Hc & _).
    apply LedgerMore.action_log in H as (_ & _ & _ & ->). simpl in Hc. lia.
Qed.

Lemma X4_counter_in_events_witness :
  let s := Reentrant.transact (increments_by_7 9)
             (Reentrant.ContractCall Increment (mkEnv 7 0 36000 true true)
                [Reentrant.ContractCall Increment (mkEnv 7 0 36000 true true) []]) in
  count (increments_by_7 9) = 9
  ∧ count s = 11
  ∧ default 0 (last_counter (events s)) = 11.
Proof.
  cbv zeta. split; [reflexivity|]. split; [by vm_compute|].
  match goal with |- default 0 (last_counter (events ?s)) = _ =>
    destruct (X4_counter_in_events s) as [Hinv _] end.
  { apply Reentrant.reachable_step.
    apply reachable_passive, reachable_run, reachable_deploy. }
  rewrite Hinv. by vm_compute.
Defined.

(** ** Token bookkeeping *)

Lemma tree_invariant (I : State → Prop) :
  (∀ hook up e s s',
     (∀ x y, I x → hook x = inr (tt, y) →
             I y ∧ events x `prefix_of` events y) →
     I s → Reentrant.dispatch hook (action up) e s = inr (tt, s') →
     I s' ∧ events s `prefix_of` events s') →
  (∀ c e s s', is_owner_call c = true → I s → dispatch c e s = inr (tt, s') →
               I s' ∧ events s `prefix_of` events s') →
  (∀ to tok s s', I s → Reentrant.transferFrom to tok s = inr (tt, s') →
                  I s' ∧ events s `prefix_of` events s') →
  (∀ v s, I s → I (Reentrant.set_owner v s)) →
  ∀ t ts s, I s →
    I (Reentrant.transact_at ts s t)
    ∧ events s `prefix_of` events (Reentrant.transact_at ts s t).
Proof.
  intros Hact Hown Htr Hso.
  induction t as [c e inner IH|to tok|e o] using CallTree_ind;
    intros ts s Hs; simpl.
  - match goal with |- context [Reentrant.dispatch ?h c ?e' s] =>
      set (hook := h); destruct (Reentrant.dispatch hook c e' s)
        as [err|[[] s']] eqn:H end; [done|]. simpl.
    assert (∀ x y, I x → hook x = inr (tt, y) →
                   I y ∧ events x `prefix_of` events y) as Hhook.
    { intros x y Hx [= <-]. clear H. revert x Hx.
      induction inner as [|t inner IHl]; intros x Hx; [done|].
      apply Forall_cons in IH as [Ht Hinner]. simpl.
      destruct (Ht ts x Hx) as [Hx1 Hp1].
      destruct (IHl Hinner _ Hx1) as [Hx2 Hp2].
      split; [done|]. by etrans. }
    destruct c.
    + exact (Hact hook true _ s s' Hhook Hs H).
    + exact (Hact hook false _ s s' Hhook Hs H).
    + apply (Hown (SetFee _newFee) (Reentrant.at_time ts e)); done.
    + apply (Hown (ResetCounter _newValue) (Reentrant.at_time ts e)); done.
    + apply (Hown (SetBadgeThresholds bronze silver gold platinum diamond
                     master legendary) (Reentrant.at_time ts e)); done.
  - destruct (Reentrant.transferFrom to tok s) as [err|[[] s']] eqn:H; [done|].
    simpl. by apply (Htr to tok).
  - destruct (Reentrant.transferOwnership _ o s) as [err|[[] s']] eqn:H; [done|].
    simpl. unfold Reentrant.transferOwnership, nonPayable, onlyOwner in H.
    minv H. split; [by apply Hso|done].
Qed.

Lemma minted_elem evs a t : Transfer 0 a t ∈ evs → t ∈ all_minted evs.
Proof.
  intros H. unfold all_minted. apply list_elem_of_omap.
  by exists (Transfer 0 a t).
Qed.

(** The invariant depends on [nextTokenId], [userTokenId] and the log only. *)
Lemma token_log_same s s' :
  nextTokenId s' = nextTokenId s → userTokenId s' = userTokenId s →
  events s' = events s →
  Reentrant.token_log_inv s → Reentrant.token_log_inv s'.
Proof.
  intros Hn Ht He [H1 H2 H3 H4].
  split; rewrite ?Hn, ?Ht, ?He; done.
Qed.

(** An event that is not a mint leaves it in place. *)
Lemma token_log_event ev s :
  (∀ a t, ev ≠ Transfer 0 a t) →
  Reentrant.token_log_inv s → Reentrant.token_log_inv (add_event ev s).
Proof.
  intros Hev [H1 H2 H3 H4]. split; cbn.
  - done.
  - rewrite LedgerMore.all_minted_snoc, H2.
    destruct ev as [| | | | |from to tok]; try by rewrite app_nil_r.
    destruct (from =? 0) eqn:Hf; [|by rewrite app_nil_r].
    apply N.eqb_eq in Hf. subst from. by destruct (Hev to tok).
  - intros a Ha. apply elem_of_app. left. by apply H3.
  - intros a b t Ha Hb.
    apply elem_of_app in Ha as [Ha|Ha]; [|apply elem_of_cons in Ha as [Ha|Ha];
      [by destruct (Hev a t)|by apply elem_of_nil in Ha]].
    apply elem_of_app in Hb as [Hb|Hb]; [|apply elem_of_cons in Hb as [Hb|Hb];
      [by destruct (Hev b t)|by apply elem_of_nil in Hb]].
    by apply (H4 a b t).
Qed.

Lemma token_log_mint tier u s :
  Reentrant.token_log_inv s →
  Reentrant.token_log_inv (Reentrant.hook_start tier u s).
Proof.
  intros [H1 H2 H3 H4]. unfold Reentrant.hook_start. split; cbn.
  - lia.
  - rewrite LedgerMore.all_minted_snoc. simpl.
    by rewrite H2, LedgerMore.seq_next.
  - intros a Ha. apply elem_of_app. left. by apply H3.
  - assert (∀ b, Transfer 0 b (nextTokenId s) ∉ events s) as Hfresh.
    { intros b Hb. apply minted_elem in Hb. rewrite H2 in Hb.
      apply LedgerMore.elem_of_minted in Hb. lia. }
    intros a b t Ha Hb.
    apply elem_of_app in Ha as [Ha|Ha]; apply elem_of_app in Hb as [Hb|Hb].
    + by apply (H4 a b t).
    + apply elem_of_cons in Hb as [Hb|Hb]; [|by apply elem_of_nil in Hb].
      injection Hb as -> ->. by destruct (Hfresh a).
    + apply elem_of_cons in Ha as [Ha|Ha]; [|by apply elem_of_nil in Ha].
      injection Ha as -> ->. by destruct (Hfresh b).
    + apply elem_of_cons in Ha as [Ha|Ha]; [|by apply elem_of_nil in Ha].
      apply elem_of_cons in Hb as [Hb|Hb]; [|by apply elem_of_nil in Hb].
      congruence.
Qed.

Lemma token_log_action hook up e s s' :
  (∀ x y, Reentrant.token_log_inv x → hook x = inr (tt, y) →
          Reentrant.token_log_inv y ∧ events x `prefix_of` events y) →
  Reentrant.token_log_inv s →
  Reentrant.dispatch hook (action up) e s = inr (tt, s') →
  Reentrant.token_log_inv s' ∧ events s `prefix_of` events s'.
Proof.
  intros Hhook Hs H.
  apply action_inv_hook in H as (_ & _ & s2 & s4 & Hup & Hbadge & ->).
  apply update_board_only in Hup. unfold board_only in Hup.
  set (s3 := stats_bumped up (msg_sender e) s2) in *.
  assert (nextTokenId s3 = nextTokenId s ∧ userTokenId s3 = userTokenId s
          ∧ events s3 = events s) as (Hn3 & Ht3 & He3).
  { unfold s3, stats_bumped. cbn. by rewrite Hup. }
  pose proof (token_log_same s s3 Hn3 Ht3 He3 Hs) as H3.
  assert (Reentrant.token_log_inv s4 ∧ events s `prefix_of` events s4) as [H4 He4].
  { rewrite <- He3.
    apply badge_inv_hook in Hbadge
      as [[_ ->]|[(_ & _ & ->)|(_ & Hz & _ & _ & _ & sh & Hh & ->)]].
    - done.
    - split; [|by apply prefix_app_r].
      apply token_log_event; [done|]. by apply (token_log_same s3).
    - destruct (Hhook _ _ (token_log_mint _ _ _ H3) Hh) as [Hsh Hpre].
      unfold Reentrant.hook_end. split.
      + apply token_log_event; [done|].
        destruct Hsh as [T1 T2 T3 T4]. split; cbn; [done|done| |done].
        intros a. unfold upd. destruct (a =? msg_sender e) eqn:Ha.
        * apply N.eqb_eq in Ha. subst a. intros _.
          eapply elem_of_prefix; [|exact Hpre].
          unfold Reentrant.hook_start. cbn. apply elem_of_app. right. by left.
        * apply T3.
      + cbn. apply prefix_app_r. etrans; [|exact Hpre].
        unfold Reentrant.hook_start. cbn. by apply prefix_app_r. }
  split.
  - unfold finish. cbv zeta.
    eapply token_log_same; [| | |apply (token_log_event
      (CounterChanged (msg_sender e) (if up then 1%Z else (-1)%Z) (count s4)) s4);
      [done|exact H4]]; done.
  - unfold finish. cbn. by apply prefix_app_r.
Qed.

Lemma token_log_tree t ts s :
  Reentrant.token_log_inv s →
  Reentrant.token_log_inv (Reentrant.transact_at ts s t)
  ∧ events s `prefix_of` events (Reentrant.transact_at ts s t).
Proof.
  apply tree_invariant.
  - apply token_log_action.
  - intros c e x x' Hc Hx H. apply owner_call_inv in H.
    destruct c; try done; destruct H as [_ ->];
      (split; [by apply token_log_event, (token_log_same x)
              |cbn; by apply prefix_app_r]).
  - intros to tok x x' Hx H. unfold Reentrant.transferFrom, emit in H.
    minv H. unbool. split; [|cbn; by apply prefix_app_r].
    apply token_log_event; [|by apply (token_log_same x)].
    intros a' t' [= Hz _ _]. cbn in *. congruence.
  - intros v x Hx. by apply (token_log_same x).
Qed.

Lemma token_log_reachable s : Reentrant.reachable s → Reentrant.token_log_inv s.
Proof.
  induction 1 as [d f|s t _ IH].
  - split; cbn; [lia|done|done|]. intros a b t H. by apply elem_of_nil in H.
  - by apply token_log_tree.
Qed.

(** X5: in every state reached by calls, calls from inside a mint and token
    transfers included, the minted token ids, in mint order, are 1, 2, ...,
    nextTokenId - 1 (sequential, never reused); every id was minted for one
    address; the token recorded for an address was minted for it; and two
    addresses never record the same token. *)
Theorem X5_token_ids (s : State) :
  Reentrant.reachable s →
  all_minted (events s) = map N.of_nat (seq 1 (N.to_nat (nextTokenId s) - 1))
  ∧ (∀ a b t, Transfer 0 a t ∈ events s → Transfer 0 b t ∈ events s → a = b)
  ∧ (∀ a, userTokenId s a ≠ 0 →
          Transfer 0 a (userTokenId s a) ∈ events s
          ∧ 1 ≤ userTokenId s a < nextTokenId s)
  ∧ (∀ a b, userTokenId s a ≠ 0 → userTokenId s a = userTokenId s b → a = b).
Proof.
  intros Hr. destruct (token_log_reachable s Hr) as [H1 H2 H3 H4].
  split; [done|]. split; [done|]. split.
  - intros a Ha. split; [by apply H3|].
    apply LedgerMore.elem_of_minted. rewrite <- H2.
    by apply (minted_elem _ a), H3.
  - intros a b Ha Heq. apply (H4 a b (userTokenId s a)); [by apply H3|].
    rewrite Heq. apply H3. by rewrite <- Heq.
Qed.

Lemma X5_token_ids_witness :
  let s := Reentrant.transact Reentrant.adjacent_thresholds
             Reentrant.increment_twice_in_one in
  all_minted (events s) = [1; 2]
  ∧ userTokenId s 7 = 1
  ∧ Transfer 0 7 1 ∈ events s.
Proof.
  cbv zeta.
  match goal with |- all_minted (events ?s) = _ ∧ _ =>
    destruct (X5_token_ids s) as (Hm & _ & Hrec & _) end.
  { do 2 apply Reentrant.reachable_step. apply Reentrant.reachable_deploy. }
  split; [by vm_compute|]. split; [by vm_compute|].
  destruct (Hrec 7) as [Hin _]; [by vm_compute|].
  exact Hin.
Defined.

(** ** The leaderboard and the unused token ids *)

Lemma tree_preserves (I : State → Prop) :
  (∀ hook up e s s',
     (∀ x y, I x → hook x = inr (tt, y) → I y) →
     I s → Reentrant.dispatch hook (action up) e s = inr (tt, s') → I s') →
  (∀ c e s s', is_owner_call c = true → I s → dispatch c e s = inr (tt, s') →
               I s') →
  (∀ to tok s s', I s → Reentrant.transferFrom to tok s = inr (tt, s') → I s') →
  (∀ v s, I s → I (Reentrant.set_owner v s)) →
  ∀ t ts s, I s → I (Reentrant.transact_at ts s t).
Proof.
  intros Hact Hown Htr Hso.
  induction t as [c e inner IH|to tok|e o] using CallTree_ind;
    intros ts s Hs; simpl.
  - match goal with |- context [Reentrant.dispatch ?h c ?e' s] =>
      set (hook := h); destruct (Reentrant.dispatch hook c e' s)
        as [err|[[] s']] eqn:H end; [done|]. simpl.
    assert (∀ x y, I x → hook x = inr (tt, y) → I y) as Hhook.
    { intros x y Hx [= <-]. clear H. revert x Hx.
      induction inner as [|t inner IHl]; intros x Hx; [done|].
      apply Forall_cons in IH as [Ht Hinner]. simpl.
      apply (IHl Hinner). by apply Ht. }
    destruct c.
    + exact (Hact hook true _ s s' Hhook Hs H).
    + exact (Hact hook false _ s s' Hhook Hs H).
    + apply (Hown (SetFee _newFee) (Reentrant.at_time ts e) s); done.
    + apply (Hown (ResetCounter _newValue) (Reentrant.at_time ts e) s); done.
    + apply (Hown (SetBadgeThresholds bronze silver gold platinum diamond
                     master legendary) (Reentrant.at_time ts e) s); done.
  - destruct (Reentrant.transferFrom to tok s) as [err|[[] s']] eqn:H; [done|].
    simpl. by apply (Htr to tok s).
  - destruct (Reentrant.transferOwnership _ o s) as [err|[[] s']] eqn:H; [done|].
    simpl. unfold Reentrant.transferOwnership, nonPayable, onlyOwner in H.
    minv H. by apply Hso.
Qed.

(** [lb_inv] reads the board, the action counts and the counts of
    increments and decrements only. *)
Lemma lb_inv_same s s' :
  topAddresses s' = topAddresses s → topCounts s' = topCounts s →
  incrementCount s' = incrementCount s →
  (∀ a, increments (userStats s' a) = increments (userStats s a)) →
  (∀ a, decrements (userStats s' a) = decrements (userStats s a)) →
  lb_inv s → lb_inv s'.
Proof.
  intros HA HC Hic Hinc Hdec [H1 H2 H3 H4 H5 H6].
  split; unfold leaderboard in *; rewrite ?HA, ?HC, ?Hic; try done.
  intros a. rewrite Hinc, Hdec. apply H6.
Qed.

(** The board after the update of a counter action, once the statistics of
    the caller are written. *)
Lemma lb_inv_bumped up u s s2 :
  lb_inv s →
  _updateTopLeaderboard u (pre_update up u s) = inr (tt, s2) →
  lb_inv (stats_bumped up u s2)
  ∧ ties_stable (leaderboard s) (leaderboard (stats_bumped up u s2)).
Proof.
  intros [Hlen Hcap Hnd Hsort Hsc Hact] Hup.
  pose proof (leaderboard_fst s Hlen) as Hfst.
  pose proof (leaderboard_snd s Hlen) as Hsnd.
  destruct (update_spec u (pre_update up u s) (leaderboard s))
    as (E' & HE' & Hup').
  { simpl. by rewrite Hfst. }
  { simpl. by rewrite Hsnd. }
  rewrite Hup in Hup'. injection Hup' as ->.
  simpl in HE'. rewrite upd_same in HE'.
  assert (NoDup E'.*1) as Hnd'.
  { eapply lb_update_NoDup; [exact HE'|]. by rewrite Hfst. }
  assert (leaderboard (stats_bumped up u
            (with_board E'.*1 E'.*2 (pre_update up u s))) = E') as HE.
  { by apply leaderboard_eq. }
  split; [|rewrite HE; by eapply lb_update_stable].
  split; [| | | |rewrite HE|]; cbn.
  - by rewrite !length_fmap.
  - rewrite length_fmap. eapply lb_update_length; [exact HE'|].
    by rewrite <- (length_fmap fst), Hfst.
  - done.
  - eapply lb_update_descending; [exact HE'|by rewrite Hsnd|].
    intros c Hc. apply Hsc in Hc as ->. lia.
  - intros a c Hin.
    eapply lb_update_elem in Hin; [|exact HE'|by rewrite Hfst].
    unfold upd. destruct Hin as [[= -> ->]|[Hin Hne]].
    + by rewrite N.eqb_refl.
    + apply N.eqb_neq in Hne as ->. by apply Hsc.
  - intros a. unfold upd.
    destruct (a =? u) eqn:Ha, up; unbool; subst; simpl; rewrite ?Hact; lia.
Qed.

Lemma next_ids_free_same s s' :
  nextTokenId s' = nextTokenId s → _owners s' = _owners s →
  Reentrant.next_ids_free s → Reentrant.next_ids_free s'.
Proof. intros Hn Ho H t. rewrite Hn, Ho. apply H. Qed.

Lemma storage_inv_action hook up e s s' :
  (∀ x y, lb_inv x ∧ Reentrant.next_ids_free x → hook x = inr (tt, y) →
          lb_inv y ∧ Reentrant.next_ids_free y) →
  lb_inv s ∧ Reentrant.next_ids_free s →
  Reentrant.dispatch hook (action up) e s = inr (tt, s') →
  lb_inv s' ∧ Reentrant.next_ids_free s'.
Proof.
  intros Hhook [Hlb Hfree] H.
  apply action_inv_hook in H as (_ & _ & s2 & s4 & Hup & Hbadge & ->).
  destruct (lb_inv_bumped up _ s s2 Hlb Hup) as [Hlb3 _].
  apply update_board_only in Hup. unfold board_only in Hup.
  set (s3 := stats_bumped up (msg_sender e) s2) in *.
  assert (nextTokenId s3 = nextTokenId s ∧ _owners s3 = _owners s) as [Hn3 Ho3].
  { unfold s3, stats_bumped. cbn. by rewrite Hup. }
  pose proof (next_ids_free_same s s3 Hn3 Ho3 Hfree) as Hfree3.
  clearbody s3.
  assert (lb_inv s4 ∧ Reentrant.next_ids_free s4) as [Hlb4 Hfree4].
  { apply badge_inv_hook in Hbadge
      as [[_ ->]|[(_ & _ & ->)|(_ & _ & _ & _ & _ & sh & Hh & ->)]].
    - done.
    - split; [|by apply (next_ids_free_same s3)].
      apply (lb_inv_same s3); try done;
        intros a; cbn; unfold upd; destruct (a =? msg_sender e) eqn:Ha; unbool; subst; done.
    - match type of Hh with hook ?x = _ => set (s0 := x) in * end.
      assert (lb_inv s0) as Hlb0.
      { apply (lb_inv_same s3); try done;
          intros a; cbn; unfold upd;
          destruct (a =? msg_sender e) eqn:Ha; unbool; subst; done. }
      assert (Reentrant.next_ids_free s0) as Hfree0.
      { intros t Ht. unfold s0, Reentrant.hook_start in *. cbn in *.
        destruct (t =? nextTokenId s3) eqn:Heq; unbool; [lia|].
        apply Hfree3. lia. }
      destruct (Hhook _ _ (conj Hlb0 Hfree0) Hh) as [Hlbh Hfreeh].
      split.
      + by apply (lb_inv_same sh).
      + by apply (next_ids_free_same sh). }
  split.
  - apply (lb_inv_same s4); try done;
      intros a; cbn; unfold upd; destruct (a =? msg_sender e) eqn:Ha; unbool; subst; done.
  - by apply (next_ids_free_same s4).
Qed.

Lemma storage_inv_tree t ts s :
  lb_inv s ∧ Reentrant.next_ids_free s →
  lb_inv (Reentrant.transact_at ts s t)
  ∧ Reentrant.next_ids_free (Reentrant.transact_at ts s t).
Proof.
  apply (tree_preserves (λ s, lb_inv s ∧ Reentrant.next_ids_free s)).
  - apply storage_inv_action.
  - intros c e x x' Hc [Hlb Hfree] H. apply owner_call_inv in H.
    destruct c; try done; destruct H as [_ ->];
      (split; [by apply (lb_inv_same x)|by apply (next_ids_free_same x)]).
  - intros to tok x x' [Hlb Hfree] H. unfold Reentrant.transferFrom, emit in H.
    minv H. unbool. split; [by apply (lb_inv_same x)|].
    intros t' Ht'. cbn in *.
    destruct (t' =? tok) eqn:Heq; unbool; [|by apply Hfree].
    subst t'. by rewrite Hfree in *.
  - intros v x [Hlb Hfree].
    split; [by apply (lb_inv_same x)|by apply (next_ids_free_same x)].
Qed.

Lemma storage_inv_reachable s :
  Reentrant.reachable s → lb_inv s ∧ Reentrant.next_ids_free s.
Proof.
  induction 1 as [d f|s t _ IH].
  - split; [apply lb_inv_deploy|done].
  - by apply storage_inv_tree.
Qed.

Lemma board_of_inv s :
  lb_inv s →
  descending (leaderboard s).*2
  ∧ (length (leaderboard s) ≤ 20)%nat
  ∧ NoDup (leaderboard s).*1.
Proof.
  intros [Hlen Hcap Hnd Hsort _ _].
  rewrite (leaderboard_fst s Hlen), (leaderboard_snd s Hlen).
  split; [done|]. split; [|done].
  rewrite <- (length_fmap fst), (leaderboard_fst s Hlen). exact Hcap.
Qed.

(** ** The claims about the leaderboard and the cooldown *)

(** C1, amended: take any state the contract can be in, whatever calls,
    calls from inside a mint and transfers led to it, and a call made in it
    that updates the leaderboard once (its receiver makes no further call).
    After the call the scores of the leaderboard are in non-increasing order
    (equal scores may be neighbours), the board has at most 20 entries, no
    address occurs twice, and ties are stable: an address that stands ahead
    of another with an equal score after the call was on the board before
    the call, and ahead of the other if that one was on the board too.  So
    addresses with equal scores are never reordered, and an address that
    enters the board is placed behind every equal score.  Order, bound and
    uniqueness also hold after a call whose receiver calls back, which makes
    several updates in one transaction. *)
Theorem C1_leaderboard_sorted_bounded_unique_stable
    (s : State) (ce : Call * Env) :
  Reentrant.reachable s →
  let s' := transact s ce in
  descending (leaderboard s').*2
  ∧ (length (leaderboard s') ≤ 20)%nat
  ∧ NoDup (leaderboard s').*1
  ∧ ties_stable (leaderboard s) (leaderboard s')
  ∧ ∀ t, let s2 := Reentrant.transact s t in
         descending (leaderboard s2).*2
         ∧ (length (leaderboard s2) ≤ 20)%nat
         ∧ NoDup (leaderboard s2).*1.
Proof.
  intros Hr s'.
  destruct (storage_inv_reachable s Hr) as [Hinv _].
  destruct (board_of_inv s' (lb_inv_transact s ce Hinv)) as (H1 & H2 & H3).
  split; [done|]. split; [done|]. split; [done|].
  split; [by apply ties_stable_transact|].
  intros t s2. apply board_of_inv.
  apply (storage_inv_reachable s2). by apply Reentrant.reachable_step.
Qed.

Lemma C1_leaderboard_witness :
  leaderboard (increments_by_7 1) = [(7, 1)]
  ∧ let s' := transact (increments_by_7 1) (Increment, mkEnv 8 0 3600 true true) in
    leaderboard s' = [(7, 1); (8, 1)]
    ∧ descending (leaderboard s').*2
    ∧ (length (leaderboard s') ≤ 20)%nat
    ∧ NoDup (leaderboard s').*1
    ∧ ties_stable (leaderboard (increments_by_7 1)) (leaderboard s').
Proof.
  split; [reflexivity|]. cbv zeta. split; [reflexivity|].
  destruct (C1_leaderboard_sorted_bounded_unique_stable (increments_by_7 1)
              (Increment, mkEnv 8 0 3600 true true))
    as (H1 & H2 & H3 & H4 & _).
  { apply reachable_passive, reachable_run, reachable_deploy. }
  split; [exact H1|]. split; [exact H2|]. split; [exact H3|exact H4].
Defined.



End Reentrancy.

(** * Further properties of the client scripts *)

Module ClientMore.
Import Client ClientViews.

Lemma filter_comm {A} (P Q : A → Prop) `{!∀ x, Decision (P x)} `{!∀ x, Decision (Q x)}
    (l : list A) :
  filter P (filter Q l) = filter Q (filter P l).
Proof.
  induction l as [|x l IH]; [done|].
  rewrite !filter_cons.
  destruct (decide (P x)), (decide (Q x)); rewrite ?filter_cons;
    repeat case_decide; try done; by rewrite IH.
Qed.

(** ** The cooldown timers *)

Section timers.
Import Timers.

Lemma filter_handle_all (h : N) (l : list Timer) :
  Forall (λ t, timer_handle t ≠ h) l → filter (λ t, timer_handle t ≠ h) l = l.
Proof.
  induction 1 as [|t l Ht _ IH]; [done|].
  by rewrite filter_cons_True, IH.
Qed.

Lemma cooldown_in_timers p t : t ∈ cooldown_timers p → t ∈ timers p.
Proof. unfold cooldown_timers. rewrite list_elem_of_filter. tauto. Qed.

Lemma page_timer_handle p t h :
  timer_inv p → t ∈ page_timers p →
  (∃ t', t' ∈ cooldown_timers p ∧ timer_handle t' = h) →
  timer_handle t ≠ h.
Proof.
  intros Hinv Ht (t' & Ht' & <-) Heq.
  apply list_elem_of_filter in Ht as [Hp Ht].
  apply list_elem_of_filter in Ht' as [Hc Ht'].
  assert (t = t') as ->; [|done].
  pose proof (ti_nodup p Hinv) as Hnd.
  apply list_elem_of_lookup in Ht as [i Hi].
  apply list_elem_of_lookup in Ht' as [j Hj].
  assert (i = j) as ->; [|congruence].
  eapply NoDup_lookup; [exact Hnd| |];
    rewrite list_lookup_fmap; [by rewrite Hi|rewrite Hj; simpl; by rewrite Heq].
Qed.

Lemma stop_spec p :
  timer_inv p →
  let q := stopCooldownAutoRefresh p in
  timer_inv q
  ∧ cooldownIntervalId q = None ∧ cooldownDisplayIntervalId q = None
  ∧ cooldown_timers q = []
  ∧ page_timers q = page_timers p
  ∧ next_handle q = next_handle p.
Proof.
  intros Hinv.
  pose proof (ti_fresh p Hinv) as Hf.
  pose proof (ti_ids p Hinv) as Hids.
  pose proof (ti_nodup p Hinv) as Hnd.
  destruct p as [nx ts [a|] [b|]]; simpl in *; try done.
  - destruct Hids as [period Hc].
    assert (mkTimer a RefreshCooldownTimer period ∈ ts) as Ha.
    { apply (cooldown_in_timers (mkTimerPage nx ts (Some a) (Some b))).
      rewrite Hc. by constructor. }
    assert (mkTimer b UpdateCooldownDisplay 1000 ∈ ts) as Hb.
    { apply (cooldown_in_timers (mkTimerPage nx ts (Some a) (Some b))).
      rewrite Hc. by do 2 constructor. }
    rewrite Forall_forall in Hf.
    pose proof (Hf _ Ha) as Ha1. pose proof (Hf _ Hb) as Hb1. simpl in Ha1, Hb1.
    unfold stopCooldownAutoRefresh. simpl.
    destruct (a =? 0) eqn:Ea; [apply N.eqb_eq in Ea; lia|]. simpl.
    destruct (b =? 0) eqn:Eb; [apply N.eqb_eq in Eb; lia|]. simpl.
    set (ts' := filter (λ t, timer_handle t ≠ b) (filter (λ t, timer_handle t ≠ a) ts)).
    assert (filter (λ t, is_cooldown_timer t = true) ts' = []) as Hc'.
    { unfold ts'. rewrite !(filter_comm (λ t, is_cooldown_timer t = true)).
      unfold cooldown_timers in Hc. simpl in Hc. rewrite Hc.
      rewrite !filter_cons. simpl.
      repeat (case_decide; simpl; try done); rewrite ?filter_cons; simpl;
        repeat (case_decide; simpl; try done). }
    assert (filter (λ t, is_cooldown_timer t ≠ true) ts'
            = filter (λ t, is_cooldown_timer t ≠ true) ts) as Hp'.
    { unfold ts'. rewrite !(filter_comm (λ t, is_cooldown_timer t ≠ true)).
      rewrite (filter_handle_all a), (filter_handle_all b); [done| |].
      - apply Forall_forall. intros t Ht.
        apply (page_timer_handle (mkTimerPage nx ts (Some a) (Some b)) t b Hinv Ht).
        exists (mkTimer b UpdateCooldownDisplay 1000).
        split; [rewrite Hc; by do 2 constructor|done].
      - apply Forall_forall. intros t Ht.
        apply (page_timer_handle (mkTimerPage nx ts (Some a) (Some b)) t a Hinv Ht).
        exists (mkTimer a RefreshCooldownTimer period).
        split; [rewrite Hc; by constructor|done]. }
    split; [|done].
    split; simpl; [exact (ti_next _ Hinv)| | exact Hc' |].
    + apply Forall_forall. intros t Ht. apply Hf.
      unfold ts' in Ht. rewrite !list_elem_of_filter in Ht. tauto.
    + unfold ts'. apply NoDup_fmap_2_strong; [|].
      * intros x y Hx Hy Hxy.
        rewrite !list_elem_of_filter in Hx, Hy.
        destruct Hx as (_ & _ & Hx), Hy as (_ & _ & Hy).
        apply list_elem_of_lookup in Hx as [i Hi].
        apply list_elem_of_lookup in Hy as [j Hj].
        assert (i = j) as ->; [|congruence].
        eapply NoDup_lookup; [exact Hnd| |];
          rewrite list_lookup_fmap; [by rewrite Hi|rewrite Hj; simpl; by rewrite Hxy].
      * apply NoDup_filter, NoDup_filter. by eapply NoDup_fmap_1.
Qed.

Lemma start_spec period p :
  timer_inv p →
  let q := startCooldownAutoRefresh period p in
  timer_inv q
  ∧ cooldownIntervalId q = Some (next_handle p)
  ∧ cooldownDisplayIntervalId q = Some (next_handle p + 1)
  ∧ cooldown_timers q
    = [mkTimer (next_handle p) RefreshCooldownTimer period;
       mkTimer (next_handle p + 1) UpdateCooldownDisplay 1000]
  ∧ page_timers q = page_timers p.
Proof.
  intros Hinv.
  destruct (stop_spec p Hinv) as (Hinv0 & Ha & Hb & Hc & Hp & Hn).
  unfold startCooldownAutoRefresh. cbv zeta.
  set (p0 := stopCooldownAutoRefresh p) in *.
  pose proof (ti_next p0 Hinv0) as Hx.
  pose proof (ti_fresh p0 Hinv0) as Hf.
  pose proof (ti_nodup p0 Hinv0) as Hnd.
  destruct p0 as [nx ts ia ib]. simpl in *. subst ia ib nx.
  unfold cooldown_timers, page_timers in *. simpl in *.
  rewrite <- !(assoc_L (++)). simpl.
  rewrite !filter_app, Hc, Hp. simpl.
  rewrite !filter_cons. simpl.
  repeat (case_decide; try done). rewrite !filter_nil, app_nil_r.
  split; [|done].
  split; simpl.
  - lia.
  - rewrite !Forall_app, !Forall_cons. simpl.
    split; [|split; [lia|split; [lia|done]]].
    eapply Forall_impl; [exact Hf|]. simpl. intros. lia.
  - exists period. unfold cooldown_timers. simpl.
    rewrite !filter_app, Hc. simpl. rewrite !filter_cons. simpl.
    by repeat (case_decide; try done).
  - rewrite !fmap_app. simpl.
    rewrite Forall_forall in Hf.
    apply NoDup_app. split; [done|]. split.
    + intros h Hh Hin. apply list_elem_of_fmap in Hh as (t & -> & Ht).
      apply Hf in Ht. 
      apply elem_of_cons in Hin as [Hin|Hin]; [lia|].
      apply elem_of_cons in Hin as [Hin|Hin]; [lia|].
      by apply elem_of_nil in Hin.
    + apply NoDup_cons. split; [|apply NoDup_singleton].
      rewrite elem_of_cons, elem_of_nil. lia.
Qed.

Lemma page_timer_spec ms p :
  timer_inv p →
  let q := (setInterval PageCallback ms p).2 in
  timer_inv q
  ∧ cooldownIntervalId q = cooldownIntervalId p
  ∧ cooldownDisplayIntervalId q = cooldownDisplayIntervalId p
  ∧ cooldown_timers q = cooldown_timers p
  ∧ page_timers q = page_timers p ++ [mkTimer (next_handle p) PageCallback ms].
Proof.
  intros Hinv.
  pose proof (ti_next p Hinv) as Hx.
  pose proof (ti_fresh p Hinv) as Hf.
  pose proof (ti_ids p Hinv) as Hids.
  pose proof (ti_nodup p Hinv) as Hnd.
  assert (cooldown_timers (setInterval PageCallback ms p).2 = cooldown_timers p) as Hc.
  { unfold cooldown_timers. simpl. rewrite filter_app, filter_cons. simpl.
    by rewrite filter_nil, app_nil_r. }
  cbv zeta. split; [|split; [done|split; [done|split; [done|]]]].
  - split.
    + simpl. lia.
    + simpl. rewrite Forall_app, Forall_cons. simpl.
      split; [|split; [lia|done]].
      eapply Forall_impl; [exact Hf|]. simpl. intros. lia.
    + rewrite Hc. exact Hids.
    + simpl. rewrite fmap_app. simpl.
      rewrite Forall_forall in Hf.
      apply NoDup_app. split; [done|]. split; [|apply NoDup_singleton].
      intros h Hh Hin. apply list_elem_of_fmap in Hh as (t & -> & Ht).
      apply Hf in Ht. apply elem_of_cons in Hin as [Hin|Hin]; [lia|].
      by apply elem_of_nil in Hin.
  - unfold page_timers. simpl. rewrite filter_app, filter_cons. simpl.
    by rewrite ?filter_cons, ?filter_nil.
Qed.

End timers.

Section timers_run.
Import Timers.

Lemma timer_inv_init : timer_inv timer_init.
Proof.
  split; simpl; [lia|constructor|done|constructor].
Qed.

Lemma timer_inv_step p ev : timer_inv p → timer_inv (timer_step p ev).
Proof.
  intros Hinv. destruct ev as [period| |ms]; simpl.
  - apply (start_spec period p Hinv).
  - apply (stop_spec p Hinv).
  - apply (page_timer_spec ms p Hinv).
Qed.

Lemma timer_inv_run p evs : timer_inv p → timer_inv (timer_run p evs).
Proof.
  revert p. induction evs as [|ev evs IH]; intros p Hinv; [done|].
  simpl. by apply IH, timer_inv_step.
Qed.

(** X11: after any sequence of calls of [startCooldownAutoRefresh] and
    [stopCooldownAutoRefresh], mixed with timers started by the rest of the
    page, the cooldown timers that run are exactly the two whose handles the
    page holds, or none when it holds none: a repeated start replaces the
    timers instead of adding to them, a stop leaves none, and neither
    function stops a timer of the rest of the page. *)
Theorem X11_cooldown_timers_never_leak (evs : list TimerEvent) :
  let p := timer_run timer_init evs in
  match cooldownIntervalId p, cooldownDisplayIntervalId p with
  | None, None => cooldown_timers p = []
  | Some a, Some b =>
      ∃ period, cooldown_timers p
                = [mkTimer a RefreshCooldownTimer period;
                   mkTimer b UpdateCooldownDisplay 1000]
  | _, _ => False
  end
  ∧ cooldown_timers (stopCooldownAutoRefresh p) = []
  ∧ (∀ period, ∃ a b,
       cooldown_timers (startCooldownAutoRefresh period p)
       = [mkTimer a RefreshCooldownTimer period;
          mkTimer b UpdateCooldownDisplay 1000])
  ∧ page_timers (stopCooldownAutoRefresh p) = page_timers p
  ∧ (∀ period, page_timers (startCooldownAutoRefresh period p) = page_timers p).
Proof.
  intros p.
  assert (timer_inv p) as Hinv by apply timer_inv_run, timer_inv_init.
  split; [exact (ti_ids p Hinv)|].
  destruct (stop_spec p Hinv) as (_ & _ & _ & Hc & Hp & _).
  split; [exact Hc|]. split; [|split; [exact Hp|]].
  - intros period.
    destruct (start_spec period p Hinv) as (_ & _ & _ & Hs & _).
    by eexists _, _.
  - intros period. apply (start_spec period p Hinv).
Qed.

End timers_run.

(** ** The event subscriptions *)

Section listeners.
Import Listeners.

Lemma filter_all {A} (P : A → Prop) `{!∀ x, Decision (P x)} (l : list A) :
  Forall P l → filter P l = l.
Proof.
  induction 1 as [|x l Hx _ IH]; [done|].
  by rewrite filter_cons_True, IH.
Qed.

Lemma filter_none {A} (P : A → Prop) `{!∀ x, Decision (P x)} (l : list A) :
  Forall (λ x, ¬ P x) l → filter P l = [].
Proof.
  induction 1 as [|x l Hx _ IH]; [done|].
  by rewrite filter_cons_False, IH.
Qed.

Lemma live_is_current p :
  (watchers p).*1 = unwatched p ++ eventUnwatchFns p →
  NoDup ((watchers p).*1) →
  live_watchers p = drop (length (unwatched p)) (watchers p).
Proof.
  intros Hs Hnd. unfold live_watchers.
  set (n := length (unwatched p)).
  assert ((take n (watchers p)).*1 = unwatched p) as Ht.
  { unfold n. rewrite fmap_take, Hs. by rewrite take_app_length. }
  assert ((drop n (watchers p)).*1 = eventUnwatchFns p) as Hd.
  { unfold n. rewrite fmap_drop, Hs. by rewrite drop_app_length. }
  rewrite <- (take_drop n (watchers p)) at 1.
  rewrite filter_app.
  rewrite Hs in Hnd. apply NoDup_app in Hnd as (_ & Hdis & _).
  assert (filter (λ w, w.1 ∉ unwatched p) (take n (watchers p)) = []) as ->.
  { apply filter_none, Forall_forall. intros w Hin Hw. apply Hw.
    rewrite <- Ht. apply list_elem_of_fmap. by exists w. }
  simpl. apply filter_all, Forall_forall.
  intros w Hw Hin. apply (Hdis _ Hin).
  rewrite <- Hd. apply list_elem_of_fmap. by exists w.
Qed.

Lemma listener_inv_init : listener_inv listener_init.
Proof.
  split; simpl; [done|constructor|constructor|apply prefix_nil].
Qed.

Lemma cleanup_inv p :
  listener_inv p →
  listener_inv (cleanupEventListeners p)
  ∧ current_names (cleanupEventListeners p) = [].
Proof.
  intros [Hs Hf Hnd Hn].
  assert (current_names (cleanupEventListeners p) = []) as Hc.
  { unfold current_names. simpl. rewrite <- Hs, length_fmap.
    by rewrite drop_all. }
  split; [|done].
  split; simpl; [by rewrite app_nil_r|done|done|].
  rewrite Hc. apply prefix_nil.
Qed.

(** One [watchContractEvent] that returns, followed by the [push] of its
    result. *)
Lemma watch_push_inv name p names :
  listener_inv p →
  current_names p = names →
  (names ++ [name]) `prefix_of` all_names →
  let q := push_unwatch (next_watcher p)
             (mkListenerPage (configured p) (next_watcher p + 1)
                             (watchers p ++ [(next_watcher p, name)])
                             (unwatched p) (eventUnwatchFns p)) in
  listener_inv q ∧ current_names q = names ++ [name]
  ∧ unwatched q = unwatched p ∧ configured q = configured p.
Proof.
  intros [Hs Hf Hnd Hn] Hc Hpre q.
  assert (current_names q = names ++ [name]) as Hq.
  { unfold current_names, q. simpl.
    rewrite drop_app_le.
    - rewrite fmap_app. simpl. by rewrite <- Hc.
    - rewrite <- (length_fmap fst (watchers p)), Hs, length_app. lia. }
  split; [|done].
  split; simpl.
  - rewrite fmap_app, Hs. simpl. by rewrite (assoc_L (++)).
  - rewrite Forall_app, Forall_cons. simpl.
    split; [|split; [lia|done]].
    eapply Forall_impl; [exact Hf|]. simpl. intros. lia.
  - rewrite fmap_app. simpl. apply NoDup_app.
    split; [done|]. split; [|apply NoDup_singleton].
    intros x Hx Hin. apply list_elem_of_fmap in Hx as (w & -> & Hw).
    rewrite Forall_forall in Hf. apply Hf in Hw.
    apply elem_of_cons in Hin as [Hin|Hin]; [lia|].
    by apply elem_of_nil in Hin.
  - by rewrite Hq.
Qed.

Lemma prefix_1 : [CounterChangedName] `prefix_of` all_names.
Proof. by exists [BadgeAssignedName; CounterResetName]. Qed.

Lemma prefix_2 : [CounterChangedName; BadgeAssignedName] `prefix_of` all_names.
Proof. by exists [CounterResetName]. Qed.

Lemma prefix_3 : all_names `prefix_of` all_names.
Proof. by exists []. Qed.

Lemma setup_inv ok1 ok2 ok3 p :
  listener_inv p →
  let q := setupEventListeners ok1 ok2 ok3 p in
  listener_inv q
  ∧ (configured p = true →
     unwatched q = unwatched p ++ eventUnwatchFns p
     ∧ current_names q
       = if ok1 then
           CounterChangedName ::
           (if ok2 then
              BadgeAssignedName :: (if ok3 then [CounterResetName] else [])
            else [])
         else []).
Proof.
  intros Hinv. unfold setupEventListeners.
  destruct (configured p) eqn:Hcfg; simpl; [|done].
  destruct (cleanup_inv p Hinv) as [Hinv0 Hc0].
  set (p0 := cleanupEventListeners p) in *.
  assert (unwatched p0 = unwatched p ++ eventUnwatchFns p) as Hu0 by done.
  destruct ok1; simpl; [|by split].
  destruct (watch_push_inv CounterChangedName p0 [] Hinv0 Hc0 prefix_1)
    as (Hinv1 & Hc1 & Hu1 & _).
  set (p1 := push_unwatch (next_watcher p0) _) in *.
  destruct ok2; simpl;
    [|split; [done|intros _; split; [exact (eq_trans Hu1 Hu0)|exact Hc1]]].
  destruct (watch_push_inv BadgeAssignedName p1 _ Hinv1 Hc1 prefix_2)
    as (Hinv2 & Hc2 & Hu2 & _).
  set (p2 := push_unwatch (next_watcher p1) _) in *.
  destruct ok3; simpl;
    [|split; [done|intros _; split;
                     [exact (eq_trans Hu2 (eq_trans Hu1 Hu0))|exact Hc2]]].
  destruct (watch_push_inv CounterResetName p2 _ Hinv2 Hc2 prefix_3)
    as (Hinv3 & Hc3 & Hu3 & _).
  split; [done|intros _; split;
                 [exact (eq_trans Hu3 (eq_trans Hu2 (eq_trans Hu1 Hu0)))|exact Hc3]].
Qed.

Lemma listener_inv_step p ev : listener_inv p → listener_inv (listener_step p ev).
Proof.
  intros Hinv. destruct ev as [b|ok1 ok2 ok3|]; simpl.
  - by destruct Hinv.
  - apply (setup_inv ok1 ok2 ok3 p Hinv).
  - apply (cleanup_inv p Hinv).
Qed.

Lemma listener_inv_run p evs : listener_inv p → listener_inv (listener_run p evs).
Proof.
  revert p. induction evs as [|ev evs IH]; intros p Hinv; [done|].
  simpl. by apply IH, listener_inv_step.
Qed.

Lemma live_names p : listener_inv p → (live_watchers p).*2 = current_names p.
Proof.
  intros Hinv. unfold current_names.
  by rewrite (live_is_current p (li_split p Hinv) (li_nodup p Hinv)).
Qed.

(** X12: after any sequence of [setupEventListeners] and
    [cleanupEventListeners] calls, whichever subscriptions fail, the
    subscriptions that have not been ended are exactly those in
    [eventUnwatchFns]: at most one for each of the three events, in the order
    CounterChanged, BadgeAssigned, CounterReset, so no log is handled twice.
    No subscription is ended twice; a clean-up leaves none; and a set-up that
    succeeds on a configured page leaves exactly the three new ones. *)
Theorem X12_event_subscriptions (evs : list ListenerEvent) :
  let p := listener_run listener_init evs in
  (live_watchers p).*1 = eventUnwatchFns p
  ∧ (live_watchers p).*2 `prefix_of` all_names
  ∧ NoDup (unwatched p)
  ∧ live_watchers (cleanupEventListeners p) = []
  ∧ (configured p = true →
     (live_watchers (setupEventListeners true true true p)).*2 = all_names
     ∧ ∀ w, w ∈ live_watchers (setupEventListeners true true true p) →
            w ∉ watchers p).
Proof.
  intros p.
  assert (listener_inv p) as Hinv by apply listener_inv_run, listener_inv_init.
  pose proof (li_split p Hinv) as Hs.
  pose proof (li_nodup p Hinv) as Hnd.
  split; [|split; [|split; [|split]]].
  - rewrite (live_is_current p Hs Hnd), fmap_drop, Hs.
    by rewrite drop_app_length.
  - rewrite (live_names p Hinv). apply (li_names p Hinv).
  - rewrite Hs in Hnd. by apply NoDup_app in Hnd as (? & _ & _).
  - destruct (cleanup_inv p Hinv) as [Hinv0 Hc0].
    apply (fmap_nil_inv snd). by rewrite (live_names _ Hinv0).
  - intros Hcfg.
    destruct (setup_inv true true true p Hinv) as [Hq Hn].
    destruct (Hn Hcfg) as [Hu Hc].
    split; [by rewrite (live_names _ Hq), Hc|].
    intros w Hw Hold.
    apply list_elem_of_filter in Hw as [Hw _]. apply Hw.
    rewrite Hu, <- Hs. apply list_elem_of_fmap. by exists w.
Qed.

Lemma X12_event_subscriptions_witness :
  (live_watchers
     (listener_run listener_init
        [Configure true; Setup true true true; Setup true false true])).*1
  = [3]
  ∧ (live_watchers
       (setupEventListeners true true true
          (listener_run listener_init
             [Configure true; Setup true true true; Setup true false true]))).*2
    = all_names.
Proof.
  destruct (X12_event_subscriptions
              [Configure true; Setup true true true; Setup true false true])
    as (Hlive & _ & _ & _ & Hsetup).
  split; [exact Hlive|].
  destruct Hsetup as [Hnames _]; [reflexivity|]. exact Hnames.
Defined.

End listeners.

(** ** The counter mirror and the events of the contract *)

Section mirror.
Import Contract Mirror.
Variable Number : N → N.
Hypothesis Number_safe : ∀ n, n ≤ MAX_SAFE_INTEGER → Number n = n.






End mirror.

Section mirror_witness.
Import Contract ContractViews Mirror.


End mirror_witness.

(** ** The transaction history *)

Section history.
Import TxHistory.
Variable toLowerCase : string → string.
Variable JSON_stringify : list TxRecord → string.
Variable JSON_parse : string → option (list TxRecord).
Hypothesis parse_stringify : ∀ l, JSON_parse (JSON_stringify l) = Some l.
Hypothesis stringify_nonempty : ∀ l, JSON_stringify l ≠ "".

Lemma history_key_inj a b :
  history_key toLowerCase a = history_key toLowerCase b →
  toLowerCase a = toLowerCase b.
Proof. unfold history_key, TX_HISTORY_KEY. cbn. intros H. by simplify_eq. Qed.

Lemma truthy_string_Some a : a ≠ "" → truthy_string (Some a) = true.
Proof. intros Ha. simpl. by apply String.eqb_neq in Ha as ->. Qed.

Lemma get_after_set st a b l :
  a ≠ "" → b ≠ "" →
  getTxHistory toLowerCase JSON_parse true
    (mkHistoryPage (Some b)
       (<[history_key toLowerCase a := JSON_stringify l]> st))
  = if decide (toLowerCase a = toLowerCase b) then l
    else getTxHistory toLowerCase JSON_parse true (mkHistoryPage (Some b) st).
Proof using parse_stringify stringify_nonempty.
  intros Ha Hb. unfold getTxHistory, safe_getItem. cbn [userAddress localStorage].
  rewrite (truthy_string_Some b Hb). cbn [negb].
  case_decide as Hab.
  - assert (history_key toLowerCase b = history_key toLowerCase a) as ->
      by (unfold history_key; by rewrite Hab).
    rewrite lookup_insert_eq, (truthy_string_Some _ (stringify_nonempty l)).
    by rewrite parse_stringify.
  - rewrite lookup_insert_ne; [done|].
    intros Hk. by apply history_key_inj in Hk.
Qed.

(** X14: for a connected account and a working [localStorage], the history
    read after [addToTxHistory] is the new record followed by the history
    read before, cut to five records; it is kept per account, the account
    compared in lower case; when the write fails, or no account is
    connected, the storage stays as it was; and when the read fails while the
    write works, the stored history is replaced by the new record alone. *)
Theorem X14_tx_history (p : HistoryPage) (a : string) (now : N) (type hash : string) :
  userAddress p = Some a →
  a ≠ "" →
  let get := getTxHistory toLowerCase JSON_parse true in
  let add := addToTxHistory toLowerCase JSON_stringify JSON_parse in
  let q := add true true now type hash p in
  get q = take 5 (mkTxRecord type hash now :: get p)
  ∧ (length (get q) ≤ 5)%nat
  ∧ (∀ b, b ≠ "" → toLowerCase b = toLowerCase a →
       get (mkHistoryPage (Some b) (localStorage q)) = get q)
  ∧ (∀ b, toLowerCase b ≠ toLowerCase a →
       get (mkHistoryPage (Some b) (localStorage q))
       = get (mkHistoryPage (Some b) (localStorage p)))
  ∧ (∀ read_ok, add read_ok false now type hash p = p)
  ∧ add true true now type hash (mkHistoryPage None (localStorage p))
    = mkHistoryPage None (localStorage p)
  ∧ get (add false true now type hash p) = [mkTxRecord type hash now].
Proof using parse_stringify stringify_nonempty.
  intros Hu Ha get add q.
  destruct p as [ua st]. simpl in Hu. subst ua.
  assert (∀ read_ok,
    add read_ok true now type hash (mkHistoryPage (Some a) st)
    = mkHistoryPage (Some a)
        (<[history_key toLowerCase a :=
             JSON_stringify
               (take 5 (mkTxRecord type hash now
                        :: getTxHistory toLowerCase JSON_parse read_ok
                             (mkHistoryPage (Some a) st)))]> st)) as Hadd.
  { intros read_ok. unfold add, addToTxHistory, saveTxHistory, safe_setItem.
    cbn [userAddress localStorage].
    by rewrite (truthy_string_Some a Ha). }
  assert (get q = take 5 (mkTxRecord type hash now
                          :: get (mkHistoryPage (Some a) st))) as Hq.
  { unfold q, get. rewrite Hadd, (get_after_set st a a _ Ha Ha).
    by rewrite decide_True. }
  split; [exact Hq|]. split.
  { rewrite Hq, length_take. lia. }
  split.
  { intros b Hb Hab. rewrite Hq. unfold q, get.
    rewrite Hadd. cbn [localStorage].
    rewrite (get_after_set st a b _ Ha Hb). by rewrite decide_True. }
  split.
  { intros b Hab. unfold q. rewrite Hadd. cbn [localStorage].
    destruct (decide (b = "")) as [->|Hb].
    - unfold get, getTxHistory. cbn [userAddress]. done.
    - unfold get. rewrite (get_after_set st a b _ Ha Hb).
      by rewrite decide_False. }
  split.
  { intros read_ok. unfold add, addToTxHistory, saveTxHistory, safe_setItem.
    cbn [userAddress]. by rewrite (truthy_string_Some a Ha). }
  split; [done|].
  unfold get. rewrite Hadd, (get_after_set st a a _ Ha Ha), decide_True; [|done].
  unfold getTxHistory, safe_getItem. cbn [userAddress].
  by rewrite (truthy_string_Some a Ha).
Qed.

End history.

Section history_witness.
Import TxHistory.

Lemma unary_length n : String.length (unary n) = n.
Proof. induction n as [|n IH]; simpl; congruence. Qed.

Lemma unary_parse_stringify l : unary_parse (unary_stringify l) = Some l.
Proof.
  unfold unary_parse, unary_stringify.
  rewrite unary_length, Pos2Nat.id, decode_encode. simpl. f_equal.
  rewrite <- list_fmap_compose. rewrite <- (list_fmap_id l) at 2.
  apply list_fmap_ext. by intros _ [] _.
Qed.

Lemma unary_stringify_nonempty l : unary_stringify l ≠ "".
Proof.
  unfold unary_stringify. intros H. apply (f_equal String.length) in H.
  rewrite unary_length in H. simpl in H. lia.
Qed.

Lemma X14_tx_history_witness :
  getTxHistory ascii_toLowerCase unary_parse true
    (addToTxHistory ascii_toLowerCase unary_stringify unary_parse true true
       1000 "increment" "0x01" (mkHistoryPage (Some "0xAb") ∅))
  = [mkTxRecord "increment" "0x01" 1000]
  ∧ getTxHistory ascii_toLowerCase unary_parse true
      (mkHistoryPage (Some "0xAB")
         (localStorage
            (addToTxHistory ascii_toLowerCase unary_stringify unary_parse
               true true 1000 "increment" "0x01"
               (mkHistoryPage (Some "0xAb") ∅))))
    = [mkTxRecord "increment" "0x01" 1000].
Proof.
  destruct (X14_tx_history ascii_toLowerCase unary_stringify unary_parse
              unary_parse_stringify unary_stringify_nonempty
              (mkHistoryPage (Some "0xAb") ∅) "0xAb" 1000 "increment" "0x01")
    as (Hget & _ & Hcase & _); [reflexivity|done|].
  split; [exact Hget|].
  rewrite (Hcase "0xAB"); [exact Hget|done|reflexivity].
Defined.

End history_witness.

(** ** The cooldown display and the cooldown of the contract *)

Section cooldown.
Import Contract ContractViews Cooldown.
Variable Number : N → N.
Hypothesis Number_safe : ∀ n, n ≤ MAX_SAFE_INTEGER → Number n = n.

Lemma display_keeps_end now v :
  cooldownEndTime (updateCooldownDisplay now v) = cooldownEndTime v.
Proof.
  unfold updateCooldownDisplay.
  destruct (cooldownEndTime v) as [endTime|] eqn:He; simpl; [|done].
  destruct (endTime =? 0); simpl; [done|].
  by destruct (endTime <=? now).
Qed.

Lemma display_text now v endTime :
  cooldownEndTime v = Some endTime →
  endTime ≠ 0 →
  cooldownTimer (updateCooldownDisplay now v)
  = if endTime <=? now then "✅ Ready!"
    else "⏰ " +:+ pretty ((endTime - now) / 1000 / 60) +:+ "m "
         +:+ (if (endTime - now) / 1000 mod 60 <? 10 then "0" else "")
         +:+ pretty ((endTime - now) / 1000 mod 60) +:+ "s".
Proof.
  intros He H0. unfold updateCooldownDisplay. rewrite He. simpl.
  apply N.eqb_neq in H0. rewrite H0. simpl.
  by destruct (endTime <=? now).
Qed.

Lemma timeLocked_check_early e s :
  let unlock :=
    lastActionTime (userStats s (msg_sender e)) + COOLDOWN_SECONDS in
  block_timestamp e < unlock →
  unlock ≤ MAX_UINT256 →
  timeLocked_check e s = inl (Revert "Action locked: wait").
Proof.
  intros unlock Hlt Hmax. unfold timeLocked_check.
  unfold bind at 1. unfold gets.
  unfold bind at 1. unfold checked_add. fold unlock.
  apply N.leb_le in Hmax. rewrite Hmax.
  unfold ret, require. apply N.leb_gt in Hlt. by rewrite Hlt.
Qed.

Lemma ready_iff (unlock now : N) :
  unlock * 1000 ≤ now ↔ unlock ≤ now / 1000.
Proof.
  pose proof (N.div_mod now 1000 ltac:(lia)) as Hdm.
  pose proof (N.mod_lt now 1000 ltac:(lia)) as Hml.
  revert Hdm Hml. generalize (now / 1000) (now mod 1000). intros q r. lia.
Qed.

Lemma seconds_le (now : N) : now / 1000 ≤ now.
Proof.
  pose proof (N.div_mod now 1000 ltac:(lia)) as Hdm.
  revert Hdm. generalize (now / 1000) (now mod 1000). intros q r. lia.
Qed.

Lemma remaining_bounds (unlock now : N) :
  now < unlock * 1000 →
  let r := (unlock * 1000 - now) / 1000 in
  r ≤ unlock - now / 1000 ∧ unlock - now / 1000 ≤ r + 1.
Proof.
  intros Hlt.
  pose proof (N.div_mod now 1000 ltac:(lia)) as Hdm.
  pose proof (N.mod_lt now 1000 ltac:(lia)) as Hml.
  pose proof (N.div_mod (unlock * 1000 - now) 1000 ltac:(lia)) as Hdm'.
  pose proof (N.mod_lt (unlock * 1000 - now) 1000 ltac:(lia)) as Hml'.
  revert Hdm Hml Hdm' Hml'. cbv zeta.
  generalize (now / 1000) (now mod 1000) ((unlock * 1000 - now) / 1000)
             ((unlock * 1000 - now) mod 1000).
  intros q r q' r'. lia.
Qed.

(** X15: after [refreshCooldownTimer] has read the statistics of the account
    from the contract, a display update at time [now] (milliseconds) shows
    "Ready!" exactly when the [require] of [timeLocked] passes in a block
    whose timestamp is [now] in whole seconds; otherwise the contract aborts
    with "Action locked: wait" and the display shows minutes and seconds, the
    seconds below 60, that never overstate the wait and understate it by at
    most one second.  (Times are safe integers.) *)
Theorem X15_cooldown_display (s : State) (e : Env) (display_now : bool)
    (t0 now : N) (v : CooldownView) :
  let lastAction := lastActionTime (userStats s (msg_sender e)) in
  let shown :=
    cooldownTimer
      (updateCooldownDisplay now
         (refreshCooldownTimer Number display_now true
            (Some (getUserStats s (msg_sender e))) t0 v)) in
  (lastAction + 3600) * 1000 ≤ MAX_SAFE_INTEGER →
  now ≤ MAX_SAFE_INTEGER →
  block_timestamp e = now / 1000 →
  (shown = "✅ Ready!" ↔ timeLocked_check e s = inr (tt, s))
  ∧ (shown ≠ "✅ Ready!" →
     timeLocked_check e s = inl (Revert "Action locked: wait")
     ∧ ∃ mins secs,
         shown = "⏰ " +:+ pretty mins +:+ "m "
                 +:+ (if secs <? 10 then "0" else "") +:+ pretty secs +:+ "s"
         ∧ secs < 60
         ∧ 60 * mins + secs ≤ lastAction + 3600 - now / 1000
         ∧ lastAction + 3600 - now / 1000 ≤ 60 * mins + secs + 1).
Proof using Number_safe.
  intros lastAction shown Hsafe Hnow Hts.
  assert (MAX_SAFE_INTEGER < MAX_UINT256) as Hmax by (by vm_compute).
  assert (Number lastAction = lastAction) as HN by (apply Number_safe; lia).
  set (endTime := (lastAction + 3600) * 1000).
  assert (shown
          = if endTime <=? now then "✅ Ready!"
            else "⏰ " +:+ pretty ((endTime - now) / 1000 / 60) +:+ "m "
                 +:+ (if (endTime - now) / 1000 mod 60 <? 10 then "0" else "")
                 +:+ pretty ((endTime - now) / 1000 mod 60) +:+ "s") as Hshown.
  { unfold shown. apply display_text; [|unfold endTime; lia].
    unfold refreshCooldownTimer, getUserStats. cbn [negb].
    fold lastAction. rewrite HN. fold endTime.
    destruct display_now; [by rewrite display_keeps_end|done]. }
  pose proof (ready_iff (lastAction + 3600) now) as Hiff. fold endTime in Hiff.
  destruct (endTime <=? now) eqn:Hle.
  - apply N.leb_le in Hle. split; [|by rewrite Hshown].
    split; [intros _|by intros _].
    apply Ledger.timeLocked_check_ok.
    + rewrite Hts. unfold COOLDOWN_SECONDS. by apply Hiff.
    + rewrite Hts. pose proof (seconds_le now). lia.
  - apply N.leb_gt in Hle.
    assert (now / 1000 < lastAction + 3600) as Hearly.
    { apply N.lt_nge. intros H. apply Hiff in H. lia. }
    assert (timeLocked_check e s = inl (Revert "Action locked: wait")) as Hrev.
    { apply timeLocked_check_early.
      - rewrite Hts. unfold COOLDOWN_SECONDS. exact Hearly.
      - unfold COOLDOWN_SECONDS. fold lastAction. lia. }
    split.
    { split; [|by rewrite Hrev].
      rewrite Hshown. intros H. cbn in H. discriminate H. }
    intros _. split; [exact Hrev|].
    exists ((endTime - now) / 1000 / 60), ((endTime - now) / 1000 mod 60).
    split; [exact Hshown|].
    pose proof (remaining_bounds (lastAction + 3600) now Hle) as Hb.
    cbv zeta in Hb. fold endTime in Hb.
    set (r := (endTime - now) / 1000) in *.
    pose proof (N.div_mod r 60 ltac:(lia)) as Hr.
    pose proof (N.mod_lt r 60 ltac:(lia)) as Hrl.
    split; [exact Hrl|].
    rewrite <- Hr. exact Hb.
Qed.

End cooldown.

Section cooldown_witness.
Import Contract ContractViews Cooldown.

Lemma X15_cooldown_display_witness :
  cooldownTimer
    (updateCooldownDisplay 7199500
       (refreshCooldownTimer (λ n, n) true true
          (Some (getUserStats (crowd 1) 1)) 7199000 (mkCooldownView None "")))
  = "⏰ 0m 00s"
  ∧ timeLocked_check (mkEnv 1 0 7199 true true) (crowd 1)
    = inl (Revert "Action locked: wait").
Proof.
  destruct (X15_cooldown_display (λ n, n) (λ n _, eq_refl) (crowd 1)
              (mkEnv 1 0 7199 true true) true 7199000 7199500
              (mkCooldownView None "")) as [_ Hnot].
  - by vm_compute.
  - by vm_compute.
  - vm_compute. reflexivity.
  - split; [vm_compute; reflexivity|].
    apply Hnot. vm_compute. discriminate.
Defined.

End cooldown_witness.

(** ** The leaderboard view and the board of the contract *)

Section board_view.
Import Contract ContractViews Leaderboard.

Lemma render_rows_some user addresses counts i :
  (i + length addresses ≤ length counts)%nat →
  ∃ rows, render_rows user i addresses counts = Some rows
          ∧ length rows = length addresses
          ∧ ∀ j r, rows !! j = Some r →
                   row_rank r = S (i + j)
                   ∧ addresses !! j = Some (row_address r)
                   ∧ counts !! (i + j)%nat = Some (row_count r)
                   ∧ row_isCurrentUser r = isCurrentUser user (row_address r).
Proof.
  revert i. induction addresses as [|a rest IH]; intros i Hlen.
  { exists []. by split; [|split]. }
  simpl in *.
  destruct (counts !! i) as [c|] eqn:Hc.
  2:{ apply lookup_ge_None in Hc. lia. }
  destruct (IH (S i) ltac:(lia)) as (rows & -> & Hl & Hrows).
  eexists. split; [done|]. split; [simpl; lia|].
  intros [|j] r Hr; simpl in Hr.
  - injection Hr as <-. simpl. rewrite Nat.add_0_r. split; [lia|done].
  - destruct (Hrows j r Hr) as (H1 & H2 & H3 & H4).
    rewrite <- Nat.add_succ_comm. split; [lia|done].
Qed.

Lemma render_rows_none user addresses counts i :
  (i ≤ length counts)%nat →
  (length counts < i + length addresses)%nat →
  render_rows user i addresses counts = None.
Proof.
  revert i. induction addresses as [|a rest IH]; intros i Hi Hlen; simpl in *.
  { lia. }
  destruct (counts !! i) as [c|] eqn:Hc; [|done].
  apply lookup_lt_Some in Hc. by rewrite (IH (S i) ltac:(lia) ltac:(lia)).
Qed.

Lemma board_grows s ce :
  lb_inv s →
  (length (topAddresses s) ≤ length (topAddresses (transact s ce)))%nat.
Proof.
  intros Hinv. unfold transact.
  destruct (dispatch ce.1 ce.2 s) as [err|[[] s']] eqn:H; [done|].
  destruct ce as [c e]. simpl in H.
  assert (∀ up, dispatch (action up) e s = inr (tt, s') →
    (length (topAddresses s) ≤ length (topAddresses s'))%nat) as Hact.
  { intros up Hup. apply Ledger.action_effect in Hup; [|by destruct Hinv].
    destruct Hup as ((E' & HE' & HA & _) & _).
    apply LedgerMore.lb_update_keeps in HE' as [Hlen _].
    rewrite <- (length_fmap fst (leaderboard s)),
      (Ledger.leaderboard_fst s (lb_lengths s Hinv)) in Hlen.
    by rewrite HA, length_fmap. }
  destruct c; [by apply (Hact true)|by apply (Hact false)|..];
    by apply Ledger.owner_call_inv in H as [_ ->].
Qed.

Lemma board_grows_run calls s :
  lb_inv s →
  (length (topAddresses s) ≤ length (topAddresses (run s calls)))%nat.
Proof.
  revert s. induction calls as [|ce calls IH]; intros s Hinv; [done|].
  simpl. etrans; [apply (board_grows s ce Hinv)|].
  apply IH. by apply Ledger.lb_inv_transact.
Qed.

(** X16: when both reads of [fetchLeaderboard] see the same reachable state,
    the page shows one row per board entry, ranked from 1 in board order,
    each with the action count of its address.  When the counts are read
    after later calls than the addresses (the order of the reads in
    [main.js]), the rows are still shown; when the addresses are read later
    and the board has grown in between (possible with the [Promise.all] of
    the second script), the loop throws and the board is hidden. *)
Theorem X16_leaderboard_view (s : State) (calls : list (Call * Env))
    (userAddress : option address) :
  reachable s →
  let s' := run s calls in
  (∃ rows,
     fetchLeaderboard userAddress (getTopAddresses s) (getTopCounts s) = Some rows
     ∧ length rows = length (topAddresses s)
     ∧ ∀ i r, rows !! i = Some r →
              row_rank r = S i
              ∧ topAddresses s !! i = Some (row_address r)
              ∧ row_count r = incrementCount s (row_address r))
  ∧ (∃ rows,
       fetchLeaderboard userAddress (getTopAddresses s) (getTopCounts s')
       = Some rows
       ∧ length rows = length (topAddresses s))
  ∧ ((length (topAddresses s) < length (topAddresses s'))%nat →
     fetchLeaderboard userAddress (getTopAddresses s') (getTopCounts s) = None).
Proof.
  intros Hr s'.
  pose proof (Ledger.lb_inv_reachable s Hr) as Hinv.
  pose proof (Ledger.lb_inv_reachable s' (Ledger.reachable_run s calls Hr)) as Hinv'.
  pose proof (board_grows_run calls s Hinv) as Hgrow. fold s' in Hgrow.
  pose proof (lb_lengths s Hinv) as Hlen.
  pose proof (lb_lengths s' Hinv') as Hlen'.
  unfold fetchLeaderboard, getTopAddresses, getTopCounts.
  split; [|split].
  - destruct (render_rows_some userAddress (topAddresses s) (topCounts s) 0)
      as (rows & Hrows & Hl & Hspec); [simpl; lia|].
    exists rows. split; [done|]. split; [done|].
    intros i r Hi. destruct (Hspec i r Hi) as (H1 & H2 & H3 & _).
    split; [done|]. split; [done|].
    apply (lb_scores s Hinv). unfold leaderboard.
    apply list_elem_of_lookup. exists i.
    rewrite lookup_zip_with. simpl in H3. by rewrite H2, H3.
  - destruct (render_rows_some userAddress (topAddresses s) (topCounts s') 0)
      as (rows & Hrows & Hl & _); [simpl; lia|].
    by exists rows.
  - intros Hlt. apply render_rows_none; simpl; lia.
Qed.

Lemma X16_leaderboard_view_witness :
  fetchLeaderboard (Some 2) (getTopAddresses (crowd 2)) (getTopCounts (crowd 2))
  = Some [mkRow 1 1 1 false; mkRow 2 2 1 true]
  ∧ fetchLeaderboard (Some 2)
      (getTopAddresses (run (crowd 2) [(Increment, mkEnv 9 0 3600 true true)]))
      (getTopCounts (crowd 2))
    = None.
Proof.
  destruct (X16_leaderboard_view (crowd 2) [(Increment, mkEnv 9 0 3600 true true)]
              (Some 2)) as (_ & _ & Hnone).
  { apply Ledger.reachable_run, reachable_deploy. }
  split; [vm_compute; reflexivity|].
  apply Hnone. vm_compute. lia.
Defined.

End board_view.

(** ** Formatting *)

Section format.
Import Format.
Open Scope Z_scope.

(** X17: [formatTimeAgo] prints the elapsed time in the largest unit among
    seconds, minutes, hours and days that the elapsed seconds reach, rounded
    down: the number printed, times the unit, is at most the elapsed seconds
    and less than one unit below them; minutes and hours are printed from 1
    up to 59 and 23, days from 1 up.  A time stamp in the future is printed
    as a negative number of seconds. *)
Theorem X17_time_ago (now timestamp : Z) :
  let elapsed := (now - timestamp) / 1000 in
  ∃ n unit per,
    formatTimeAgo now timestamp = pretty n +:+ unit
    ∧ per * n ≤ elapsed < per * (n + 1)
    ∧ (now < timestamp → n < 0 ∧ unit = "s ago")
    ∧ ((unit = "s ago" ∧ per = 1 ∧ n < 60)
       ∨ (unit = "m ago" ∧ per = 60 ∧ 1 ≤ n < 60)
       ∨ (unit = "h ago" ∧ per = 3600 ∧ 1 ≤ n < 24)
       ∨ (unit = "d ago" ∧ per = 86400 ∧ 1 ≤ n)).
Proof.
  intros elapsed. unfold formatTimeAgo. fold elapsed.
  assert (now < timestamp → elapsed < 0) as Hneg.
  { intros Hlt. unfold elapsed. apply Z.div_lt_upper_bound; lia. }
  destruct (elapsed <? 60) eqn:H1.
  { apply Z.ltb_lt in H1. exists elapsed, "s ago", 1.
    split; [done|]. split; [lia|]. split; [|by left].
    intros Hlt. split; [by apply Hneg|done]. }
  apply Z.ltb_ge in H1.
  destruct (elapsed <? 3600) eqn:H2.
  { apply Z.ltb_lt in H2. exists (elapsed / 60), "m ago", 60.
    pose proof (Z.div_mod elapsed 60 ltac:(lia)) as Hd.
    pose proof (Z.mod_pos_bound elapsed 60 ltac:(lia)) as Hm.
    split; [done|]. split; [lia|]. split; [intros Hlt; apply Hneg in Hlt; lia|].
    right. left. split; [done|]. split; [done|]. lia. }
  apply Z.ltb_ge in H2.
  destruct (elapsed <? 86400) eqn:H3.
  { apply Z.ltb_lt in H3. exists (elapsed / 3600), "h ago", 3600.
    pose proof (Z.div_mod elapsed 3600 ltac:(lia)) as Hd.
    pose proof (Z.mod_pos_bound elapsed 3600 ltac:(lia)) as Hm.
    split; [done|]. split; [lia|]. split; [intros Hlt; apply Hneg in Hlt; lia|].
    right. right. left. split; [done|]. split; [done|]. lia. }
  apply Z.ltb_ge in H3.
  exists (elapsed / 86400), "d ago", 86400.
  pose proof (Z.div_mod elapsed 86400 ltac:(lia)) as Hd.
  pose proof (Z.mod_pos_bound elapsed 86400 ltac:(lia)) as Hm.
  split; [done|]. split; [lia|]. split; [intros Hlt; apply Hneg in Hlt; lia|].
  right. right. right. split; [done|]. split; [done|]. lia.
Qed.

Lemma X17_time_ago_witness :
  ∃ n unit, formatTimeAgo 5000 9000 = pretty n +:+ unit
            ∧ n < 0 ∧ unit = "s ago".
Proof.
  destruct (X17_time_ago 5000 9000) as (n & unit & per & Heq & _ & Hfuture & _).
  exists n, unit. split; [exact Heq|]. apply Hfuture. reflexivity.
Defined.

End format.

(** ** The guard of the refresh loop *)

Section guard.
Import Guarded.

(** X18: in the guarded script, after any sequence of page events, a set
    [isRefreshing] means exactly one cycle is in flight, and when the promise
    that cycle awaits settles, fulfilled or rejected, the guard is cleared
    and no cycle is left: the guard cannot stay set.  With the guard clear,
    a tick of the running timer of a connected page starts a cycle;
    [stopAutoRefresh] neither cancels the cycle in flight nor clears the
    guard, and after it a tick starts nothing. *)
Theorem X18_refresh_guard_recovers (evs : list PageEvent) (ok : bool) :
  let p := guarded_run guarded_init evs in
  (isRefreshing p = true →
   guarded_cycles p = [tt]
   ∧ isRefreshing (guarded_step p (Settled 0 ok)) = false
   ∧ guarded_cycles (guarded_step p (Settled 0 ok)) = [])
  ∧ (isRefreshing p = false →
     guarded_cycles p = []
     ∧ (autoRefreshInterval p ≠ None → userAddress p ≠ None →
        guarded_cycles (guarded_step p Tick) = [tt]
        ∧ isRefreshing (guarded_step p Tick) = true))
  ∧ guarded_cycles (guarded_step p StopAutoRefresh) = guarded_cycles p
  ∧ isRefreshing (guarded_step p StopAutoRefresh) = isRefreshing p
  ∧ guarded_step (guarded_step p StopAutoRefresh) Tick
    = guarded_step p StopAutoRefresh.
Proof.
  intros p.
  assert (∀ p0, guarded_cycles p0 = (if isRefreshing p0 then [tt] else []) →
    guarded_cycles (guarded_run p0 evs)
    = (if isRefreshing (guarded_run p0 evs) then [tt] else [])) as Hgen.
  { induction evs as [|ev evs' IH]; intros p0 Hp0; [done|].
    simpl. apply IH. apply (Refresh.guarded_step_keeps p0 ev Hp0). }
  pose proof (Hgen guarded_init eq_refl) as Hinv. fold p in Hinv. clear Hgen.
  split; [|split; [|split; [|split]]].
  - intros Hr. rewrite Hr in Hinv. split; [done|].
    simpl. unfold guarded_resume. by rewrite Hinv.
  - intros Hr. rewrite Hr in Hinv. split; [done|].
    intros Ht Hu. simpl. unfold guarded_tick.
    destruct (autoRefreshInterval p); [|done].
    destruct (userAddress p); [|done].
    rewrite Hr. simpl. by rewrite Hinv.
  - simpl. unfold stopAutoRefresh. by destruct (autoRefreshInterval p).
  - simpl. unfold stopAutoRefresh. by destruct (autoRefreshInterval p).
  - simpl. unfold stopAutoRefresh, guarded_tick.
    destruct (autoRefreshInterval p) eqn:Ha; simpl; [done|by rewrite Ha].
Qed.

Lemma X18_refresh_guard_witness :
  guarded_cycles
    (guarded_run guarded_init [Connected "0xA"; StartAutoRefresh; Tick])
  = [tt]
  ∧ isRefreshing
      (guarded_step
         (guarded_run guarded_init [Connected "0xA"; StartAutoRefresh; Tick])
         (Settled 0 false))
    = false.
Proof.
  destruct (X18_refresh_guard_recovers
              [Connected "0xA"; StartAutoRefresh; Tick] false) as (Hset & _).
  destruct Hset as (Hone & Hclear & _); [reflexivity|].
  split; [exact Hone|exact Hclear].
Defined.

End guard.

End ClientMore.
